(** * Resume field extraction ([parser.py]): a shallow embedding and its properties

    The development follows the source file top-down: Python strings, the
    regular expressions of the [re] module, binary64 confidences, then each
    extractor of [parser.py] under its own name, and finally the properties. *)

From Stdlib Require Import NArith ZArith List Bool String Ascii Lia Permutation Sorted.
From Stdlib Require Import SpecFloat.
Import ListNotations.
Local Open Scope list_scope.

(** ** Python strings

    A Python [str] is a sequence of Unicode code points.  The patterns of
    [parser.py] mention code points far above 255 (bullets, dashes, the
    Kannada block), so a character is a code point, not a byte. *)

Definition char := N.
Definition str := list char.

(** An ASCII literal of the source, as code points. *)
Definition lit (s : string) : str := map N_of_ascii (list_ascii_of_string s).

Fixpoint str_eqb (a b : str) : bool :=
  match a, b with
  | [], [] => true
  | x :: a', y :: b' => N.eqb x y && str_eqb a' b'
  | _, _ => false
  end.

(** [x in l] for a list of strings. *)
Definition mem_str (x : str) (l : list str) : bool := existsb (str_eqb x) l.

Definition is_ascii (c : char) : bool := (c <? 128)%N.
Definition ascii_isupper (c : char) : bool := ((65 <=? c) && (c <=? 90))%N.
Definition ascii_islower (c : char) : bool := ((97 <=? c) && (c <=? 122))%N.
Definition ascii_isalpha (c : char) : bool := ascii_isupper c || ascii_islower c.
Definition ascii_isdigit (c : char) : bool := ((48 <=? c) && (c <=? 57))%N.
Definition ascii_lower (c : char) : char := if ascii_isupper c then (c + 32)%N else c.
Definition ascii_upper (c : char) : char := if ascii_islower c then (c - 32)%N else c.

(** [str.isspace] on one code point; the same set drives [str.split()],
    [str.strip()] and the [\s] of a [str] pattern. *)
Definition isspace (c : char) : bool :=
  ((9 <=? c) && (c <=? 13) || (28 <=? c) && (c <=? 32)
   || (c =? 0x85) || (c =? 0xA0) || (c =? 0x1680)
   || (0x2000 <=? c) && (c <=? 0x200A)
   || (c =? 0x2028) || (c =? 0x2029) || (c =? 0x202F)
   || (c =? 0x205F) || (c =? 0x3000))%N.

(** Line boundaries of [str.splitlines]. *)
Definition is_linebreak (c : char) : bool :=
  ((10 <=? c) && (c <=? 13) || (28 <=? c) && (c <=? 30)
   || (c =? 0x85) || (c =? 0x2028) || (c =? 0x2029))%N.

Definition flush (cur : str) (l : list str) : list str :=
  match cur with
  | [] => l
  | _ => rev cur :: l
  end.

(** [s.split()]: maximal runs of non-whitespace, [cur] holding the run being
    read, last character first. *)
Fixpoint split_ws (cur : str) (s : str) : list str :=
  match s with
  | [] => flush cur []
  | c :: s' => if isspace c then flush cur (split_ws [] s') else split_ws (c :: cur) s'
  end.

Definition split (s : str) : list str := split_ws [] s.

(** [s.split(sep)] for a one-character separator: empty pieces are kept. *)
Fixpoint split_on (sep : char) (cur : str) (s : str) : list str :=
  match s with
  | [] => [rev cur]
  | c :: s' => if (c =? sep)%N then rev cur :: split_on sep [] s' else split_on sep (c :: cur) s'
  end.

(** [s.splitlines()]; [after_cr] is set right after a carriage return, whose
    following line feed belongs to the same boundary. *)
Fixpoint splitlines_from (after_cr : bool) (cur : str) (s : str) : list str :=
  match s with
  | [] => flush cur []
  | c :: s' =>
      if after_cr && (c =? 10)%N then splitlines_from false cur s'
      else if is_linebreak c then rev cur :: splitlines_from (c =? 13)%N [] s'
      else splitlines_from false (c :: cur) s'
  end.

Definition splitlines (s : str) : list str := splitlines_from false [] s.

(** [sep.join(l)]. *)
Fixpoint join (sep : str) (l : list str) : str :=
  match l with
  | [] => []
  | [x] => x
  | x :: l' => x ++ sep ++ join sep l'
  end.

Fixpoint lstrip_by (p : char -> bool) (s : str) : str :=
  match s with
  | [] => []
  | c :: s' => if p c then lstrip_by p s' else s
  end.

Definition rstrip_by (p : char -> bool) (s : str) : str := rev (lstrip_by p (rev s)).
Definition strip_by (p : char -> bool) (s : str) : str := rstrip_by p (lstrip_by p s).

Definition mem_char (c : char) (cs : str) : bool := existsb (N.eqb c) cs.

(** [s.strip()], [s.strip(chars)] and [s.lstrip(chars)]. *)
Definition strip (s : str) : str := strip_by isspace s.
Definition strip_chars (cs : str) (s : str) : str := strip_by (fun c => mem_char c cs) s.
Definition lstrip_chars (cs : str) (s : str) : str := lstrip_by (fun c => mem_char c cs) s.

Fixpoint startswith (p : str) (s : str) : bool :=
  match p, s with
  | [], _ => true
  | x :: p', y :: s' => N.eqb x y && startswith p' s'
  | _ :: _, [] => false
  end.

(** [needle in hay] for strings. *)
Fixpoint in_str (needle hay : str) : bool :=
  startswith needle hay ||
  match hay with
  | [] => false
  | _ :: hay' => in_str needle hay'
  end.

(** ** Python floats

    A Python [float] is an IEEE 754 binary64 number; the operations are the
    correctly rounded ones of [SpecFloat] at precision 53. *)

Definition float := spec_float.

(** The precision and the exponent bound of binary64. *)
Definition prec : Z := 53.
Definition emax : Z := 1024.

Definition fadd : float -> float -> float := SFadd prec emax.
Definition fmul : float -> float -> float := SFmul prec emax.
Definition fdiv : float -> float -> float := SFdiv prec emax.
Definition flt : float -> float -> bool := SFltb.
Definition fle : float -> float -> bool := SFleb.

(** An [int] used where a float is expected. *)
Definition of_int (z : Z) : float := binary_normalize prec emax z 0 false.

(** The decimal literal [n/d], for instance [0.35] as [decimal 35 100]: the
    double nearest to the quotient. *)
Definition decimal (n d : Z) : float := fdiv (of_int n) (of_int d).

(** [min(a, b)] keeps [a] unless [b] is smaller. *)
Definition fmin (a b : float) : float := if flt b a then b else a.

(** [m * 2^e] rounded to the nearest integer, ties to the even one. *)
Definition round_half_even (m : positive) (e : Z) : Z :=
  match e with
  | Zneg p =>
      let d := Z.pow_pos 2 p in
      let q := (Zpos m / d)%Z in
      let r := (Zpos m mod d)%Z in
      match (2 * r ?= d)%Z with
      | Lt => q
      | Gt => (q + 1)%Z
      | Eq => if Z.even q then q else (q + 1)%Z
      end
  | _ => (Zpos m * 2 ^ e)%Z
  end.

(** [int(round(x))]; there is no integer for a NaN or an infinity, where
    Python raises. *)
Definition round_int (x : float) : option Z :=
  match x with
  | S754_zero _ => Some 0%Z
  | S754_finite s m e => Some (cond_Zopp s (round_half_even m e))
  | S754_infinity _ | S754_nan => None
  end.

Definition f_0_0 : float := S754_zero false.
Definition f_0_1 : float := Eval vm_compute in decimal 1 10.
Definition f_0_2 : float := Eval vm_compute in decimal 2 10.
Definition f_0_3 : float := Eval vm_compute in decimal 3 10.
Definition f_0_35 : float := Eval vm_compute in decimal 35 100.
Definition f_0_5 : float := Eval vm_compute in decimal 5 10.
Definition f_0_7 : float := Eval vm_compute in decimal 7 10.
Definition f_0_85 : float := Eval vm_compute in decimal 85 100.
Definition f_0_9 : float := Eval vm_compute in decimal 9 10.
Definition f_0_97 : float := Eval vm_compute in decimal 97 100.
Definition f_0_98 : float := Eval vm_compute in decimal 98 100.
Definition f_0_99 : float := Eval vm_compute in decimal 99 100.
Definition f_100 : float := Eval vm_compute in of_int 100.

(** *** The Unicode character database

    Case mapping and classification are computed here for ASCII; for the other
    code points they come from the interpreter's Unicode tables, which are no
    part of the repository and are taken as a parameter.  Lowercasing sees its
    context because of the final-sigma rule of [str.lower]. *)
Record unicode_data := {
  u_decimal : char -> bool;
  u_isupper : char -> bool;
  u_islower : char -> bool;
  u_istitle : char -> bool;
  u_cased : char -> bool;
  u_lower : str -> char -> str -> char * str;
  u_title : char -> char * str;
  u_variants : char -> list char
}.

(** A database without cased letters or digits beyond ASCII. *)
Definition ascii_only : unicode_data := {|
  u_decimal := fun _ => false;
  u_isupper := fun _ => false;
  u_islower := fun _ => false;
  u_istitle := fun _ => false;
  u_cased := fun _ => false;
  u_lower := fun _ c _ => (c, []);
  u_title := fun c => (c, []);
  u_variants := fun _ => []
|}.

Section Parser.

Variable U : unicode_data.

Definition isdecimal (c : char) : bool := if is_ascii c then ascii_isdigit c else u_decimal U c.
Definition isupper_char (c : char) : bool := if is_ascii c then ascii_isupper c else u_isupper U c.
Definition islower_char (c : char) : bool := if is_ascii c then ascii_islower c else u_islower U c.
Definition istitle_char (c : char) : bool := if is_ascii c then false else u_istitle U c.
Definition iscased (c : char) : bool := if is_ascii c then ascii_isalpha c else u_cased U c.

Definition lower_char (before : str) (c : char) (after : str) : str :=
  if is_ascii c then [ascii_lower c] else let (h, t) := u_lower U before c after in h :: t.

Definition title_char (c : char) : str :=
  if is_ascii c then [ascii_upper c] else let (h, t) := u_title U c in h :: t.

(** [s.lower()]; [before] is the text already read, last character first. *)
Fixpoint lower_from (before : str) (s : str) : str :=
  match s with
  | [] => []
  | c :: s' => lower_char before c s' ++ lower_from (c :: before) s'
  end.

Definition lower (s : str) : str := lower_from [] s.

(** [s.title()]: a cased character is title-cased when the one before it is
    not cased, lowercased otherwise. *)
Fixpoint title_from (before : str) (prev_cased : bool) (s : str) : str :=
  match s with
  | [] => []
  | c :: s' =>
      (if prev_cased then lower_char before c s' else title_char c)
        ++ title_from (c :: before) (iscased c) s'
  end.

Definition title (s : str) : str := title_from [] false s.

(** [s.isupper()]: no lowercase or titlecase character and at least one
    uppercase one; a one-character string asks the character alone. *)
Fixpoint isupper_loop (cased : bool) (s : str) : bool :=
  match s with
  | [] => cased
  | c :: s' =>
      if islower_char c || istitle_char c then false
      else isupper_loop (cased || isupper_char c) s'
  end.

Definition isupper (s : str) : bool :=
  match s with
  | [c] => isupper_char c
  | _ => isupper_loop false s
  end.

(** ** Duplicate word removal *)

(** One turn of the loop of [remove_duplicate_words] over [(seen, out)]. *)
Definition dedup_step (st : list str * list str) (w : str) : list str * list str :=
  let (seen, out) := st in
  let lw := lower w in
  if mem_str lw seen then st else (seen ++ [lw], out ++ [w]).

Definition dedup_words (words : list str) : list str :=
  snd (fold_left dedup_step words ([], [])).

Definition remove_duplicate_words (text : str) : str :=
  join (lit " ") (dedup_words (split text)).

(** ** Regular expressions of the [re] module

    The patterns of [parser.py] repeat single characters only ([\d+],
    [.*?], [[ \t]+], ...), make whole groups optional, and look around by one
    character; the syntax below covers exactly that.  Matching is by
    backtracking: [results] lists the ways a pattern matches at a position
    in the order the [re] module tries them, so the head of the list is the
    match it reports. *)

(** The flags [re.I], [re.M] and [re.S]. *)
Record flags := { f_i : bool; f_m : bool; f_s : bool }.

Definition no_flags : flags := {| f_i := false; f_m := false; f_s := false |}.
Definition re_I : flags := {| f_i := true; f_m := false; f_s := false |}.
Definition re_M : flags := {| f_i := false; f_m := true; f_s := false |}.
Definition re_S : flags := {| f_i := false; f_m := false; f_s := true |}.
Definition re_SI : flags := {| f_i := true; f_m := false; f_s := true |}.

Inductive item :=
  | Chr (c : char)
  | Rng (lo hi : char).

Inductive atom :=
  | Lit (c : char)
  | Cls (items : list item)
  | Space
  | Digit
  | Dot.

Inductive regex :=
  | Eps
  | One (a : atom)
  | Rep (a : atom) (lo : nat) (hi : option nat) (greedy : bool)
  | Seq (r1 r2 : regex)
  | Alt (r1 r2 : regex)
  | Opt (r : regex)
  | Group (n : nat) (r : regex)
  | Bol
  | Eol
  | NotBehind (a : atom)
  | NotAhead (a : atom).

Definition item_mem (c : char) (i : item) : bool :=
  match i with
  | Chr x => (c =? x)%N
  | Rng lo hi => ((lo <=? c) && (c <=? hi))%N
  end.

(** The characters [re.I] lets stand for [c]: itself and its case variants. *)
Definition variants (c : char) : list char :=
  if is_ascii c then [c; ascii_lower c; ascii_upper c] else c :: u_variants U c.

Definition atom_match (f : flags) (a : atom) (c : char) : bool :=
  match a with
  | Lit x => if f_i f then existsb (N.eqb x) (variants c) else (c =? x)%N
  | Cls items =>
      if f_i f then existsb (fun v => existsb (item_mem v) items) (variants c)
      else existsb (item_mem c) items
  | Space => isspace c
  | Digit => isdecimal c
  | Dot => f_s f || negb (c =? 10)%N
  end.

(** A position in the subject: the text to its left (last character first),
    the text to its right, and the groups captured so far, latest first. *)
Record mstate := { before : str; after : str; groups : list (nat * str) }.

Definition at_pos (l r : str) : mstate := {| before := l; after := r; groups := [] |}.

Fixpoint advance (n : nat) (l r : str) : str * str :=
  match n, r with
  | S n', c :: r' => advance n' (c :: l) r'
  | _, _ => (l, r)
  end.

Definition advance_state (s : mstate) (n : nat) : mstate :=
  let (l, r) := advance n (before s) (after s) in
  {| before := l; after := r; groups := groups s |}.

(** Length of the longest run of characters satisfying [p] at the head of
    [s], cut at [hi]. *)
Fixpoint run_length (p : char -> bool) (hi : option nat) (s : str) : nat :=
  match hi, s with
  | Some 0, _ => 0
  | _, [] => 0
  | _, c :: s' => if p c then S (run_length p (option_map pred hi) s') else 0
  end.

(** The repetition counts tried, in order: longest first when greedy. *)
Definition counts (lo n : nat) (greedy : bool) : list nat :=
  let up := seq lo (S n - lo) in
  if greedy then rev up else up.

(** The text between two positions of one scan. *)
Definition between (s s' : mstate) : str :=
  rev (firstn (List.length (before s') - List.length (before s)) (before s')).

Definition set_group (n : nat) (s s' : mstate) : mstate :=
  {| before := before s'; after := after s'; groups := (n, between s s') :: groups s' |}.

Definition at_bol (f : flags) (s : mstate) : bool :=
  match before s with
  | [] => true
  | c :: _ => f_m f && (c =? 10)%N
  end.

Definition at_eol (f : flags) (s : mstate) : bool :=
  match after s with
  | [] => true
  | c :: r => (c =? 10)%N && (f_m f || match r with [] => true | _ => false end)
  end.

Fixpoint results (f : flags) (r : regex) (s : mstate) : list mstate :=
  match r with
  | Eps => [s]
  | One a =>
      match after s with
      | c :: _ => if atom_match f a c then [advance_state s 1] else []
      | [] => []
      end
  | Rep a lo hi greedy =>
      let n := run_length (atom_match f a) hi (after s) in
      if n <? lo then [] else map (advance_state s) (counts lo n greedy)
  | Seq r1 r2 => flat_map (results f r2) (results f r1 s)
  | Alt r1 r2 => results f r1 s ++ results f r2 s
  | Opt r1 => results f r1 s ++ [s]
  | Group n r1 => map (set_group n s) (results f r1 s)
  | Bol => if at_bol f s then [s] else []
  | Eol => if at_eol f s then [s] else []
  | NotBehind a =>
      match before s with
      | c :: _ => if atom_match f a c then [] else [s]
      | [] => [s]
      end
  | NotAhead a =>
      match after s with
      | c :: _ => if atom_match f a c then [] else [s]
      | [] => [s]
      end
  end.

(** A literal string as a pattern: what [re.escape] produces. *)
Fixpoint escape (s : str) : regex :=
  match s with
  | [] => Eps
  | c :: s' => Seq (One (Lit c)) (escape s')
  end.

(** The match at one position; group 0 is the whole match. *)
Definition match_at (f : flags) (r : regex) (l rr : str) : option mstate :=
  hd_error (results f (Group 0 r) (at_pos l rr)).

(** [re.match]. *)
Definition re_match (f : flags) (r : regex) (text : str) : option mstate :=
  match_at f r [] text.

Fixpoint search_from (f : flags) (r : regex) (l rr : str) : option mstate :=
  match match_at f r l rr with
  | Some m => Some m
  | None =>
      match rr with
      | [] => None
      | c :: rr' => search_from f r (c :: l) rr'
      end
  end.

(** [re.search]: the match at the leftmost position that has one. *)
Definition search (f : flags) (r : regex) (text : str) : option mstate :=
  search_from f r [] text.

(** [m.group(n)]; [None] for a group that took no part in the match. *)
Fixpoint assoc_group (n : nat) (g : list (nat * str)) : option str :=
  match g with
  | [] => None
  | (k, v) :: g' => if Nat.eqb k n then Some v else assoc_group n g'
  end.

Definition group (m : mstate) (n : nat) : option str := assoc_group n (groups m).

(** Number of characters a match starting after [l] spans. *)
Definition span (l : str) (m : mstate) : nat := List.length (before m) - List.length l.

(** The first match at a position that is not empty: what the scanners look
    for right after an empty match at the same place. *)
Definition match_nonempty (f : flags) (r : regex) (l rr : str) : option mstate :=
  find (fun m => negb (span l m =? 0)) (results f (Group 0 r) (at_pos l rr)).

Definition cons_fst {A B : Type} (a : A) (p : list A * B) : list A * B :=
  (a :: fst p, snd p).

(** The non-overlapping matches from left to right, each with the text
    between it and the match before; then the text after the last match.
    [skip] counts the characters of the current match still to pass, [gap]
    holds the unmatched text read since the last match, last character
    first. *)
Fixpoint scan (f : flags) (r : regex) (l rr : str) (skip : nat) (gap : str)
  : list (str * mstate) * str :=
  match skip with
  | S k =>
      match rr with
      | c :: rr' => scan f r (c :: l) rr' k gap
      | [] => ([], rev gap)
      end
  | 0 =>
      match match_at f r l rr with
      | None =>
          match rr with
          | c :: rr' => scan f r (c :: l) rr' 0 (c :: gap)
          | [] => ([], rev gap)
          end
      | Some m =>
          match span l m with
          | S k =>
              match rr with
              | c :: rr' => cons_fst (rev gap, m) (scan f r (c :: l) rr' k [])
              | [] => ([(rev gap, m)], [])
              end
          | 0 =>
              match match_nonempty f r l rr, rr with
              | Some m', c :: rr' =>
                  cons_fst (rev gap, m)
                    (cons_fst ([], m') (scan f r (c :: l) rr' (span l m' - 1) []))
              | _, c :: rr' => cons_fst (rev gap, m) (scan f r (c :: l) rr' 0 [c])
              | _, [] => ([(rev gap, m)], [])
              end
          end
      end
  end.

Definition finditer (f : flags) (r : regex) (text : str) : list (str * mstate) * str :=
  scan f r [] text 0 [].

(** [re.sub] with a replacement free of back-references. *)
Definition sub (f : flags) (r : regex) (repl : str) (text : str) : str :=
  let (ms, rest) := finditer f r text in
  flat_map (fun gm => fst gm ++ repl) ms ++ rest.

(** [re.split] for a pattern without groups. *)
Definition re_split (f : flags) (r : regex) (text : str) : list str :=
  let (ms, rest) := finditer f r text in
  map fst ms ++ [rest].

(** [re.findall] for a pattern with one group and with two groups; a group
    that took no part yields the empty string. *)
Definition group_or_empty (m : mstate) (n : nat) : str :=
  match group m n with
  | Some v => v
  | None => []
  end.

Definition findall1 (f : flags) (r : regex) (text : str) : list str :=
  map (fun gm => group_or_empty (snd gm) 1) (fst (finditer f r text)).

Definition findall2 (f : flags) (r : regex) (text : str) : list (str * str) :=
  map (fun gm => (group_or_empty (snd gm) 1, group_or_empty (snd gm) 2))
      (fst (finditer f r text)).

(** Pattern shorthands. *)
Definition star (a : atom) : regex := Rep a 0 None true.
Definition plus (a : atom) : regex := Rep a 1 None true.
Definition maybe (a : atom) : regex := Rep a 0 (Some 1) true.
Definition ch (s : string) : char :=
  match s with
  | String a _ => N_of_ascii a
  | EmptyString => 0%N
  end.
Definition rng (a b : string) : item := Rng (ch a) (ch b).
Definition seqs (rs : list regex) : regex := fold_right Seq Eps rs.

(** ** Errors

    [None] stands for a Python exception (an [AttributeError] on a group
    that took no part in the match, an [IndexError] on an empty list, the
    [ValueError] of rounding a NaN). *)
Definition bind {A B : Type} (x : option A) (k : A -> option B) : option B :=
  match x with
  | Some a => k a
  | None => None
  end.

Notation "x <- e ;; k" := (bind e (fun x => k))
  (at level 61, e at next level, right associativity).

Fixpoint mapM {A B : Type} (g : A -> option B) (l : list A) : option (list B) :=
  match l with
  | [] => Some []
  | a :: l' => b <- g a ;; bs <- mapM g l' ;; Some (b :: bs)
  end.

Definition is_some {A : Type} (x : option A) : bool :=
  match x with
  | Some _ => true
  | None => false
  end.

Definition nonempty (s : str) : bool :=
  match s with
  | [] => false
  | _ => true
  end.

(** ** Text normalisation and language *)

Definition NUL : char := 0%N.
Definition TAB : char := 9%N.
Definition LF : char := 10%N.
Definition CR : char := 13%N.
Definition BULLET : char := 0x2022%N.
Definition EN_DASH : char := 0x2013%N.
Definition EM_DASH : char := 0x2014%N.

(** [text.replace(old, new)] for a one-character [old]. *)
Definition replace_char (old : char) (new : str) (text : str) : str :=
  flat_map (fun c => if (c =? old)%N then new else [c]) text.

Definition clean_text (text : str) : str :=
  let text := replace_char NUL (lit " ") text in
  let text := sub no_flags (plus (Cls [Chr (ch " "); Chr TAB])) (lit " ") text in
  let text := sub no_flags (One (Lit CR)) [LF] text in
  let text := sub no_flags (Rep (Lit LF) 3 None true) [LF; LF] text in
  strip text.

Definition is_kannada (text : str) : bool :=
  is_some (search no_flags (One (Cls [Rng 0x0C80%N 0x0CFF%N])) text).

(** ** Name extraction *)

Definition name_keywords : list str :=
  map lit ["email"; "phone"; "linkedin"; "github"; "cgpa"; "education";
           "skills"; "project"; "experience"]%string.

(** [[|•*►◆−–—-]] *)
Definition decoration : atom :=
  Cls [Chr (ch "|"); Chr BULLET; Chr (ch "*"); Chr 0x25BA%N; Chr 0x25C6%N;
       Chr 0x2212%N; Chr EN_DASH; Chr EM_DASH; Chr (ch "-")].

(** The characters of [" .,|-–—()[]{}"]. *)
Definition line_trim : str :=
  lit " .,|-" ++ [EN_DASH; EM_DASH] ++ lit "()[]{}".

Definition name_word : atom :=
  Cls [rng "A" "Z"; rng "a" "z"; Chr (ch "'"); Chr (ch "."); Chr (ch "-")].

(** [^[A-Z][A-Za-z'.-]+\s+[A-Z][A-Za-z'.-]+] *)
Definition name_re : regex :=
  seqs [Bol; One (Cls [rng "A" "Z"]); plus name_word; plus Space;
        One (Cls [rng "A" "Z"]); plus name_word].

Definition letters : atom := Cls [rng "a" "z"; rng "A" "Z"].

(** [([a-zA-Z]+)[\._]?([a-zA-Z]+)?@] *)
Definition name_email_re : regex :=
  seqs [Group 1 (plus letters); maybe (Cls [Chr (ch "."); Chr (ch "_")]);
        Opt (Group 2 (plus letters)); One (Lit (ch "@"))].

(** The body of the inner loop: [Some] is a [return], [None] a [continue]. *)
Definition name_of_candidate (seen : list str) (name : str) : option (str * float) :=
  let words := split name in
  if (List.length words <? 2) || (5 <? List.length words) then None
  else
    let lower_name := lower name in
    if mem_str lower_name seen then None
    else if is_some (re_match no_flags name_re name) then Some (name, f_0_99)
    else if forallb (fun w => match w with c :: _ => isupper_char c | [] => false end) words
         then Some (name, f_0_97)
    else None.

Fixpoint first_some {A B : Type} (g : A -> option B) (l : list A) : option B :=
  match l with
  | [] => None
  | a :: l' =>
      match g a with
      | Some b => Some b
      | None => first_some g l'
      end
  end.

(** The body of the outer loop, for one line. *)
Definition name_of_line (seen : list str) (line : str) : option (str * float) :=
  let line := sub no_flags (One decoration) (lit " ") line in
  let line := strip_chars line_trim (sub no_flags (Rep Space 2 None true) (lit " ") line) in
  if negb (nonempty line) || (List.length line <? 5) then None
  else if existsb (fun kw => in_str kw (lower line)) name_keywords then None
  else
    let candidates :=
      filter nonempty
        (map strip (re_split no_flags (Alt (Rep Space 4 None true) (plus (Lit TAB))) line)) in
    first_some (name_of_candidate seen) candidates.

Definition name_lines (text : str) : list str :=
  filter (fun l => nonempty (strip l)) (firstn 30 (splitlines text)).

(** The name found by the loop over the lines, if any; [seen] stays empty
    up to the first [return]. *)
Definition name_candidate (text : str) : option (str * float) :=
  first_some (name_of_line []) (name_lines text).

Definition extract_name (text : str) : option (str * float) :=
  match name_candidate text with
  | Some r => Some r
  | None =>
      match search no_flags name_email_re text with
      | Some email =>
          g1 <- group email 1 ;;
          let second :=
            match group email 2 with
            | Some g2 => if nonempty g2 then title g2 else []
            | None => []
            end in
          Some (strip (title g1 ++ lit " " ++ second), f_0_85)
      | None => Some (lit "Unknown", f_0_1)
      end
  end.

(** ** Contact extraction *)

(** [(\+91[- ]?)?[6-9]\d{9}] *)
Definition phone_re : regex :=
  seqs [Opt (Group 1 (Seq (escape (lit "+91")) (maybe (Cls [Chr (ch "-"); Chr (ch " ")]))));
        One (Cls [rng "6" "9"]); Rep Digit 9 (Some 9) true].

(** [[A-Za-z0-9._%+-]+@[A-Za-z0-9.-]+\.[A-Za-z]{2,}] *)
Definition email_re : regex :=
  seqs [plus (Cls [rng "A" "Z"; rng "a" "z"; rng "0" "9"; Chr (ch "."); Chr (ch "_");
                   Chr (ch "%"); Chr (ch "+"); Chr (ch "-")]);
        One (Lit (ch "@"));
        plus (Cls [rng "A" "Z"; rng "a" "z"; rng "0" "9"; Chr (ch "."); Chr (ch "-")]);
        One (Lit (ch "."));
        Rep (Cls [rng "A" "Z"; rng "a" "z"]) 2 None true].

Definition handle : atom :=
  Cls [rng "A" "Z"; rng "a" "z"; rng "0" "9"; Chr (ch "-"); Chr (ch "_")].

(** [(linkedin\.com/in/[A-Za-z0-9\-_]+)] and [(github\.com/[A-Za-z0-9\-_]+)] *)
Definition linkedin_re : regex := Group 1 (Seq (escape (lit "linkedin.com/in/")) (plus handle)).
Definition github_re : regex := Group 1 (Seq (escape (lit "github.com/")) (plus handle)).

(** One [if m: out[key] = m.group(n); score += w] of [extract_contacts]. *)
Definition contact_field (key : string) (m : option mstate) (n : nat) (w : float)
    (st : list (string * str) * float) : option (list (string * str) * float) :=
  match m with
  | Some m => v <- group m n ;; Some (fst st ++ [(key, v)], fadd (snd st) w)
  | None => Some st
  end.

Definition extract_contacts (text : str) : option (list (string * str) * float) :=
  let phone := search no_flags phone_re text in
  let email := search no_flags email_re text in
  let linkedin := search re_I linkedin_re text in
  let github := search re_I github_re text in
  st <- contact_field "phone" phone 0 f_0_35 ([], f_0_0) ;;
  st <- contact_field "email" email 0 f_0_35 st ;;
  st <- contact_field "linkedin" linkedin 1 f_0_2 st ;;
  st <- contact_field "github" github 1 f_0_2 st ;;
  Some (fst st, fmin (snd st) f_0_99).

(** ** Skills *)

Definition alnum : atom := Cls [rng "a" "z"; rng "0" "9"].

(** [(?<![a-z0-9])skill(?![a-z0-9])] *)
Definition skill_re (skill : str) : regex :=
  seqs [NotBehind alnum; escape (lower skill); NotAhead alnum].

(** [found.add(x)] on a set kept as a duplicate-free list. *)
Definition set_add (x : str) (found : list str) : list str :=
  if mem_str x found then found else found ++ [x].

(** Order of strings: by code point, a proper prefix first. *)
Fixpoint str_leb (a b : str) : bool :=
  match a, b with
  | [], _ => true
  | _ :: _, [] => false
  | x :: a', y :: b' => (x <? y)%N || ((x =? y)%N && str_leb a' b')
  end.

Fixpoint insert_sorted (x : str) (l : list str) : list str :=
  match l with
  | [] => [x]
  | y :: l' => if str_leb x y then x :: l else y :: insert_sorted x l'
  end.

Definition sorted (l : list str) : list str := fold_right insert_sorted [] l.

Definition skills_found (low : str) (skills_list : list str) : list str :=
  fold_left
    (fun found skill =>
       if is_some (search no_flags (skill_re skill) low) then set_add (title skill) found
       else found)
    skills_list [].

Definition skills_score (found : nat) (listed : nat) : float :=
  if (found =? 0)%nat then f_0_1
  else
    fmin (fadd f_0_3
            (fdiv (fmul f_0_7 (of_int (Z.of_nat found)))
                  (of_int (Z.of_nat (Nat.max 1 (listed / 5))))))
         f_0_98.

Definition extract_skills (text : str) (skills_list : list str) : list str * float :=
  let found := skills_found (lower text) skills_list in
  (sorted found, skills_score (List.length found) (List.length skills_list)).

(** ** CGPA *)

(** [(\d+\.\d{1,2})] *)
Definition number : regex :=
  Group 1 (seqs [plus Digit; One (Lit (ch ".")); Rep Digit 1 (Some 2) true]).

(** [CGPA.*?(\d+\.\d{1,2})] and [GPA.*?(\d+\.\d{1,2})] *)
Definition cgpa_re : regex := seqs [escape (lit "CGPA"); Rep Dot 0 None false; number].
Definition gpa_re : regex := seqs [escape (lit "GPA"); Rep Dot 0 None false; number].

(** [(\d+\.\d{1,2})\s*/\s*10] and [(\d+\.\d{1,2})\s*out\s*of\s*10] *)
Definition slash_ten_re : regex :=
  seqs [number; star Space; One (Lit (ch "/")); star Space; escape (lit "10")].
Definition out_of_ten_re : regex :=
  seqs [number; star Space; escape (lit "out"); star Space; escape (lit "of");
        star Space; escape (lit "10")].

(** The four patterns, in the order of the source. *)
Definition cgpa_patterns : list regex := [cgpa_re; gpa_re; slash_ten_re; out_of_ten_re].

Fixpoint cgpa_loop (patterns : list regex) (text : str) : option (str * float) :=
  match patterns with
  | [] => Some ([], f_0_0)
  | p :: ps =>
      match search re_I p text with
      | Some m => g <- group m 1 ;; Some (g, f_0_99)
      | None => cgpa_loop ps text
      end
  end.

Definition extract_cgpa (text : str) : option (str * float) :=
  cgpa_loop cgpa_patterns text.

(** ** Project extraction *)

(** [(?si)(projects?|project details)\s*[:\-]?\s*(.+?)(\n[A-Z][A-Za-z ]{3,}|$)] *)
Definition section_re : regex :=
  seqs [Group 1 (Alt (Seq (escape (lit "project")) (maybe (Lit (ch "s"))))
                     (escape (lit "project details")));
        star Space; maybe (Cls [Chr (ch ":"); Chr (ch "-")]); star Space;
        Group 2 (Rep Dot 1 None false);
        Group 3 (Alt (seqs [One (Lit LF); One (Cls [rng "A" "Z"]);
                            Rep (Cls [rng "A" "Z"; rng "a" "z"; Chr (ch " ")]) 3 None true])
                     Eol)].

(** [^[A-Za-z].{4,}] *)
Definition title_re : regex :=
  seqs [Bol; One (Cls [rng "A" "Z"; rng "a" "z"]); Rep Dot 4 None true].

(** [(?m)^\s*(\d+\.|\(\d+\))\s*(.+)] *)
Definition numbered_re : regex :=
  seqs [Bol; star Space;
        Group 1 (Alt (Seq (plus Digit) (One (Lit (ch "."))))
                     (seqs [One (Lit (ch "(")); plus Digit; One (Lit (ch ")"))]));
        star Space; Group 2 (plus Dot)].

(** [title\s*\n(.+?)(\n\d+\.|\n[A-Z ]{3,}|$)], the title escaped. *)
Definition description_re (title : str) : regex :=
  seqs [escape title; star Space; One (Lit LF);
        Group 1 (Rep Dot 1 None false);
        Group 2 (Alt (seqs [One (Lit LF); plus Digit; One (Lit (ch "."))])
                (Alt (seqs [One (Lit LF);
                            Rep (Cls [rng "A" "Z"; Chr (ch " ")]) 3 None true])
                     Eol))].

(** [(?m)^\s*[-•*]\s*(.+)] *)
Definition bullet_re : regex :=
  seqs [Bol; star Space; One (Cls [Chr (ch "-"); Chr BULLET; Chr (ch "*")]);
        star Space; Group 1 (plus Dot)].

(** [" – "] *)
Definition dash_sep : str := [ch " "; EN_DASH; ch " "].

Definition startswith_any (ps : list str) (s : str) : bool :=
  existsb (fun p => startswith p s) ps.

Definition title_exclusions : list str :=
  [[BULLET]; lit "-"; lit "*"; [BULLET; ch " "]; lit "1."; lit "2."].

Definition bullet_starts : list str := [[BULLET]; lit "-"; lit "*"].

(** [combined[-1].append(line)]; an empty [combined] has no last item. *)
Fixpoint append_to_last (combined : list (list str)) (line : str) : option (list (list str)) :=
  match combined with
  | [] => None
  | [c] => Some [c ++ [line]]
  | c :: cs => cs' <- append_to_last cs line ;; Some (c :: cs')
  end.

(** One turn of the loop over the lines of the section block, on
    [(current_title, combined)]. *)
Definition block_step (st : str * list (list str)) (line : str)
  : option (str * list (list str)) :=
  let (current_title, combined) := st in
  if isupper line then Some st
  else if is_some (re_match no_flags title_re line)
          && negb (startswith_any title_exclusions line)
       then Some (line, combined ++ [[line]])
  else if nonempty current_title
          && (startswith_any bullet_starts line || (3 <? List.length (split line)))
       then combined' <- append_to_last combined line ;; Some (current_title, combined')
  else Some st.

Fixpoint foldM {A S : Type} (g : S -> A -> option S) (l : list A) (st : S) : option S :=
  match l with
  | [] => Some st
  | a :: l' => st' <- g st a ;; foldM g l' st'
  end.

(** The entry a group [c] of [combined] appends to [projects]. *)
Definition project_of_group (c : list str) : option str :=
  match c with
  | [] => None
  | title :: descs =>
      let desc := join (lit "; ") (map (lstrip_chars (BULLET :: lit "-* ")) descs) in
      Some (if nonempty desc then title ++ dash_sep ++ desc else title)
  end.

Definition section_projects (text : str) : option (list str) :=
  match search re_SI section_re text with
  | None => Some []
  | Some sec =>
      block <- group sec 2 ;;
      let lines :=
        map strip (filter (fun l => 2 <? List.length (strip l)) (split_on LF [] block)) in
      st <- foldM block_step lines ([], []) ;;
      mapM project_of_group (snd st)
  end.

(** The entry one numbered title appends to [projects]. *)
Definition numbered_project (text : str) (item : str * str) : option str :=
  let title := strip (snd item) in
  match search re_S (description_re title) text with
  | Some desc =>
      g <- group desc 1 ;;
      let block := sub no_flags (Rep (Lit LF) 1 (Some 2) true) (lit " ") (strip g) in
      Some (title ++ dash_sep ++ block)
  | None => Some title
  end.

Definition numbered_projects (text : str) : option (list str) :=
  mapM (numbered_project text) (findall2 re_M numbered_re text).

Definition bullet_projects (text : str) : list str :=
  map strip (filter (fun b => 5 <? List.length b) (findall1 re_M bullet_re text)).

(** The final loop: trim, drop short entries and repetitions. *)
Definition final_step (final : list str) (p : str) : list str :=
  let p := strip_chars (lit " .-_") p in
  if (5 <? List.length p) && negb (mem_str p final) then final ++ [p] else final.

Definition final_projects (projects : list str) : list str :=
  fold_left final_step projects [].

Definition extract_projects (text : str) : option (list str * float) :=
  sect <- section_projects text ;;
  numbered <- numbered_projects text ;;
  let projects := sect ++ numbered ++ bullet_projects text in
  let final := final_projects projects in
  Some (firstn 10 final, match final with [] => f_0_0 | _ => f_0_9 end).

(** ** Experience *)

Definition experience_entry := list (string * str).

Definition extract_experience (text : str) : list experience_entry * float := ([], f_0_0).

(** ** Confidence percentages *)

Definition section_confidence_map (d : list (string * float)) : option (list (string * Z)) :=
  mapM (fun kv => p <- round_int (fmul (snd kv) f_100) ;; Some (fst kv, p)) d.

(** ** Parsing one document

    [load_text] and [load_skills_dict] read files; the document's file name,
    its raw text and the list of skills are the inputs here. *)

Record parsed := {
  p_file : str;
  p_name : str;
  p_contacts : list (string * str);
  p_skills : list str;
  p_cgpa : str;
  p_projects : list str;
  p_projects_text : str;
  p_experience : list experience_entry;
  p_confidence : list (string * Z);
  p_language : str;
  p_raw_text : str
}.

(** [list(dict.fromkeys(l))]: the first occurrence of each entry. *)
Definition fromkeys (l : list str) : list str :=
  fold_left (fun acc x => if mem_str x acc then acc else acc ++ [x]) l [].

Definition parse_file (file : str) (raw : str) (skills_list : list str) : option parsed :=
  let text := clean_text raw in
  nc <- extract_name text ;;
  let name := remove_duplicate_words (fst nc) in
  cc <- extract_contacts text ;;
  let sc := extract_skills text skills_list in
  let skills := fromkeys (fst sc) in
  gc <- extract_cgpa text ;;
  pc <- extract_projects text ;;
  let projects := map remove_duplicate_words (fst pc) in
  let ec := extract_experience text in
  conf <- section_confidence_map
            [("name", snd nc); ("contact", snd cc); ("skills", snd sc);
             ("education", f_0_5); ("cgpa", snd gc);
             ("projects", snd pc); ("experience", snd ec)]%string ;;
  Some {| p_file := file;
          p_name := name;
          p_contacts := fst cc;
          p_skills := skills;
          p_cgpa := fst gc;
          p_projects := projects;
          p_projects_text := join (lit " ") projects;
          p_experience := fst ec;
          p_confidence := conf;
          p_language := if is_kannada text then lit "Kannada" else lit "English";
          p_raw_text := text |}.


(** ** Vocabulary of the properties *)

(** [l1] is [l2] with some entries left out, the others in their order. *)
Inductive subseq {A : Type} : list A -> list A -> Prop :=
  | subseq_nil : subseq [] []
  | subseq_skip : forall x l1 l2, subseq l1 l2 -> subseq l1 (x :: l2)
  | subseq_keep : forall x l1 l2, subseq l1 l2 -> subseq (x :: l1) (x :: l2).

(** A whitespace-delimited token: not empty, free of whitespace. *)
Definition token (w : str) : Prop :=
  w <> [] /\ Forall (fun c => isspace c = false) w.

(** A confidence within [0.0, 0.99]. *)
Definition confidence_ok (c : float) : Prop :=
  fle f_0_0 c = true /\ fle c f_0_99 = true.

(** A percentage within [0, 99]. *)
Definition percentage_ok (p : Z) : Prop := (0 <= p <= 99)%Z.

(** Every run of characters satisfying [p] in [s] is shorter than [n]. *)
Fixpoint short_runs (p : char -> bool) (n : nat) (s : str) : bool :=
  match s with
  | [] => true
  | _ :: s' => (run_length p None s <? n) && short_runs p n s'
  end.

(** Group [n] is set on every way [r] can match. *)
Fixpoint always_sets (n : nat) (r : regex) : bool :=
  match r with
  | Group k r1 => (k =? n) || always_sets n r1
  | Seq r1 r2 => always_sets n r1 || always_sets n r2
  | Alt r1 r2 => always_sets n r1 && always_sets n r2
  | _ => false
  end.

(** Floats that are zero, positive or plus infinity, a finite one with a
    mantissa of at most 53 bits. *)
Definition nonneg (x : float) : Prop :=
  match x with
  | S754_zero false | S754_infinity false => True
  | S754_finite false m _ => (Zpos m < 2 ^ 53)%Z
  | _ => False
  end.

(** Floats within [0.0, 0.99]: zero, or positive with a mantissa of at most
    53 bits and not above the double [0.99]. *)
Definition unit_float (c : float) : Prop :=
  match c with
  | S754_zero false => True
  | S754_finite false m e =>
      (Zpos m < 2 ^ 53)%Z /\ (e < -53 \/ (e = -53 /\ Zpos m <= 8917127262193582))%Z
  | _ => False
  end.


(** The largest length of a Python list, [sys.maxsize] on a 64-bit
    interpreter. *)
Definition max_size : Z := (2 ^ 63 - 1)%Z.

(** [if b then score + w else score], the effect of one field on the score
    of the contacts. *)
Definition add_if (b : bool) (w score : float) : float :=
  if b then fadd score w else score.

(** The literal [p] stands at the head of [s], under the flags [f]. *)
Fixpoint lits_match (f : flags) (p : str) (s : str) : bool :=
  match p, s with
  | [], _ => true
  | x :: p', c :: s' => atom_match f (Lit x) c && lits_match f p' s'
  | _ :: _, [] => false
  end.

(** The literal [p] occurs somewhere in [s], under the flags [f]. *)
Fixpoint occurs (f : flags) (p : str) (s : str) : bool :=
  lits_match f p s ||
  match s with
  | [] => false
  | _ :: s' => occurs f p s'
  end.

(** The first character of [s] satisfies [p]. *)
Definition starts_with (p : char -> bool) (s : str) : bool :=
  match s with
  | c :: _ => p c
  | [] => false
  end.

(** The last character of [s] satisfies [p]. *)
Definition ends_with (p : char -> bool) (s : str) : bool := starts_with p (rev s).

(** The vocabulary [load_skills_dict] falls back to. *)
Definition default_skills : list str :=
  map lit ["python"; "java"; "react"; "django"; "flask"; "aws"; "docker"]%string.

(** Patterns that do not look at the text before the position they start
    at. *)
Fixpoint context_free (r : regex) : bool :=
  match r with
  | Bol | NotBehind _ => false
  | Seq r1 r2 | Alt r1 r2 => context_free r1 && context_free r2
  | Opt r1 | Group _ r1 => context_free r1
  | _ => true
  end.

(** The same position with [l0] more text to the far left. *)
Definition shift (l0 : str) (s : mstate) : mstate :=
  {| before := before s ++ l0; after := after s; groups := groups s |}.

(** ** Notions used by the proofs *)

(** What the loop has established after the words [ws]. *)
Record dedup_inv (ws : list str) (st : list str * list str) : Prop := {
  inv_seen : fst st = map lower (snd st);
  inv_nodup : NoDup (map lower (snd st));
  inv_subseq : subseq (snd st) ws;
  inv_covered : forall w, In w ws -> In (lower w) (map lower (snd st));
  inv_first : forall i w, nth_error ws i = Some w ->
      (forall j v, j < i -> nth_error ws j = Some v -> lower v <> lower w) ->
      In w (snd st)
}.

(** The text [re.sub] assembles from the matches of a scan. *)
Definition sub_out (repl : str) (p : list (str * mstate) * str) : str :=
  flat_map (fun gm => fst gm ++ repl) (fst p) ++ snd p.

(** [re.sub] of the runs of at least [lo] characters satisfying [p]; [b]
    tells that the scan stands inside a run it has replaced. *)
Fixpoint squeeze (p : char -> bool) (lo : nat) (repl : str) (b : bool) (s : str) : str :=
  match s with
  | [] => []
  | c :: s' =>
      if p c then
        if b then squeeze p lo repl true s'
        else if lo <=? run_length p None s then repl ++ squeeze p lo repl true s'
        else c :: squeeze p lo repl false s'
      else c :: squeeze p lo repl false s'
  end.

Definition sp_or_tab : char -> bool :=
  atom_match no_flags (Cls [Chr (ch " "); Chr TAB]).
Definition is_cr : char -> bool := atom_match no_flags (Lit CR).
Definition is_lf : char -> bool := atom_match no_flags (Lit LF).

(** What [clean_text] establishes: no NUL, tab or carriage return, no two
    blanks in a row, no three line feeds in a row. *)
Definition normalised (s : str) : Prop :=
  Forall (fun c => c <> NUL /\ c <> TAB /\ c <> CR) s
  /\ short_runs sp_or_tab 2 s = true
  /\ short_runs is_lf 3 s = true.

(** The four rewriting steps of [clean_text], before the final trim. *)
Definition rewritten (text : str) : str :=
  sub no_flags (Rep (Lit LF) 3 None true) [LF; LF]
    (sub no_flags (One (Lit CR)) [LF]
       (sub no_flags (plus (Cls [Chr (ch " "); Chr TAB])) (lit " ")
          (replace_char NUL (lit " ") text))).

(** The loop over the block keeps a group open whenever it has a title. *)
Definition block_inv (st : str * list (list str)) : Prop :=
  (fst st <> [] -> snd st <> []) /\ Forall (fun c => c <> []) (snd st).

Definition AT : char := ch "@".
Definition is_letter : char -> bool := atom_match no_flags letters.
Definition is_name_sep : char -> bool :=
  atom_match no_flags (Cls [Chr (ch "."); Chr (ch "_")]).

(** The characters of [w] that are no letters. *)
Definition non_letters (w : str) : str := filter (fun c => negb (is_letter c)) w.

Definition sentence : str := lit "Call me at 9876543210 or email x@y.com".

Definition six_to_nine : char -> bool := atom_match no_flags (Cls [rng "6" "9"]).
Definition local_char : char -> bool :=
  atom_match no_flags
    (Cls [rng "A" "Z"; rng "a" "z"; rng "0" "9"; Chr (ch "."); Chr (ch "_");
          Chr (ch "%"); Chr (ch "+"); Chr (ch "-")]).
Definition domain_char : char -> bool :=
  atom_match no_flags (Cls [rng "A" "Z"; rng "a" "z"; rng "0" "9"; Chr (ch "."); Chr (ch "-")]).

(** ** Further notions *)

(** A code point of the Kannada block. *)
Definition kannada_char (c : char) : bool := ((0x0C80 <=? c) && (c <=? 0x0CFF))%N.

(** A float that is a number: neither an infinity nor a NaN. *)
Definition is_finite (x : float) : bool :=
  match x with
  | S754_zero _ | S754_finite _ _ _ => true
  | S754_infinity _ | S754_nan => false
  end.

(** The pattern [r] holds no group numbered [n]. *)
Fixpoint sets_no (n : nat) (r : regex) : bool :=
  match r with
  | Group k r1 => negb (k =? n) && sets_no n r1
  | Seq r1 r2 | Alt r1 r2 => sets_no n r1 && sets_no n r2
  | Opt r1 => sets_no n r1
  | _ => true
  end.

(** The weight of a contact field in the score. *)
Definition contact_weight (key : string) : float :=
  if (String.eqb key "phone" || String.eqb key "email")%bool then f_0_35 else f_0_2.

(** The score of the fields [keys], added in their order. *)
Definition contact_sum (keys : list string) : float :=
  fold_left (fun score key => fadd score (contact_weight key)) keys f_0_0.

(** What the turn for the field [key] appends to the mapping, given the
    outcome [m] of its search. *)
Definition contact_entry (key : string) (m : option mstate) (n : nat)
    (e : list (string * str)) : Prop :=
  match m with
  | Some ms => exists v, group ms n = Some v /\ e = [(key, v)]
  | None => e = []
  end.

(** Whatever a group numbered [n] inside [r] consumes satisfies [P]. *)
Fixpoint groups_hold (f : flags) (n : nat) (P : str -> Prop) (r : regex) : Prop :=
  match r with
  | Group k r1 =>
      (k = n -> forall s s1 w, In s1 (results f r1 s) -> after s = w ++ after s1 -> P w)
      /\ groups_hold f n P r1
  | Seq r1 r2 | Alt r1 r2 => groups_hold f n P r1 /\ groups_hold f n P r2
  | Opt r1 => groups_hold f n P r1
  | _ => True
  end.

(** A number as the CGPA patterns read it: decimal digits, a character the
    escaped dot matches under [re.I], one or two decimal digits. *)
Definition decimal_number (w : str) : Prop :=
  exists a d b,
    w = a ++ d :: b
    /\ a <> [] /\ forallb isdecimal a = true
    /\ atom_match re_I (Lit (ch ".")) d = true
    /\ 1 <= List.length b <= 2 /\ forallb isdecimal b = true.

(** A run of ASCII letters, not empty. *)
Definition letter_run (w : str) : Prop := w <> [] /\ forallb ascii_isalpha w = true.

(** The order [sorted] sorts by, as a relation. *)
Definition str_le (a b : str) : Prop := str_leb a b = true.

(** The term [skill] of the vocabulary is found in the lowercased text. *)
Definition skill_hit (low skill : str) : bool :=
  is_some (search no_flags (skill_re skill) low).

(** A character of [[a-z0-9]], the word characters of the skill pattern. *)
Definition alnum_char : char -> bool := atom_match no_flags alnum.

(** A link as the contact patterns read it: the label in any letter case,
    then at least one character that the class of letters, digits, hyphen and
    underscore matches under [re.I]. *)
Definition link_value (label v : str) : Prop :=
  exists w h,
    v = w ++ h
    /\ List.length w = List.length label
    /\ lits_match re_I label w = true
    /\ h <> [] /\ forallb (atom_match re_I handle) h = true.

(** A text without a line feed. *)
Definition single_line (s : str) : Prop := Forall (fun c => c <> LF) s.

(** Position [i] of [ws] holds the first occurrence of a word: no word before
    it has the same lowercase form. *)
Definition first_occurrence (ws : list str) (i : nat) : Prop :=
  exists w, nth_error ws i = Some w
            /\ forall j v, j < i -> nth_error ws j = Some v -> lower v <> lower w.

(** The fallback pattern after its first group. *)
Definition name_email_tail : regex :=
  seqs [maybe (Cls [Chr (ch "."); Chr (ch "_")]);
        Opt (Group 2 (plus letters)); One (Lit (ch "@"))].

(** After [pre], [text] holds a run of letters [g1], at most one dot or
    underscore [sep], a run of letters [g2] that may be empty, and an at
    sign. *)
Definition address_at (text pre g1 sep g2 rest : str) : Prop :=
  text = pre ++ g1 ++ sep ++ g2 ++ AT :: rest
  /\ letter_run g1
  /\ (sep = [] \/ sep = lit "." \/ sep = lit "_")
  /\ forallb ascii_isalpha g2 = true.

(** [n] is an integer nearest to the fraction [num / d], and the even one of
    the two nearest when the fraction lies halfway between them. *)
Definition nearest_even (num d n : Z) : Prop :=
  (Z.abs (2 * (n * d - num)) <= d
   /\ (Z.abs (2 * (n * d - num)) = d -> Z.even n = true))%Z.

(** The value of a float that is a number, as a fraction: the mantissa with
    its sign times two to the exponent. *)
Definition numerator (x : float) : Z :=
  match x with
  | S754_finite s m e => cond_Zopp s (Zpos m * 2 ^ Z.max 0 e)
  | _ => 0
  end.

Definition denominator (x : float) : Z :=
  match x with
  | S754_finite _ _ e => 2 ^ Z.max 0 (- e)
  | _ => 1
  end.

(** [n] is the value of [x] rounded to the nearest integer, ties to even. *)
Definition rounds_to (x : float) (n : Z) : Prop :=
  is_finite x = true /\ nearest_even (numerator x) (denominator x) n.

(** * Properties *)

(** ** Strings *)

Lemma str_eqb_eq (a b : str) : str_eqb a b = true <-> a = b.
Proof.
  revert b; induction a as [|x a IH]; intros [|y b]; simpl; split;
    try congruence; try reflexivity.
  - intros H. apply andb_prop in H as [Hx Ha].
    apply N.eqb_eq in Hx. apply IH in Ha. congruence.
  - intros H. injection H as -> ->.
    rewrite N.eqb_refl. simpl. now apply IH.
Qed.

Lemma str_eqb_refl (a : str) : str_eqb a a = true.
Proof. now apply str_eqb_eq. Qed.

Lemma mem_str_In (x : str) (l : list str) : mem_str x l = true <-> In x l.
Proof.
  unfold mem_str. rewrite existsb_exists. split.
  - intros (y & Hy & E). apply str_eqb_eq in E. now subst.
  - intros H. exists x. split; [assumption | apply str_eqb_refl].
Qed.

Lemma mem_str_not_In (x : str) (l : list str) : mem_str x l = false <-> ~ In x l.
Proof.
  rewrite <- mem_str_In. destruct (mem_str x l); split; congruence.
Qed.

Lemma subseq_refl {A : Type} (l : list A) : subseq l l.
Proof. induction l; constructor; assumption. Qed.

Lemma subseq_nil_l {A : Type} (l : list A) : subseq [] l.
Proof. induction l; constructor; assumption. Qed.

Lemma subseq_app {A : Type} (a b c d : list A) :
  subseq a b -> subseq c d -> subseq (a ++ c) (b ++ d).
Proof.
  induction 1; intros Hcd; simpl;
    [assumption | apply subseq_skip; auto | apply subseq_keep; auto].
Qed.

Lemma subseq_In {A : Type} (l1 l2 : list A) (x : A) :
  subseq l1 l2 -> In x l1 -> In x l2.
Proof.
  induction 1; simpl; intros Hin; auto.
  destruct Hin; auto.
Qed.

Lemma subseq_length {A : Type} (l1 l2 : list A) :
  subseq l1 l2 -> List.length l1 <= List.length l2.
Proof. induction 1; simpl; lia. Qed.

(** *** Splitting on whitespace *)

Lemma flush_tokens (cur : str) (l : list str) :
  Forall (fun c => isspace c = false) cur -> Forall token l -> Forall token (flush cur l).
Proof.
  intros Hc Hl. destruct cur as [|c cur]; simpl; [assumption|].
  constructor; [|assumption]. split.
  - intros E. apply (f_equal (@List.length char)) in E.
    rewrite length_app in E. simpl in E. lia.
  - apply Forall_app. split.
    + apply Forall_rev. now inversion Hc.
    + constructor; [now inversion Hc | constructor].
Qed.

Lemma split_ws_tokens (s cur : str) :
  Forall (fun c => isspace c = false) cur -> Forall token (split_ws cur s).
Proof.
  revert cur. induction s as [|c s IH]; intros cur Hc; simpl.
  - apply flush_tokens; [assumption | constructor].
  - destruct (isspace c) eqn:E.
    + apply flush_tokens; [assumption | apply IH; constructor].
    + apply IH. constructor; assumption.
Qed.

(** The pieces [split] returns are tokens. *)
Lemma split_tokens (s : str) : Forall token (split s).
Proof. apply split_ws_tokens. constructor. Qed.

Lemma split_ws_word (w rest cur : str) :
  Forall (fun c => isspace c = false) w ->
  split_ws cur (w ++ rest) = split_ws (rev w ++ cur) rest.
Proof.
  revert cur. induction w as [|c w IH]; intros cur Hw; simpl; [reflexivity|].
  inversion Hw as [|? ? Hc Hw']; subst. rewrite Hc.
  rewrite IH by assumption. now rewrite <- app_assoc.
Qed.

Lemma flush_rev (w : str) (l : list str) : w <> [] -> flush (rev w) l = w :: l.
Proof.
  intros Hne. destruct (rev w) eqn:E.
  - apply (f_equal (@rev char)) in E. rewrite rev_involutive in E. contradiction.
  - unfold flush. rewrite <- E. now rewrite rev_involutive.
Qed.

Lemma split_word (w : str) : token w -> split w = [w].
Proof.
  intros [Hne Hw]. unfold split.
  rewrite <- (app_nil_r w) at 1. rewrite split_ws_word by assumption.
  cbn [split_ws]. rewrite app_nil_r. now apply flush_rev.
Qed.

(** Joining tokens with one space and splitting again gives the tokens
    back. *)
Lemma split_join (ws : list str) :
  Forall token ws -> split (join (lit " ") ws) = ws.
Proof.
  induction ws as [|w ws IH]; intros H; [reflexivity|].
  inversion H as [|? ? Hw Hws]; subst.
  destruct ws as [|w' ws]; [now apply split_word|].
  change (join (lit " ") (w :: w' :: ws)) with (w ++ lit " " ++ join (lit " ") (w' :: ws)).
  unfold split. destruct Hw as [Hne Hw].
  rewrite split_ws_word by assumption.
  change (lit " " ++ join (lit " ") (w' :: ws)) with (32%N :: join (lit " ") (w' :: ws)).
  cbn [split_ws]. change (isspace 32%N) with true. cbv iota.
  rewrite app_nil_r. fold (split (join (lit " ") (w' :: ws))). rewrite IH by assumption.
  now apply flush_rev.
Qed.

(** ** Duplicate word removal *)

Lemma dedup_step_snoc (ws : list str) (w : str) (st : list str * list str) :
  fold_left dedup_step (ws ++ [w]) st = dedup_step (fold_left dedup_step ws st) w.
Proof. now rewrite fold_left_app. Qed.


Lemma dedup_loop_inv (ws : list str) : dedup_inv ws (fold_left dedup_step ws ([], [])).
Proof.
  induction ws as [|w ws IH] using rev_ind.
  - simpl. split; simpl; try constructor; try contradiction.
    intros [|i] w; discriminate.
  - rewrite dedup_step_snoc.
    destruct (fold_left dedup_step ws ([], [])) as [seen out].
    destruct IH as [Hseen Hnd Hsub Hcov Hfirst]. simpl in *. subst seen.
    unfold dedup_step. destruct (mem_str (lower w) (map lower out)) eqn:E.
    + apply mem_str_In in E. split; simpl; auto.
      * rewrite <- (app_nil_r out). apply subseq_app; [assumption|].
        constructor. constructor.
      * intros v Hv. apply in_app_or in Hv as [Hv | [<- | []]]; auto.
      * intros i v Hi Hj.
        destruct (Nat.lt_ge_cases i (List.length ws)) as [Hlt | Hge].
        -- rewrite nth_error_app1 in Hi by assumption.
           apply (Hfirst i v Hi). intros j u Hji Hu. apply (Hj j u Hji).
           rewrite nth_error_app1 by lia. assumption.
        -- exfalso. rewrite nth_error_app2 in Hi by assumption.
           destruct (i - List.length ws) as [|k] eqn:Ek; simpl in Hi;
             [|destruct k; discriminate].
           injection Hi as <-.
           apply in_map_iff in E as (u & Eu & Hu).
           apply (subseq_In _ _ _ Hsub) in Hu.
           apply In_nth_error in Hu as (j & Hj').
           assert (Hjl : j < List.length ws) by (apply nth_error_Some; congruence).
           apply (Hj j u); [lia | | assumption].
           rewrite nth_error_app1 by assumption. assumption.
    + apply mem_str_not_In in E. split; simpl.
      * now rewrite map_app.
      * rewrite map_app. simpl. apply NoDup_app; [assumption | | ].
        -- constructor; [intros [] | constructor].
        -- intros x Hx [<- | []]. contradiction.
      * apply subseq_app; [assumption | apply subseq_refl].
      * intros v Hv. rewrite map_app. apply in_or_app.
        apply in_app_or in Hv as [Hv | [<- | []]]; [left; auto | right; now left].
      * intros i v Hi Hj. apply in_or_app.
        destruct (Nat.lt_ge_cases i (List.length ws)) as [Hlt | Hge].
        -- left. rewrite nth_error_app1 in Hi by assumption.
           apply (Hfirst i v Hi). intros j u Hji Hu. apply (Hj j u Hji).
           rewrite nth_error_app1 by lia. assumption.
        -- right. rewrite nth_error_app2 in Hi by assumption.
           destruct (i - List.length ws) as [|k] eqn:Ek; simpl in Hi;
             [|destruct k; discriminate].
           injection Hi as <-. now left.
Qed.

Lemma dedup_words_subseq (ws : list str) : subseq (dedup_words ws) ws.
Proof. apply (inv_subseq _ _ (dedup_loop_inv ws)). Qed.

Lemma Forall_subseq {A : Type} (P : A -> Prop) (l1 l2 : list A) :
  subseq l1 l2 -> Forall P l2 -> Forall P l1.
Proof.
  induction 1; intros HP; auto.
  - inversion HP; auto.
  - inversion HP; subst. constructor; auto.
Qed.

(** The tokens of the output are the words the loop kept. *)
Lemma split_remove_duplicate_words (text : str) :
  split (remove_duplicate_words text) = dedup_words (split text).
Proof.
  unfold remove_duplicate_words. apply split_join.
  apply (Forall_subseq _ _ _ (dedup_words_subseq _)). apply split_tokens.
Qed.

(** *** Positions of the words kept *)

Lemma first_occurrence_snoc (ws : list str) (w : str) (i : nat) :
  first_occurrence (ws ++ [w]) i
  <-> first_occurrence ws i
      \/ (i = List.length ws /\ forall v, In v ws -> lower v <> lower w).
Proof.
  unfold first_occurrence. split.
  - intros (x & Hx & Hj).
    destruct (Nat.lt_ge_cases i (List.length ws)) as [Hlt|Hge].
    + left. rewrite nth_error_app1 in Hx by assumption. exists x. split; [assumption|].
      intros j v Hji Hv. apply (Hj j v Hji). rewrite nth_error_app1 by lia. assumption.
    + right. rewrite nth_error_app2 in Hx by assumption.
      destruct (i - List.length ws) as [|k] eqn:Ek; simpl in Hx;
        [|destruct k; discriminate].
      injection Hx as <-. split; [lia|].
      intros v Hv. apply In_nth_error in Hv as (j & Hv).
      assert (Hjl : j < List.length ws) by (apply nth_error_Some; congruence).
      apply (Hj j v); [lia|]. rewrite nth_error_app1 by assumption. assumption.
  - intros [(x & Hx & Hj)|(-> & Hall)].
    + assert (Hi : i < List.length ws) by (apply nth_error_Some; congruence).
      exists x. rewrite nth_error_app1 by assumption. split; [assumption|].
      intros j v Hji Hv. apply (Hj j v Hji).
      rewrite nth_error_app1 in Hv by lia. assumption.
    + exists w. rewrite nth_error_app2, Nat.sub_diag by lia. split; [reflexivity|].
      intros j v Hj Hv. rewrite nth_error_app1 in Hv by assumption.
      apply Hall. eapply nth_error_In. eassumption.
Qed.

Lemma StronglySorted_snoc (pos : list nat) (n : nat) :
  StronglySorted lt pos -> Forall (fun i => i < n) pos -> StronglySorted lt (pos ++ [n]).
Proof.
  induction 1 as [|i pos Hs IH Hi]; intros Hn; simpl.
  - repeat constructor.
  - inversion Hn; subst. constructor; [now apply IH|].
    apply Forall_app. split; [assumption | now repeat constructor].
Qed.

(** The words kept are the words at the positions of the first occurrences,
    in increasing position. *)
Lemma dedup_positions (ws : list str) :
  exists pos,
    StronglySorted lt pos
    /\ map (nth_error ws) pos = map Some (dedup_words ws)
    /\ forall i, In i pos <-> first_occurrence ws i.
Proof.
  induction ws as [|w ws (pos & Hs & Hm & Hp)] using rev_ind.
  - exists []. split; [constructor|]. split; [reflexivity|].
    intros i. split; [intros []|]. intros (x & Hx & _). now destruct i.
  - assert (Hlt : Forall (fun i => i < List.length ws) pos).
    { apply Forall_forall. intros i Hi. apply Hp in Hi as (x & Hx & _).
      apply nth_error_Some. congruence. }
    assert (Hm' : map (nth_error (ws ++ [w])) pos = map Some (dedup_words ws)).
    { rewrite <- Hm. apply map_ext_in. intros i Hi. rewrite Forall_forall in Hlt.
      apply nth_error_app1. now apply Hlt. }
    unfold dedup_words in *. rewrite dedup_step_snoc.
    pose proof (dedup_loop_inv ws) as [Hseen _ Hsub Hcov _].
    destruct (fold_left dedup_step ws ([], [])) as [seen out]. cbn [fst snd] in *.
    subst seen. unfold dedup_step.
    destruct (mem_str (lower w) (map lower out)) eqn:E; cbn [snd].
    + apply mem_str_In in E. exists pos. split; [assumption|]. split; [assumption|].
      intros i. rewrite first_occurrence_snoc, <- Hp. split; [auto|].
      intros [Hi|(_ & Hall)]; [assumption|]. exfalso.
      apply in_map_iff in E as (u & Eu & Hu).
      apply (Hall u); [apply (subseq_In _ _ _ Hsub Hu) | assumption].
    + apply mem_str_not_In in E. exists (pos ++ [List.length ws]).
      split; [now apply StronglySorted_snoc|]. split.
      * rewrite !map_app, Hm'. cbn [map].
        now rewrite nth_error_app2, Nat.sub_diag by lia.
      * intros i. rewrite first_occurrence_snoc, in_app_iff, <- Hp. cbn [In].
        split.
        -- intros [Hi|[<-|[]]]; [auto|]. right. split; [reflexivity|].
           intros v Hv Ev. apply E. rewrite <- Ev. now apply Hcov.
        -- intros [Hi|(-> & _)]; auto.
Qed.

(** C9. Token deduplication: the output of [remove_duplicate_words] has no two
    whitespace-delimited tokens with the same lowercase form; its tokens are
    tokens of the input in their original casing and order; the first
    occurrence of every token is among them, so every input token has its
    lowercase form represented; the output is exactly the tokens at the
    positions of the first occurrences, taken in increasing position; and
    the text John John Smith Smith becomes John Smith. *)
Theorem remove_duplicate_words_dedups :
  forall text : str,
    let tokens := split text in
    let out := split (remove_duplicate_words text) in
    NoDup (map lower out)
    /\ subseq out tokens
    /\ (forall i w, nth_error tokens i = Some w ->
          (forall j v, j < i -> nth_error tokens j = Some v -> lower v <> lower w) ->
          In w out)
    /\ (forall w, In w tokens -> In (lower w) (map lower out))
    /\ (exists pos,
          StronglySorted lt pos
          /\ map (nth_error tokens) pos = map Some out
          /\ forall i, In i pos <-> first_occurrence tokens i)
    /\ remove_duplicate_words (lit "John John Smith Smith") = lit "John Smith".
Proof.
  intros text tokens out. subst out tokens.
  rewrite split_remove_duplicate_words.
  destruct (dedup_loop_inv (split text)) as [_ Hnd Hsub Hcov Hfirst].
  repeat (split; [assumption|]).
  split; [apply dedup_positions|].
  vm_compute. reflexivity.
Qed.

(** ** Regular expressions *)

Lemma advance_spec (n : nat) (l r : str) :
  advance n l r = (rev (firstn n r) ++ l, skipn n r).
Proof.
  revert l r. induction n as [|n IH]; intros l [|c r]; simpl; try reflexivity.
  rewrite IH. now rewrite <- app_assoc.
Qed.

Lemma before_advance_state (s : mstate) (n : nat) :
  before (advance_state s n) = rev (firstn n (after s)) ++ before s.
Proof. unfold advance_state. now rewrite advance_spec. Qed.

Lemma after_advance_state (s : mstate) (n : nat) :
  after (advance_state s n) = skipn n (after s).
Proof. unfold advance_state. now rewrite advance_spec. Qed.

Lemma groups_advance_state (s : mstate) (n : nat) :
  groups (advance_state s n) = groups s.
Proof. unfold advance_state. now rewrite advance_spec. Qed.

Lemma run_length_le (p : char -> bool) (hi : option nat) (s : str) :
  run_length p hi s <= List.length s.
Proof.
  revert hi. induction s as [|c s IH]; intros hi.
  - destruct hi as [[|h]|]; simpl; lia.
  - destruct hi as [[|h]|]; simpl; try lia; destruct (p c); simpl;
      try lia; apply le_n_S; apply IH.
Qed.

Lemma run_length_nil (p : char -> bool) (hi : option nat) : run_length p hi [] = 0.
Proof. destruct hi as [[|h]|]; reflexivity. Qed.

Lemma run_length_0 (p : char -> bool) (s : str) : run_length p (Some 0) s = 0.
Proof. now destruct s. Qed.

Lemma run_length_cons (p : char -> bool) (c : char) (s : str) :
  run_length p None (c :: s) = if p c then S (run_length p None s) else 0.
Proof. reflexivity. Qed.

(** The greedy order starts with the longest run. *)
Lemma counts_greedy_head (lo n : nat) :
  lo <= n -> exists rest, counts lo n true = n :: rest.
Proof.
  intros H. unfold counts. replace (S n - lo) with (S (n - lo)) by lia.
  rewrite seq_S, rev_app_distr. simpl. replace (lo + (n - lo)) with n by lia.
  eauto.
Qed.

(** The lazy order starts with the shortest. *)
Lemma counts_lazy (lo n : nat) :
  lo <= n -> counts lo n false = lo :: seq (S lo) (n - lo).
Proof.
  intros H. unfold counts. replace (S n - lo) with (S (n - lo)) by lia. reflexivity.
Qed.

Lemma In_counts (lo n k : nat) (g : bool) : In k (counts lo n g) -> lo <= k <= n.
Proof.
  unfold counts. intros H.
  assert (Hs : In k (seq lo (S n - lo))) by (destruct g; [now apply in_rev|assumption]).
  apply in_seq in Hs. lia.
Qed.

Lemma span_advance (l rr : str) (n : nat) (g : list (nat * str)) (k : nat) :
  n <= List.length rr ->
  span l (set_group k (at_pos l rr) (advance_state (at_pos l rr) n)) = n.
Proof.
  intros H. unfold span, set_group. simpl. rewrite before_advance_state. simpl.
  rewrite length_app, length_rev, length_firstn. lia.
Qed.

(** A greedy repetition at the top of a pattern takes the longest run, if
    that run is long enough. *)
Lemma match_at_rep (f : flags) (a : atom) (lo : nat) (hi : option nat) (l rr : str) :
  match_at f (Rep a lo hi true) l rr =
    let n := run_length (atom_match f a) hi rr in
    if n <? lo then None
    else Some (set_group 0 (at_pos l rr) (advance_state (at_pos l rr) n)).
Proof.
  unfold match_at. cbn [results after at_pos]. cbv zeta.
  destruct (Nat.ltb_spec (run_length (atom_match f a) hi rr) lo) as [H|H]; [reflexivity|].
  destruct (counts_greedy_head _ _ H) as (rest & ->). reflexivity.
Qed.

Lemma match_at_one (f : flags) (a : atom) (l rr : str) :
  match_at f (One a) l rr =
    match rr with
    | c :: _ =>
        if atom_match f a c
        then Some (set_group 0 (at_pos l rr) (advance_state (at_pos l rr) 1))
        else None
    | [] => None
    end.
Proof.
  unfold match_at. cbn [results after at_pos].
  destruct rr as [|c rr]; [reflexivity|]. now destruct (atom_match f a c).
Qed.

(** *** Substitution *)


Lemma sub_sub_out (f : flags) (r : regex) (repl text : str) :
  sub f r repl text = sub_out repl (finditer f r text).
Proof. unfold sub, sub_out. now destruct (finditer f r text). Qed.

Lemma sub_out_cons (repl gap : str) (m : mstate) (p : list (str * mstate) * str) :
  sub_out repl (cons_fst (gap, m) p) = gap ++ repl ++ sub_out repl p.
Proof. unfold sub_out, cons_fst. simpl. now rewrite <- !app_assoc. Qed.


Lemma scan_rep (f : flags) (a : atom) (lo : nat) (repl : str) :
  0 < lo ->
  forall rr l gap,
    sub_out repl (scan f (Rep a lo None true) l rr 0 gap)
      = rev gap ++ squeeze (atom_match f a) lo repl false rr
    /\ sub_out repl (scan f (Rep a lo None true) l rr
                       (run_length (atom_match f a) None rr) gap)
      = rev gap ++ squeeze (atom_match f a) lo repl true rr.
Proof.
  intros Hlo. set (p := atom_match f a).
  assert (Hnil : forall l gap,
            sub_out repl (scan f (Rep a lo None true) l [] 0 gap) = rev gap ++ []).
  { intros l gap. cbn [scan]. rewrite match_at_rep. cbv zeta. rewrite run_length_nil.
    destruct (Nat.ltb_spec 0 lo); [|lia]. unfold sub_out. simpl.
    now rewrite app_nil_r. }
  induction rr as [|c rr IH]; intros l gap.
  - rewrite run_length_nil. split; apply Hnil.
  - assert (H0 : sub_out repl (scan f (Rep a lo None true) l (c :: rr) 0 gap)
                 = rev gap ++ squeeze p lo repl false (c :: rr)).
    { cbn [scan]. rewrite match_at_rep. cbv zeta. fold p.
      rewrite run_length_cons. cbn [squeeze]. rewrite run_length_cons.
      destruct (p c) eqn:Hp.
      + destruct (Nat.ltb_spec (S (run_length p None rr)) lo) as [Hlt|Hge].
        * destruct (Nat.leb_spec lo (S (run_length p None rr))); [lia|].
          rewrite (proj1 (IH _ _)). simpl. now rewrite <- app_assoc.
        * destruct (Nat.leb_spec lo (S (run_length p None rr))); [|lia].
          rewrite span_advance
            by (exact [] || (simpl; apply le_n_S; apply run_length_le)).
          rewrite sub_out_cons.
          rewrite (proj2 (IH _ _)). reflexivity.
      + destruct (Nat.ltb_spec 0 lo); [|lia].
        rewrite (proj1 (IH _ _)). simpl. now rewrite <- app_assoc. }
    split; [exact H0|].
    fold p. rewrite run_length_cons. destruct (p c) eqn:Hp.
    + cbn [scan squeeze]. rewrite Hp. apply IH.
    + rewrite H0. cbn [squeeze]. now rewrite Hp.
Qed.

Lemma sub_rep (f : flags) (a : atom) (lo : nat) (repl text : str) :
  0 < lo ->
  sub f (Rep a lo None true) repl text = squeeze (atom_match f a) lo repl false text.
Proof.
  intros Hlo. rewrite sub_sub_out. unfold finditer.
  now rewrite (proj1 (scan_rep f a lo repl Hlo text [] [])).
Qed.

Lemma scan_one (f : flags) (a : atom) (repl : str) :
  forall rr l gap,
    sub_out repl (scan f (One a) l rr 0 gap)
      = rev gap ++ flat_map (fun c => if atom_match f a c then repl else [c]) rr.
Proof.
  induction rr as [|c rr IH]; intros l gap; cbn [scan]; rewrite match_at_one.
  - unfold sub_out. simpl. now rewrite app_nil_r.
  - cbn [flat_map]. destruct (atom_match f a c) eqn:Hp.
    + rewrite span_advance by (exact [] || (simpl; lia)).
      rewrite sub_out_cons, IH. reflexivity.
    + rewrite IH. simpl. now rewrite <- app_assoc.
Qed.

Lemma sub_one (f : flags) (a : atom) (repl text : str) :
  sub f (One a) repl text = flat_map (fun c => if atom_match f a c then repl else [c]) text.
Proof. rewrite sub_sub_out. unfold finditer. now rewrite scan_one. Qed.

(** ** Binary64 arithmetic *)

Section Floats.

Local Open Scope Z_scope.

Lemma digits2_pos_size (p : positive) : digits2_pos p = Pos.size p.
Proof. induction p; simpl; congruence. Qed.

Lemma Zdigits2_log2 (p : positive) : Zdigits2 (Zpos p) = Z.succ (Z.log2 (Zpos p)).
Proof.
  simpl. rewrite digits2_pos_size. destruct p; simpl; try reflexivity;
    now rewrite Pos.add_1_r.
Qed.

Lemma Zdigits2_nonneg (m : Z) : 0 <= Zdigits2 m.
Proof. destruct m; simpl; lia. Qed.

Lemma Zdigits2_upper (m : Z) : 0 <= m -> m < 2 ^ Zdigits2 m.
Proof.
  intros H. destruct m as [|p|p]; [simpl; lia | | lia].
  rewrite Zdigits2_log2. apply Z.log2_spec. lia.
Qed.

Lemma Zdigits2_lower (p : positive) : 2 ^ (Zdigits2 (Zpos p) - 1) <= Zpos p.
Proof.
  rewrite Zdigits2_log2. replace (Z.succ (Z.log2 (Zpos p)) - 1) with (Z.log2 (Zpos p)) by lia.
  apply Z.log2_spec. lia.
Qed.

Lemma Zdigits2_le (m : Z) (d : Z) : 0 <= m -> m < 2 ^ d -> 0 <= d -> Zdigits2 m <= d.
Proof.
  intros Hm Hd H0. destruct m as [|p|p]; [simpl; lia | | lia].
  rewrite Zdigits2_log2. apply Z.log2_lt_pow2 in Hd; lia.
Qed.

Lemma Zdigits2_ge (m : Z) (d : Z) : 2 ^ d <= m -> 0 <= d -> d < Zdigits2 m.
Proof.
  intros Hd H0. assert (0 < 2 ^ d) by (apply Z.pow_pos_nonneg; lia).
  destruct m as [|p|p]; [lia | | lia].
  rewrite Zdigits2_log2. apply Z.log2_le_pow2 in Hd; lia.
Qed.

(** *** Shifting a mantissa right *)

Lemma shr_1_m (mrs : shr_record) :
  0 <= shr_m mrs -> shr_m (shr_1 mrs) = shr_m mrs / 2.
Proof.
  destruct mrs as [m r s]. simpl. intros H.
  destruct m as [|[p|p|]|p]; simpl; try reflexivity; try lia.
  - rewrite Pos2Z.inj_xI. apply Z.div_unique with 1; lia.
  - rewrite Pos2Z.inj_xO. apply Z.div_unique with 0; lia.
Qed.

Lemma iter_shr_1_m (n : positive) :
  forall mrs, 0 <= shr_m mrs ->
    shr_m (iter_pos shr_1 n mrs) = shr_m mrs / 2 ^ Zpos n.
Proof.
  assert (Hd : forall a b c, 0 <= b -> 0 <= c -> a / 2 ^ b / 2 ^ c = a / 2 ^ (b + c)).
  { intros a b c Hb Hc. rewrite Z.pow_add_r by assumption.
    assert (0 < 2 ^ b) by (apply Z.pow_pos_nonneg; lia).
    assert (0 < 2 ^ c) by (apply Z.pow_pos_nonneg; lia).
    apply Z.div_div; lia. }
  assert (Hp : forall a b, 0 <= a -> 0 <= b -> 0 <= a / 2 ^ b).
  { intros a b Ha Hb. apply Z.div_pos; [assumption | apply Z.pow_pos_nonneg; lia]. }
  induction n as [n IH|n IH|]; intros mrs Hm; simpl iter_pos.
  - assert (H1 : 0 <= shr_m (shr_1 mrs))
      by (rewrite shr_1_m by assumption; apply Z.div_pos; lia).
    assert (H2 : 0 <= shr_m (iter_pos shr_1 n (shr_1 mrs)))
      by (rewrite IH by assumption; apply Hp; lia).
    rewrite (IH _ H2), (IH _ H1), shr_1_m by assumption.
    change (shr_m mrs / 2) with (shr_m mrs / 2 ^ 1).
    rewrite !Hd by lia. f_equal. f_equal. lia.
  - assert (H2 : 0 <= shr_m (iter_pos shr_1 n mrs))
      by (rewrite IH by assumption; apply Hp; lia).
    rewrite (IH _ H2), (IH _ Hm).
    rewrite !Hd by lia. f_equal. f_equal. lia.
  - rewrite shr_1_m by assumption. reflexivity.
Qed.

Lemma loc_of_shr_record_of_loc (m : Z) (l : location) :
  loc_of_shr_record (shr_record_of_loc m l) = l.
Proof. destruct l as [|[]]; reflexivity. Qed.

Lemma shr_m_of_loc (m : Z) (l : location) : shr_m (shr_record_of_loc m l) = m.
Proof. destruct l as [|[]]; reflexivity. Qed.

(** [shr_fexp] divides the mantissa by a power of two, none when the
    exponent is already the right one. *)
Lemma shr_fexp_spec (m e : Z) (l : location) :
  0 <= m ->
  exists mrs,
    shr_fexp prec emax m e l
      = (mrs, e + Z.max 0 (fexp prec emax (Zdigits2 m + e) - e))
    /\ shr_m mrs = m / 2 ^ Z.max 0 (fexp prec emax (Zdigits2 m + e) - e)
    /\ (fexp prec emax (Zdigits2 m + e) - e <= 0 -> loc_of_shr_record mrs = l).
Proof.
  intros Hm. unfold shr_fexp, shr.
  destruct (fexp prec emax (Zdigits2 m + e) - e) as [|n|n] eqn:E.
  - eexists. split; [f_equal; simpl; lia|]. rewrite shr_m_of_loc, Z.div_1_r.
    split; [reflexivity | intros _; apply loc_of_shr_record_of_loc].
  - eexists. split; [f_equal; simpl; lia|].
    rewrite iter_shr_1_m by (rewrite shr_m_of_loc; assumption).
    rewrite shr_m_of_loc. split; [reflexivity | lia].
  - eexists. split; [f_equal; simpl; lia|]. rewrite shr_m_of_loc, Z.div_1_r.
    split; [reflexivity | intros _; apply loc_of_shr_record_of_loc].
Qed.

Lemma round_nearest_even_bounds (m : Z) (l : location) :
  m <= round_nearest_even m l <= m + 1.
Proof. destruct l as [|[]]; simpl; try lia. destruct (Z.even m); lia. Qed.

(** *** Rounding

    The result of rounding a non-negative mantissa, in terms of the two
    shifts [n1] and [n2] and of the mantissa [m1] between them. *)
Lemma binary_round_aux_spec (mx ex : Z) (lx : location) :
  0 <= mx ->
  exists m1 n1 n2,
    n1 = Z.max 0 (fexp prec emax (Zdigits2 mx + ex) - ex)
    /\ mx / 2 ^ n1 <= m1 <= mx / 2 ^ n1 + 1
    /\ (lx = loc_Exact -> fexp prec emax (Zdigits2 mx + ex) - ex <= 0 -> m1 = mx)
    /\ n2 = Z.max 0 (fexp prec emax (Zdigits2 m1 + (ex + n1)) - (ex + n1))
    /\ binary_round_aux prec emax false mx ex lx =
         match m1 / 2 ^ n2 with
         | Z0 => S754_zero false
         | Zpos m =>
             if ex + n1 + n2 <=? emax - prec
             then S754_finite false m (ex + n1 + n2)
             else S754_infinity false
         | Zneg _ => S754_nan
         end.
Proof.
  intros Hm. unfold binary_round_aux.
  destruct (shr_fexp_spec mx ex lx Hm) as (mrs1 & -> & Hm1 & Hl1).
  set (n1 := Z.max 0 (fexp prec emax (Zdigits2 mx + ex) - ex)) in *.
  set (m1 := round_nearest_even (shr_m mrs1) (loc_of_shr_record mrs1)).
  assert (Hb : mx / 2 ^ n1 <= m1 <= mx / 2 ^ n1 + 1).
  { subst m1. rewrite <- Hm1. apply round_nearest_even_bounds. }
  assert (Hm1' : 0 <= m1).
  { assert (0 <= mx / 2 ^ n1) by (apply Z.div_pos; [lia | apply Z.pow_pos_nonneg; lia]).
    lia. }
  destruct (shr_fexp_spec m1 (ex + n1) loc_Exact Hm1') as (mrs2 & -> & Hm2 & _).
  exists m1, n1, (Z.max 0 (fexp prec emax (Zdigits2 m1 + (ex + n1)) - (ex + n1))).
  repeat split; try apply Hb.
  - intros -> Hle. subst m1. rewrite Hl1 by assumption. simpl.
    rewrite Hm1. subst n1. rewrite Z.max_l by lia. apply Z.div_1_r.
  - rewrite Hm2. rewrite Z.add_assoc. reflexivity.
Qed.

Lemma fexp_ge (z : Z) : z - 53 <= fexp prec emax z /\ -1074 <= fexp prec emax z.
Proof. unfold fexp, SpecFloat.emin, prec, emax. lia. Qed.

Lemma fexp_cases (z : Z) :
  fexp prec emax z = z - 53 \/ fexp prec emax z = -1074.
Proof. unfold fexp, SpecFloat.emin, prec, emax. lia. Qed.

Lemma pow2_pos (k : Z) : 0 <= k -> 0 < 2 ^ k.
Proof. intros. apply Z.pow_pos_nonneg; lia. Qed.

Lemma binary_round_aux_nonneg (mx ex : Z) (lx : location) :
  0 <= mx -> nonneg (binary_round_aux prec emax false mx ex lx).
Proof.
  intros Hm. destruct (binary_round_aux_spec mx ex lx Hm)
    as (m1 & n1 & n2 & Hn1 & Hb & _ & Hn2 & ->).
  assert (H1 : 0 <= n1) by lia. assert (H2 : 0 <= n2) by lia.
  pose proof (pow2_pos n1 H1). pose proof (pow2_pos n2 H2).
  assert (0 <= mx / 2 ^ n1) by (apply Z.div_pos; lia).
  assert (Hm1 : 0 <= m1) by lia.
  assert (Hq : 0 <= m1 / 2 ^ n2) by (apply Z.div_pos; lia).
  destruct (m1 / 2 ^ n2) as [|m|m] eqn:E; [exact I | | lia].
  destruct (_ <=? _); [|exact I]. cbn [nonneg].
  rewrite <- E. apply Z.div_lt_upper_bound; [lia|].
  pose proof (Zdigits2_upper m1 Hm1) as Hu.
  pose proof (fexp_ge (Zdigits2 m1 + (ex + n1))) as [Hf _].
  assert (Hd : Zdigits2 m1 <= n2 + 53) by lia.
  rewrite <- Z.pow_add_r by lia.
  eapply Z.lt_le_trans; [exact Hu|]. apply Z.pow_le_mono_r; lia.
Qed.

Lemma binary_round_nonneg (m : positive) (e : Z) :
  nonneg (binary_round prec emax false m e).
Proof.
  unfold binary_round. destruct (shl_align m e _) as [mz ez].
  apply binary_round_aux_nonneg. lia.
Qed.

Lemma of_int_nonneg (z : Z) : 0 <= z -> nonneg (of_int z).
Proof.
  intros H. unfold of_int, binary_normalize. destruct z; [exact I | | lia].
  apply binary_round_nonneg.
Qed.

Lemma fmul_nonneg (m : positive) (e : Z) (b : float) :
  nonneg b -> nonneg (fmul (S754_finite false m e) b).
Proof.
  destruct b as [[]|[]| |[] mb eb]; simpl; try contradiction; try exact (fun _ => I).
  intros _. apply binary_round_aux_nonneg. lia.
Qed.

Lemma fdiv_nonneg (a : float) (m : positive) (e : Z) :
  nonneg a -> nonneg (fdiv a (S754_finite false m e)).
Proof.
  destruct a as [[]|[]| |[] ma ea]; simpl; try contradiction; try exact (fun _ => I).
  intros _. unfold fdiv, SFdiv.
  destruct (SFdiv_core_binary prec emax (Z.pos ma) ea (Z.pos m) e) as [[mz ez] lz] eqn:E.
  apply binary_round_aux_nonneg.
  unfold SFdiv_core_binary in E.
  match type of E with context [Z.div_eucl ?a ?b] =>
    assert (Ha : 0 <= a); [| pose proof (Z_div_mod a b ltac:(lia)) as Hdm;
      destruct (Z.div_eucl a b) as [q r] ] end.
  - destruct (_ - _ - _) as [|s|s]; [lia | | lia].
    rewrite Z.shiftl_mul_pow2 by lia. pose proof (pow2_pos (Z.pos s)). lia.
  - injection E as <- _ _. destruct Hdm as [Hq Hr]. nia.
Qed.

Lemma fadd_nonneg (m : positive) (e : Z) (b : float) :
  Zpos m < 2 ^ 53 -> nonneg b -> nonneg (fadd (S754_finite false m e) b).
Proof.
  intros Hm.
  destruct b as [[]|[]| |[] mb eb]; simpl; try contradiction; try exact (fun _ => I);
    try (intros _; exact Hm).
  intros _. apply binary_round_nonneg.
Qed.

(** *** Integers within the range of list lengths convert to finite floats *)

Lemma digits2_pos_iter_xO (p k : positive) :
  Zpos (digits2_pos (Pos.iter xO p k)) = Zpos (digits2_pos p) + Zpos k.
Proof.
  induction k as [|k IH] using Pos.peano_ind.
  - simpl. lia.
  - rewrite Pos.iter_succ. simpl digits2_pos. lia.
Qed.

Lemma binary_round_aux_normal (mz : positive) (ez : Z) (lx : location) :
  53 <= Zdigits2 (Zpos mz) ->
  -1074 <= Zdigits2 (Zpos mz) + ez - 53 ->
  Zdigits2 (Zpos mz) + ez <= 1023 ->
  exists m e, binary_round_aux prec emax false (Zpos mz) ez lx = S754_finite false m e.
Proof.
  intros Hd Hlo Hhi.
  destruct (binary_round_aux_spec (Zpos mz) ez lx ltac:(lia))
    as (m1 & n1 & n2 & Hn1 & Hb & _ & Hn2 & ->).
  set (d0 := Zdigits2 (Zpos mz)) in *.
  assert (Hf1 : fexp prec emax (d0 + ez) = d0 + ez - 53)
    by (unfold fexp, SpecFloat.emin, prec, emax; lia).
  rewrite Hf1 in Hn1. assert (En1 : n1 = d0 - 53) by lia.
  pose proof (Zdigits2_upper (Zpos mz) ltac:(lia)) as Hup. fold d0 in Hup.
  pose proof (Zdigits2_lower mz) as Hlow. fold d0 in Hlow.
  pose proof (pow2_pos n1 ltac:(lia)) as Hp1.
  assert (Hq_lo : 2 ^ 52 <= Zpos mz / 2 ^ n1).
  { apply Z.div_le_lower_bound; [lia|].
    rewrite <- Z.pow_add_r by lia. replace (n1 + 52) with (d0 - 1) by lia. exact Hlow. }
  assert (Hq_hi : Zpos mz / 2 ^ n1 < 2 ^ 53).
  { apply Z.div_lt_upper_bound; [lia|].
    rewrite <- Z.pow_add_r by lia. replace (n1 + 53) with d0 by lia. exact Hup. }
  assert (Hd1_lo : 52 < Zdigits2 m1) by (apply Zdigits2_ge; lia).
  assert (Hd1_hi : Zdigits2 m1 <= 54).
  { apply Zdigits2_le; lia. }
  assert (Hf2 : fexp prec emax (Zdigits2 m1 + (ez + n1)) = Zdigits2 m1 + (ez + n1) - 53)
    by (unfold fexp, SpecFloat.emin, prec, emax; lia).
  rewrite Hf2 in Hn2. assert (En2 : n2 = Zdigits2 m1 - 53) by lia.
  assert (Hm2 : 2 ^ 52 <= m1 / 2 ^ n2).
  { assert (Hc : n2 = 0 \/ n2 = 1) by lia. destruct Hc as [->| ->].
    - rewrite Z.div_1_r. lia.
    - assert (2 ^ 53 <= m1).
      { destruct (Z.lt_ge_cases m1 (2 ^ 53)) as [Hlt|]; [|assumption].
        pose proof (Zdigits2_le m1 53 ltac:(lia) Hlt ltac:(lia)). lia. }
      apply Z.div_le_lower_bound; [lia|]. change (2 ^ 1 * 2 ^ 52) with (2 ^ 53). lia. }
  destruct (m1 / 2 ^ n2) as [|m|m]; try (simpl in Hm2; lia).
  destruct (Z.leb_spec (ez + n1 + n2) (emax - prec)) as [_|Hgt]; [eauto|].
  unfold emax, prec in Hgt. lia.
Qed.

Lemma of_int_finite (z : Z) :
  0 < z < 2 ^ 63 -> exists m e, of_int z = S754_finite false m e.
Proof.
  intros [Hz Hz']. destruct z as [|p|p]; try lia.
  unfold of_int, binary_normalize, binary_round.
  assert (Hd : 1 <= Zdigits2 (Zpos p) <= 63).
  { split; [simpl; lia|]. apply Zdigits2_le; lia. }
  simpl Zdigits2 in Hd. rewrite Z.add_0_r.
  assert (Hf : fexp prec emax (Zpos (digits2_pos p)) = Zpos (digits2_pos p) - 53)
    by (unfold fexp, SpecFloat.emin, prec, emax; lia).
  rewrite Hf. unfold shl_align. rewrite Z.sub_0_r.
  destruct (Zpos (digits2_pos p) - 53) as [|k|k] eqn:E.
  - apply binary_round_aux_normal; simpl Zdigits2; lia.
  - apply binary_round_aux_normal; simpl Zdigits2; lia.
  - apply binary_round_aux_normal; simpl Zdigits2; rewrite digits2_pos_iter_xO; lia.
Qed.

(** *** Percentages *)

Lemma round_half_even_bound (m : positive) (e : Z) :
  e < 0 -> 2 * Zpos m < 199 * 2 ^ (- e) -> 0 <= round_half_even m e <= 99.
Proof.
  destruct e as [|p|p]; try lia. intros _ H. simpl Z.opp in H.
  unfold round_half_even. change (Z.pow_pos 2 p) with (2 ^ Zpos p).
  set (d := 2 ^ Zpos p) in *.
  assert (Hd : 0 < d) by (apply pow2_pos; lia).
  pose proof (Z_div_mod_eq_full (Zpos m) d) as Hdm.
  pose proof (Z.mod_pos_bound (Zpos m) d Hd) as Hr.
  assert (Hq : 0 <= Zpos m / d) by (apply Z.div_pos; lia).
  set (q := Zpos m / d) in *. set (r := Zpos m mod d) in *.
  destruct (Z.compare_spec (2 * r) d); [destruct (Z.even q)| |]; nia.
Qed.

(** A confidence within [0.0, 0.99] becomes a percentage within [0, 99]. *)
Lemma percent_of_unit (c : float) :
  unit_float c -> exists p, round_int (fmul c f_100) = Some p /\ 0 <= p <= 99.
Proof.
  destruct c as [[]|[]| |[] m e]; cbn [unit_float]; try contradiction.
  - intros _. exists 0. split; [reflexivity | lia].
  - intros [Hm He]. unfold fmul, f_100, SFmul. cbn [xorb].
    set (M := Z.pos (m * 7036874417766400)).
    set (ex := e + -46).
    assert (HM : M = Zpos m * (100 * 2 ^ 46)) by (subst M; rewrite Pos2Z.inj_mul; reflexivity).
    assert (HM0 : 0 < M) by (subst M; lia).
    destruct (binary_round_aux_spec M ex loc_Exact ltac:(lia))
      as (m1 & n1 & n2 & Hn1 & Hb & _ & Hn2 & ->).
    pose proof (Zdigits2_upper M ltac:(lia)) as Hup.
    assert (Hd0 : Zdigits2 M <= 106).
    { apply Zdigits2_le; [lia | | lia]. rewrite HM.
      change (2 ^ 106) with (2 ^ 53 * 2 ^ 53). nia. }
    pose proof (Zdigits2_nonneg M) as Hd0'.
    pose proof (fexp_ge (Zdigits2 M + ex)) as [Hf1a Hf1b].
    pose proof (fexp_cases (Zdigits2 M + ex)) as Hf1c.
    assert (Hn1a : 0 <= n1 <= - e) by (subst ex; lia).
    assert (Hn1b : Zdigits2 M <= n1 + 53) by lia.
    pose proof (pow2_pos n1 ltac:(lia)) as HA.
    set (A := 2 ^ n1) in *.
    assert (Hq1 : 0 <= M / A < 2 ^ 53).
    { split; [apply Z.div_pos; lia|]. apply Z.div_lt_upper_bound; [lia|].
      subst A. rewrite <- Z.pow_add_r by lia.
      eapply Z.lt_le_trans; [exact Hup|]. apply Z.pow_le_mono_r; lia. }
    assert (Hm1 : 0 <= m1 <= 2 ^ 53) by lia.
    assert (Hd1 : Zdigits2 m1 <= 54).
    { apply Zdigits2_le; lia. }
    pose proof (Zdigits2_nonneg m1) as Hd1'.
    pose proof (fexp_cases (Zdigits2 m1 + (ex + n1))) as Hf2.
    assert (Hn2a : 0 <= n2 <= 1) by lia.
    pose proof (pow2_pos n2 ltac:(lia)) as HB.
    set (B := 2 ^ n2) in *.
    assert (He2 : ex + n1 + n2 < 0) by (subst ex; lia).
    assert (Hq2 : 0 <= m1 / B) by (apply Z.div_pos; lia).
    destruct (m1 / B) as [|m2|m2] eqn:E2; [exists 0; split; [reflexivity|lia] | | lia].
    destruct (Z.leb_spec (ex + n1 + n2) (emax - prec)) as [_|Hgt];
      [|unfold emax, prec in Hgt; lia].
    cbn [round_int cond_Zopp]. eexists. split; [reflexivity|].
    apply round_half_even_bound; [assumption|].
    pose proof (pow2_pos (- (ex + n1 + n2)) ltac:(lia)) as HD.
    set (D := 2 ^ (- (ex + n1 + n2))) in *.
    pose proof (pow2_pos (- e) ltac:(lia)) as HP.
    assert (HDAB : D * (A * B) = 2 ^ 46 * 2 ^ (- e)).
    { subst D A B. rewrite <- !Z.pow_add_r by lia. f_equal. subst ex. lia. }
    assert (HAP : A <= 2 ^ (- e)) by (subst A; apply Z.pow_le_mono_r; lia).
    set (P := 2 ^ (- e)) in *.
    assert (H1 : B * Zpos m2 <= m1) by (rewrite <- E2; apply Z.mul_div_le; lia).
    assert (H2 : A * (M / A) <= M) by (apply Z.mul_div_le; lia).
    assert (H3 : A * m1 <= M + A) by nia.
    assert (H4 : A * (B * Zpos m2) <= M + A).
    { eapply Z.le_trans; [|exact H3]. apply Z.mul_le_mono_nonneg_l; lia. }
    assert (HP' : (e = -53 /\ P = 2 ^ 53 /\ Zpos m <= 8917127262193582)
                  \/ (2 ^ 54 <= P)).
    { destruct He as [He|[-> He]].
      - right. subst P. apply Z.pow_le_mono_r; lia.
      - left. split; [reflexivity|]. split; [reflexivity | assumption]. }
    destruct (Z.lt_ge_cases (2 * Zpos m2) (199 * D)) as [|Hge]; [assumption|exfalso].
    assert (H5 : 199 * D * (A * B) <= 2 * Zpos m2 * (A * B))
      by (apply Z.mul_le_mono_nonneg_r; lia).
    replace (199 * D * (A * B)) with (199 * (2 ^ 46 * P)) in H5 by lia.
    replace (2 * Z.pos m2 * (A * B)) with (2 * (A * (B * Zpos m2))) in H5 by ring.
    assert (H6 : 199 * (2 ^ 46 * P) <= 2 * (Zpos m * (100 * 2 ^ 46)) + 2 * P) by lia.
    change (2 ^ 46) with 70368744177664 in H6.
    destruct HP' as [(_ & HPe & Hm99)|HPge].
    + rewrite HPe in H6. change (2 ^ 53) with 9007199254740992 in H6. lia.
    + change (2 ^ 54) with 18014398509481984 in HPge.
      change (2 ^ 53) with 9007199254740992 in Hm. lia.
Qed.

Lemma unit_float_nonneg (c : float) : unit_float c -> nonneg c.
Proof. destruct c as [[]|[]| |[] m e]; simpl; tauto. Qed.

(** Order of two positive finite floats: by exponent, then by mantissa. *)
Lemma compare_finite_pos (m1 m2 : positive) (e1 e2 : Z) :
  SFcompare (S754_finite false m1 e1) (S754_finite false m2 e2)
    = Some (match e1 ?= e2 with
            | Eq => Zpos m1 ?= Zpos m2
            | c => c
            end).
Proof.
  unfold SFcompare. destruct (e1 ?= e2); reflexivity.
Qed.

Lemma fle_finite_pos (m1 m2 : positive) (e1 e2 : Z) :
  e1 < e2 \/ (e1 = e2 /\ Zpos m1 <= Zpos m2) ->
  fle (S754_finite false m1 e1) (S754_finite false m2 e2) = true.
Proof.
  intros H. unfold fle, SFleb. rewrite compare_finite_pos.
  destruct (Z.compare_spec e1 e2); [|reflexivity|lia].
  destruct (Z.compare_spec (Zpos m1) (Zpos m2)); try reflexivity. lia.
Qed.

Lemma flt_finite_pos (m1 m2 : positive) (e1 e2 : Z) :
  flt (S754_finite false m1 e1) (S754_finite false m2 e2) = false ->
  e2 < e1 \/ (e1 = e2 /\ Zpos m2 <= Zpos m1).
Proof.
  unfold flt, SFltb. rewrite compare_finite_pos.
  destruct (Z.compare_spec e1 e2); [|discriminate|lia].
  destruct (Z.compare_spec (Zpos m1) (Zpos m2)); try discriminate; lia.
Qed.

(** The comparisons of the source agree: such a float lies between [0.0]
    and [0.99]. *)
Lemma unit_float_range (c : float) :
  unit_float c -> fle f_0_0 c = true /\ fle c f_0_99 = true.
Proof.
  destruct c as [[]|[]| |[] m e]; cbn [unit_float]; try contradiction.
  - intros _. split; reflexivity.
  - intros [_ He]. split; [reflexivity|]. apply fle_finite_pos. exact He.
Qed.

(** Not being above [0.98] puts a float of the right shape within range. *)
Lemma fmin_unit (x : float) : nonneg x -> unit_float (fmin x f_0_98).
Proof.
  unfold fmin.
  destruct x as [[]|[]| |[] m e]; cbn [nonneg]; try contradiction; intros Hm.
  - exact I.
  - change (flt f_0_98 (S754_infinity false)) with true. cbv iota.
    unfold f_0_98, unit_float. lia.
  - destruct (flt f_0_98 (S754_finite false m e)) eqn:E.
    + unfold f_0_98, unit_float. lia.
    + apply flt_finite_pos in E. unfold unit_float. lia.
Qed.

(** The confidence of the skills, for a list of a length Python can hold. *)
Lemma skills_score_unit (found listed : nat) :
  Z.of_nat listed < 2 ^ 63 -> unit_float (skills_score found listed).
Proof.
  intros Hl. unfold skills_score.
  destruct (Nat.eqb_spec found 0); [simpl; lia|].
  apply fmin_unit.
  assert (Hd : 0 < Z.of_nat (Nat.max 1 (listed / 5)) < 2 ^ 63).
  { split; [lia|]. assert (listed / 5 <= listed)%nat by (apply Nat.Div0.div_le_upper_bound; lia).
    lia. }
  destruct (of_int_finite _ Hd) as (md & ed & ->).
  apply fadd_nonneg; [reflexivity|].
  apply fdiv_nonneg. apply fmul_nonneg. apply of_int_nonneg. lia.
Qed.

End Floats.

(** ** Searching *)

Lemma hd_error_In {A : Type} (l : list A) (x : A) : hd_error l = Some x -> In x l.
Proof. destruct l; simpl; [discriminate | intros [= ->]; now left]. Qed.

Lemma match_at_In (f : flags) (r : regex) (l rr : str) (m : mstate) :
  match_at f r l rr = Some m -> In m (results f (Group 0 r) (at_pos l rr)).
Proof. apply hd_error_In. Qed.

Lemma match_at_none (f : flags) (r : regex) (l rr : str) :
  results f r (at_pos l rr) = [] -> match_at f r l rr = None.
Proof. unfold match_at. cbn [results]. now intros ->. Qed.

Lemma match_at_some (f : flags) (r : regex) (l rr : str) (s : mstate) :
  In s (results f r (at_pos l rr)) -> exists m, match_at f r l rr = Some m.
Proof.
  unfold match_at. cbn [results].
  destruct (results f r (at_pos l rr)) as [|x xs]; [contradiction|]. simpl. eauto.
Qed.

(** A match at the current position is the one [search_from] returns. *)
Lemma search_from_hit (f : flags) (r : regex) (l rr : str) (m : mstate) :
  match_at f r l rr = Some m -> search_from f r l rr = Some m.
Proof. intros H. destruct rr; cbn [search_from]; now rewrite H. Qed.

(** Positions without a match are passed over. *)
Lemma search_from_skip (f : flags) (r : regex) (pre : str) :
  forall l rr,
    (forall a b, pre = a ++ b -> b <> [] -> match_at f r (rev a ++ l) (b ++ rr) = None) ->
    search_from f r l (pre ++ rr) = search_from f r (rev pre ++ l) rr.
Proof.
  induction pre as [|c pre IH]; intros l rr H; [reflexivity|].
  simpl app. cbn [search_from].
  pose proof (H [] (c :: pre) eq_refl ltac:(discriminate)) as H0.
  simpl in H0. rewrite H0. rewrite IH.
  - simpl. now rewrite <- app_assoc.
  - intros a b E Hb. specialize (H (c :: a) b). simpl in H.
    rewrite <- app_assoc in H. apply H; [now f_equal | assumption].
Qed.

Lemma search_from_none (f : flags) (r : regex) (text : str) :
  forall l,
    (forall a b, text = a ++ b -> match_at f r (rev a ++ l) b = None) ->
    search_from f r l text = None.
Proof.
  induction text as [|c text IH]; intros l H; cbn [search_from].
  - pose proof (H [] [] eq_refl) as H0. simpl in H0. now rewrite H0.
  - pose proof (H [] (c :: text) eq_refl) as H0. simpl in H0. rewrite H0. apply IH.
    intros a b E. specialize (H (c :: a) b). simpl in H.
    rewrite <- app_assoc in H. apply H. now f_equal.
Qed.

(** A position with a match makes the search succeed, there or earlier. *)
Lemma search_from_some (f : flags) (r : regex) (pre : str) :
  forall l rr m,
    match_at f r (rev pre ++ l) rr = Some m ->
    exists m', search_from f r l (pre ++ rr) = Some m'.
Proof.
  induction pre as [|c pre IH]; intros l rr m H.
  - exists m. now apply search_from_hit.
  - simpl app. cbn [search_from].
    destruct (match_at f r l (c :: pre ++ rr)); [eauto|].
    apply (IH (c :: l) rr m). simpl in H. now rewrite <- app_assoc in H.
Qed.

(** *** What a match consumes *)

Lemma results_consumed (f : flags) (r : regex) :
  forall s s', In s' (results f r s) ->
    exists w, after s = w ++ after s' /\ before s' = rev w ++ before s.
Proof.
  assert (Hadv : forall s k, exists w,
             after s = w ++ after (advance_state s k)
             /\ before (advance_state s k) = rev w ++ before s).
  { intros s k. exists (firstn k (after s)).
    rewrite after_advance_state, before_advance_state, firstn_skipn. auto. }
  assert (Hid : forall s : mstate, exists w, after s = w ++ after s
                                       /\ before s = rev w ++ before s)
    by (intros s; now exists []).
  induction r; intros s s' Hin; cbn [results] in Hin.
  - destruct Hin as [<-|[]]. apply Hid.
  - destruct (after s) as [|c rest] eqn:E; [contradiction|].
    destruct (atom_match f a c); [|contradiction].
    destruct Hin as [<-|[]]. rewrite <- E. apply Hadv.
  - destruct (_ <? _); [contradiction|].
    apply in_map_iff in Hin as (k & <- & _). apply Hadv.
  - apply in_flat_map in Hin as (s1 & H1 & H2).
    destruct (IHr1 _ _ H1) as (w1 & Ea1 & Eb1).
    destruct (IHr2 _ _ H2) as (w2 & Ea2 & Eb2).
    exists (w1 ++ w2). rewrite Ea1, Ea2, Eb2, Eb1, rev_app_distr, !app_assoc. auto.
  - apply in_app_or in Hin as [H|H]; eauto.
  - apply in_app_or in Hin as [H|[<-|[]]]; eauto.
  - apply in_map_iff in Hin as (s1 & <- & H1). simpl. eauto.
  - destruct (at_bol f s); [|contradiction]. destruct Hin as [<-|[]]. apply Hid.
  - destruct (at_eol f s); [|contradiction]. destruct Hin as [<-|[]]. apply Hid.
  - assert (E : s' = s)
      by (destruct (before s) as [|c rest]; [|destruct (atom_match f a c)];
          try contradiction; destruct Hin as [<-|[]]; reflexivity).
    subst s'. apply Hid.
  - assert (E : s' = s)
      by (destruct (after s) as [|c rest]; [|destruct (atom_match f a c)];
          try contradiction; destruct Hin as [<-|[]]; reflexivity).
    subst s'. apply Hid.
Qed.

Lemma run_length_firstn (p : char -> bool) (hi : option nat) (s : str) (k : nat) :
  k <= run_length p hi s -> forallb p (firstn k s) = true.
Proof.
  revert hi k. induction s as [|c s IH]; intros hi k Hk.
  - rewrite run_length_nil in Hk. now replace k with 0 by lia.
  - destruct k as [|k]; [reflexivity|].
    destruct hi as [[|h]|]; simpl in Hk; try lia; destruct (p c) eqn:Hp; try lia;
      simpl; rewrite Hp; simpl; apply le_S_n in Hk; eapply IH; exact Hk.
Qed.

Lemma run_length_hi (p : char -> bool) (h : nat) (s : str) :
  run_length p (Some h) s <= h.
Proof.
  revert h. induction s as [|c s IH]; intros [|h]; simpl; try lia.
  destruct (p c); [|lia]. apply le_n_S, IH.
Qed.

(** A repetition consumes characters of its class, at least [lo] and at
    most [hi] of them. *)
Lemma In_results_rep (f : flags) (a : atom) (lo : nat) (hi : option nat) (g : bool)
    (s s' : mstate) :
  In s' (results f (Rep a lo hi g) s) ->
  exists w, after s = w ++ after s'
    /\ forallb (atom_match f a) w = true
    /\ lo <= List.length w
    /\ match hi with Some h => List.length w <= h | None => True end
    /\ groups s' = groups s.
Proof.
  cbn [results]. destruct (_ <? _); [contradiction|]. intros Hin.
  apply in_map_iff in Hin as (k & <- & Hk). apply In_counts in Hk.
  exists (firstn k (after s)).
  rewrite after_advance_state, firstn_skipn, groups_advance_state.
  pose proof (run_length_le (atom_match f a) hi (after s)) as Hle.
  split; [reflexivity|]. split; [apply (run_length_firstn _ hi); lia|].
  rewrite length_firstn. split; [lia|]. split; [|reflexivity].
  destruct hi as [h|]; [|exact I].
  pose proof (run_length_hi (atom_match f a) h (after s)). lia.
Qed.

Lemma In_results_one (f : flags) (a : atom) (s s' : mstate) :
  In s' (results f (One a) s) ->
  exists c, after s = c :: after s' /\ atom_match f a c = true.
Proof.
  cbn [results]. destruct (after s) as [|c rest] eqn:E; [contradiction|].
  destruct (atom_match f a c) eqn:Ha; [|contradiction].
  intros [<-|[]]. exists c. rewrite after_advance_state, E. auto.
Qed.

Lemma In_results_seq (f : flags) (r1 r2 : regex) (s s' : mstate) :
  In s' (results f (Seq r1 r2) s) <->
  exists s1, In s1 (results f r1 s) /\ In s' (results f r2 s1).
Proof. cbn [results]. apply in_flat_map. Qed.

Lemma In_results_group (f : flags) (n : nat) (r : regex) (s s' : mstate) :
  In s' (results f (Group n r) s) ->
  exists s1, In s1 (results f r s) /\ after s' = after s1.
Proof.
  cbn [results]. intros Hin. apply in_map_iff in Hin as (s1 & <- & H1). eauto.
Qed.

(** *** Literals *)

Lemma results_escape (f : flags) (p : str) :
  forall s, results f (escape p) s =
            if lits_match f p (after s) then [advance_state s (List.length p)] else [].
Proof.
  induction p as [|x p IH]; intros s.
  - simpl. unfold advance_state. simpl. now destruct s.
  - cbn [escape results lits_match]. destruct (after s) as [|c rest] eqn:E; [reflexivity|].
    destruct (atom_match f (Lit x) c); [|reflexivity].
    cbn [flat_map andb]. rewrite app_nil_r, IH, after_advance_state, E. cbn [skipn].
    destruct (lits_match f p rest); [|reflexivity].
    f_equal. unfold advance_state. rewrite E. reflexivity.
Qed.

(** A pattern that starts with a literal has no match where the literal
    does not stand. *)
Lemma match_at_escape_fail (f : flags) (p : str) (r : regex) (l rr : str) :
  lits_match f p rr = false -> match_at f (Seq (escape p) r) l rr = None.
Proof.
  intros H. apply match_at_none. cbn [results]. rewrite results_escape.
  cbn [after at_pos]. now rewrite H.
Qed.

Lemma occurs_suffix (f : flags) (p a b : str) :
  occurs f p (a ++ b) = false -> lits_match f p b = false.
Proof.
  induction a as [|c a IH]; simpl app.
  - destruct b; simpl; intros H; apply orb_false_elim in H; tauto.
  - cbn [occurs]. intros H. apply orb_false_elim in H as [_ H]. auto.
Qed.

Lemma search_escape_none (f : flags) (p : str) (r : regex) (text : str) :
  occurs f p text = false -> search f (Seq (escape p) r) text = None.
Proof.
  intros H. apply search_from_none. intros a b ->.
  apply match_at_escape_fail. now apply occurs_suffix in H.
Qed.

(** *** Matches do not depend on the text to their left *)

Lemma advance_state_shift (l0 : str) (s : mstate) (n : nat) :
  advance_state (shift l0 s) n = shift l0 (advance_state s n).
Proof.
  unfold advance_state, shift. cbn [before after groups].
  rewrite !advance_spec. cbn [before after groups]. now rewrite app_assoc.
Qed.

(** The text between a position and one reached by consuming [w]. *)
Lemma between_consumed (s s' : mstate) (w : str) :
  before s' = rev w ++ before s -> between s s' = w.
Proof.
  intros E. unfold between. rewrite E, length_app.
  replace (List.length (rev w) + List.length (before s) - List.length (before s))
    with (List.length (rev w) + 0) by lia.
  rewrite firstn_app_2. simpl. now rewrite app_nil_r, rev_involutive.
Qed.

Lemma set_group_shift (l0 : str) (n : nat) (s s' : mstate) (w : str) :
  before s' = rev w ++ before s ->
  set_group n (shift l0 s) (shift l0 s') = shift l0 (set_group n s s').
Proof.
  intros E. unfold set_group. rewrite (between_consumed s s' w E).
  rewrite (between_consumed (shift l0 s) (shift l0 s') w).
  - reflexivity.
  - unfold shift. cbn [before]. now rewrite E, app_assoc.
Qed.

Lemma results_shift (f : flags) (l0 : str) (r : regex) :
  context_free r = true ->
  forall s, results f r (shift l0 s) = map (shift l0) (results f r s).
Proof.
  induction r; intros Hr s; cbn [context_free] in Hr; try discriminate; cbn [results].
  - reflexivity.
  - cbn [shift after]. destruct (after s) as [|c rest]; [reflexivity|].
    destruct (atom_match f a c); [|reflexivity]. simpl. now rewrite advance_state_shift.
  - cbn [shift after]. destruct (_ <? _); [reflexivity|].
    rewrite map_map. apply map_ext. intros k. apply advance_state_shift.
  - apply andb_prop in Hr as [H1 H2]. rewrite IHr1 by assumption.
    induction (results f r1 s) as [|s1 l IH]; [reflexivity|].
    simpl. rewrite map_app, IHr2, IH by assumption. reflexivity.
  - apply andb_prop in Hr as [H1 H2]. now rewrite map_app, IHr1, IHr2.
  - now rewrite map_app, IHr.
  - rewrite IHr by assumption. rewrite !map_map. apply map_ext_in.
    intros s' Hin. destruct (results_consumed f r _ _ Hin) as (w & _ & E).
    now apply set_group_shift with w.
  - unfold at_eol. cbn [shift after]. now destruct (match after s with [] => _ | _ => _ end).
  - cbn [shift after]. destruct (after s) as [|c rest]; [reflexivity|].
    now destruct (atom_match f a c).
Qed.

Lemma match_at_shift (f : flags) (r : regex) (l rr : str) :
  context_free r = true ->
  match_at f r l rr = option_map (shift l) (match_at f r [] rr).
Proof.
  intros H. unfold match_at.
  change (at_pos l rr) with (shift l (at_pos [] rr)).
  rewrite (results_shift f l (Group 0 r)) by exact H.
  now destruct (results f (Group 0 r) (at_pos [] rr)).
Qed.

Lemma group_shift (l : str) (m : mstate) (n : nat) : group (shift l m) n = group m n.
Proof. reflexivity. Qed.

Lemma in_str_split (needle hay : str) :
  in_str needle hay = true -> exists a b, hay = a ++ needle ++ b.
Proof.
  assert (Hs : forall p s, startswith p s = true -> exists b, s = p ++ b).
  { induction p as [|x p IH]; intros s H; [now exists s|].
    destruct s as [|y s]; [discriminate|]. simpl in H.
    apply andb_prop in H as [Hx Hp]. apply N.eqb_eq in Hx. subst y.
    destruct (IH _ Hp) as (b & ->). now exists b. }
  induction hay as [|c hay IH]; cbn [in_str]; intros H.
  - rewrite orb_false_r in H. destruct (Hs _ _ H) as (b & ->). now exists [], b.
  - apply orb_prop in H as [H|H].
    + destruct (Hs _ _ H) as (b & ->). now exists [], b.
    + destruct (IH H) as (a & b & ->). now exists (c :: a), b.
Qed.

(** ** Text normalisation *)

Lemma run_length_app_all (p : char -> bool) (a b : str) :
  forallb p a = true -> run_length p None (a ++ b) = List.length a + run_length p None b.
Proof.
  induction a as [|c a IH]; intros H; [reflexivity|].
  simpl in H. apply andb_prop in H as [Hc Ha].
  simpl app. rewrite run_length_cons, Hc, IH by assumption. reflexivity.
Qed.

Lemma run_length_app_le (p : char -> bool) (a b : str) :
  run_length p None a <= run_length p None (a ++ b).
Proof.
  induction a as [|c a IH]; [simpl; lia|].
  simpl app. rewrite !run_length_cons. destruct (p c); lia.
Qed.

Lemma short_runs_app (p : char -> bool) (n : nat) (a b : str) :
  short_runs p n (a ++ b) = true -> short_runs p n a = true /\ short_runs p n b = true.
Proof.
  induction a as [|c a IH]; intros H; [now split|].
  simpl app in H. cbn [short_runs] in *. apply andb_prop in H as [Hr Hs].
  destruct (IH Hs) as [Ha Hb]. split; [|assumption].
  apply andb_true_intro. split; [|assumption].
  apply Nat.ltb_lt. apply Nat.ltb_lt in Hr.
  pose proof (run_length_app_le p (c :: a) b). simpl app in *. lia.
Qed.

Lemma short_runs_map (p : char -> bool) (n : nat) (g : char -> char) (s : str) :
  (forall c, p (g c) = p c) -> short_runs p n (map g s) = short_runs p n s.
Proof.
  intros Hg.
  assert (Hrun : forall s, run_length p None (map g s) = run_length p None s).
  { induction s0 as [|c s0 IH]; [reflexivity|].
    simpl map. rewrite !run_length_cons, Hg, IH. reflexivity. }
  induction s as [|c s IH]; [reflexivity|].
  change (map g (c :: s)) with (map g [c] ++ map g s). rewrite <- map_app.
  simpl app. cbn [short_runs map]. rewrite IH.
  change (g c :: map g s) with (map g (c :: s)). now rewrite Hrun.
Qed.

Lemma short_runs_others (q : char -> bool) (n : nat) (r x : str) :
  0 < n ->
  forallb (fun c => negb (q c)) r = true ->
  short_runs q n x = true ->
  short_runs q n (r ++ x) = true.
Proof.
  intros Hn. induction r as [|c r IH]; intros Hr Hx; [assumption|].
  simpl in Hr. apply andb_prop in Hr as [Hc Hr]. apply negb_true_iff in Hc.
  simpl app. cbn [short_runs]. rewrite run_length_cons, Hc.
  rewrite IH by assumption. now apply Nat.ltb_lt in Hn as ->.
Qed.

(** *** Squeezing runs *)

Section Squeeze.

Variables (p : char -> bool) (lo : nat) (repl : str).
Hypothesis lo_pos : 0 < lo.

Lemma squeeze_Forall (P : char -> Prop) (b : bool) (s : str) :
  Forall P repl -> Forall P s -> Forall P (squeeze p lo repl b s).
Proof.
  intros Hr. revert b. induction s as [|c s IH]; intros b Hs; [constructor|].
  inversion Hs; subst. cbn [squeeze].
  destruct (p c); [destruct b; [|destruct (lo <=? _)]|];
    try apply Forall_app; try constructor; auto.
Qed.

Lemma squeeze_true_run (s : str) :
  run_length p None (squeeze p lo repl true s) = 0.
Proof.
  induction s as [|c s IH]; [reflexivity|].
  cbn [squeeze]. destruct (p c) eqn:Hp; [assumption|].
  now rewrite run_length_cons, Hp.
Qed.

Lemma squeeze_false_run (s : str) :
  forallb p repl = true ->
  run_length p None (squeeze p lo repl false s)
    = if lo <=? run_length p None s then List.length repl else run_length p None s.
Proof.
  intros Hr. induction s as [|c s IH].
  - simpl. destruct (Nat.leb_spec lo 0); [lia | reflexivity].
  - cbn [squeeze]. rewrite run_length_cons. destruct (p c) eqn:Hp.
    + destruct (Nat.leb_spec lo (S (run_length p None s))) as [Hge|Hlt].
      * rewrite run_length_app_all, squeeze_true_run by assumption. lia.
      * rewrite run_length_cons, Hp, IH.
        destruct (Nat.leb_spec lo (run_length p None s)); [lia | reflexivity].
    + rewrite run_length_cons, Hp.
      destruct (Nat.leb_spec lo 0); [lia | reflexivity].
Qed.

Lemma short_runs_repl (n : nat) (x : str) :
  forallb p repl = true ->
  List.length repl + run_length p None x < n ->
  short_runs p n x = true ->
  short_runs p n (repl ++ x) = true.
Proof.
  intros Hr. induction repl as [|c r IH]; intros Hn Hx; [assumption|].
  simpl in Hr. apply andb_prop in Hr as [Hc Hr].
  simpl app. cbn [short_runs]. apply andb_true_intro. split.
  - apply Nat.ltb_lt. rewrite run_length_cons, Hc, run_length_app_all by assumption.
    simpl in Hn. lia.
  - apply IH; [assumption | simpl in Hn; lia | assumption].
Qed.

(** After squeezing, a run is a replacement or a run too short to match. *)
Lemma squeeze_short_runs (b : bool) (s : str) :
  forallb p repl = true ->
  short_runs p (Nat.max (S (List.length repl)) lo) (squeeze p lo repl b s) = true.
Proof.
  intros Hr. revert b. induction s as [|c s IH]; intros b; [reflexivity|].
  cbn [squeeze]. destruct (p c) eqn:Hp.
  - destruct b; [apply IH|].
    rewrite run_length_cons, Hp.
    destruct (Nat.leb_spec lo (S (run_length p None s))) as [Hge|Hlt].
    + apply short_runs_repl; [assumption | | apply IH].
      rewrite squeeze_true_run. lia.
    + cbn [short_runs]. rewrite IH, andb_true_r. apply Nat.ltb_lt.
      rewrite run_length_cons, Hp, squeeze_false_run by assumption.
      destruct (Nat.leb_spec lo (run_length p None s)); lia.
  - cbn [short_runs]. rewrite IH, andb_true_r. apply Nat.ltb_lt.
    rewrite run_length_cons, Hp. lia.
Qed.

(** Text without a run long enough is left alone. *)
Lemma squeeze_fixed (s : str) :
  short_runs p lo s = true -> squeeze p lo repl false s = s.
Proof.
  induction s as [|c s IH]; intros H; [reflexivity|].
  cbn [short_runs] in H. apply andb_prop in H as [Hr Hs]. apply Nat.ltb_lt in Hr.
  cbn [squeeze]. destruct (p c); [|now rewrite IH].
  destruct (Nat.leb_spec lo (run_length p None (c :: s))); [lia|]. now rewrite IH.
Qed.

(** Runs of other characters do not grow. *)
Lemma squeeze_other_run (q : char -> bool) (s : str) :
  (forall c, q c = true -> p c = false) ->
  (exists r0 r, repl = r0 :: r /\ q r0 = false) ->
  run_length q None (squeeze p lo repl false s) <= run_length q None s.
Proof.
  intros Hq (r0 & r & -> & Hr0). induction s as [|c s IH]; [simpl; lia|].
  cbn [squeeze]. destruct (p c) eqn:Hp.
  - assert (Hqc : q c = false).
    { destruct (q c) eqn:E; [|reflexivity]. apply Hq in E. congruence. }
    destruct (lo <=? _); simpl app; rewrite !run_length_cons, ?Hr0, ?Hqc; lia.
  - rewrite !run_length_cons. destruct (q c); lia.
Qed.

Lemma squeeze_other_runs (q : char -> bool) (n : nat) (b : bool) (s : str) :
  0 < n ->
  (forall c, q c = true -> p c = false) ->
  (exists r0 r, repl = r0 :: r /\ q r0 = false) ->
  forallb (fun c => negb (q c)) repl = true ->
  short_runs q n s = true ->
  short_runs q n (squeeze p lo repl b s) = true.
Proof.
  intros Hn Hq Hhd Hr. revert b. induction s as [|c s IH]; intros b H; [reflexivity|].
  cbn [short_runs] in H. apply andb_prop in H as [Hrun Hs]. apply Nat.ltb_lt in Hrun.
  cbn [squeeze]. destruct (p c) eqn:Hp.
  - assert (Hqc : q c = false).
    { destruct (q c) eqn:E; [|reflexivity]. apply Hq in E. congruence. }
    destruct b; [now apply IH|].
    destruct (lo <=? _).
    + apply short_runs_others; [assumption | assumption | now apply IH].
    + cbn [short_runs]. rewrite run_length_cons, Hqc, IH by assumption.
      now apply Nat.ltb_lt in Hn as ->.
  - cbn [short_runs]. rewrite IH, andb_true_r by assumption. apply Nat.ltb_lt.
    pose proof (squeeze_other_run q s Hq Hhd) as Hle.
    rewrite run_length_cons in *. destruct (q c); lia.
Qed.

End Squeeze.

(** Replacing each run by its own single character changes nothing when the
    runs are single already. *)
Lemma squeeze_single_fixed (p : char -> bool) (c0 : char) (s : str) :
  Forall (fun c => p c = true -> c = c0) s ->
  short_runs p 2 s = true ->
  forall b, (b = true -> run_length p None s = 0) -> squeeze p 1 [c0] b s = s.
Proof.
  induction s as [|c s IH]; intros Hall Hs b Hb; [reflexivity|].
  inversion Hall as [|? ? Hc Hall']; subst.
  cbn [short_runs] in Hs. apply andb_prop in Hs as [Hr Hs]. apply Nat.ltb_lt in Hr.
  cbn [squeeze]. rewrite run_length_cons in *. destruct (p c) eqn:Hp.
  - destruct b; [specialize (Hb eq_refl); discriminate|].
    simpl. rewrite (Hc eq_refl). f_equal. apply IH; auto. intros _. lia.
  - f_equal. apply IH; auto. discriminate.
Qed.

(** *** Trimming *)

Lemma lstrip_by_suffix (p : char -> bool) (s : str) :
  exists pre, s = pre ++ lstrip_by p s.
Proof.
  induction s as [|c s (pre & IH)]; [now exists []|].
  simpl. destruct (p c); [|now exists []].
  exists (c :: pre). simpl. now f_equal.
Qed.

Lemma lstrip_by_fixed (p : char -> bool) (s : str) :
  match s with c :: _ => p c = false | [] => True end -> lstrip_by p s = s.
Proof. destruct s as [|c s]; simpl; [reflexivity|]. now intros ->. Qed.

Lemma lstrip_by_head (p : char -> bool) (s : str) :
  match lstrip_by p s with c :: _ => p c = false | [] => True end.
Proof.
  induction s as [|c s IH]; simpl; [exact I|].
  destruct (p c) eqn:E; [assumption|]. assumption.
Qed.

Lemma lstrip_by_idem (p : char -> bool) (s : str) :
  lstrip_by p (lstrip_by p s) = lstrip_by p s.
Proof. apply lstrip_by_fixed, lstrip_by_head. Qed.

Lemma rstrip_by_prefix (p : char -> bool) (s : str) :
  exists post, s = rstrip_by p s ++ post.
Proof.
  unfold rstrip_by. destruct (lstrip_by_suffix p (rev s)) as (pre & E).
  exists (rev pre). rewrite <- rev_app_distr, <- E. now rewrite rev_involutive.
Qed.

Lemma strip_by_factor (p : char -> bool) (s : str) :
  exists pre post, s = pre ++ strip_by p s ++ post.
Proof.
  unfold strip_by. destruct (lstrip_by_suffix p s) as (pre & E1).
  destruct (rstrip_by_prefix p (lstrip_by p s)) as (post & E2).
  exists pre, post. now rewrite <- E2.
Qed.

Lemma strip_by_idem (p : char -> bool) (s : str) :
  strip_by p (strip_by p s) = strip_by p s.
Proof.
  unfold strip_by at 1.
  assert (H : lstrip_by p (strip_by p s) = strip_by p s).
  { apply lstrip_by_fixed. unfold strip_by.
    pose proof (lstrip_by_head p s) as Hh.
    destruct (rstrip_by_prefix p (lstrip_by p s)) as (post & E).
    destruct (rstrip_by p (lstrip_by p s)) as [|c z]; [exact I|].
    rewrite E in Hh. exact Hh. }
  rewrite H. unfold strip_by, rstrip_by.
  now rewrite rev_involutive, lstrip_by_idem.
Qed.

(** *** The normal form *)


Lemma clean_text_strip (text : str) : clean_text text = strip (rewritten text).
Proof. reflexivity. Qed.

Lemma cr_to_lf_map (s : str) :
  flat_map (fun c => if is_cr c then [LF] else [c]) s
    = map (fun c => if is_cr c then LF else c) s.
Proof.
  induction s as [|c s IH]; [reflexivity|]. simpl. rewrite IH. now destruct (is_cr c).
Qed.

Lemma squeeze_blanks_no_tab (b : bool) (s : str) :
  Forall (fun c => c <> TAB) (squeeze sp_or_tab 1 (lit " ") b s).
Proof.
  revert b. induction s as [|c s IH]; intros b; [constructor|].
  cbn [squeeze]. destruct (sp_or_tab c) eqn:E.
  - destruct b; [apply IH|]. rewrite run_length_cons, E.
    simpl. constructor; [discriminate | apply IH].
  - constructor; [|apply IH]. intros ->. discriminate.
Qed.

Lemma rewritten_normalised (text : str) : normalised (rewritten text).
Proof.
  unfold rewritten, plus.
  rewrite !sub_rep by lia. rewrite sub_one.
  fold sp_or_tab is_cr is_lf. rewrite cr_to_lf_map.
  set (t1 := replace_char NUL (lit " ") text).
  set (t2 := squeeze sp_or_tab 1 (lit " ") false t1).
  set (t3 := map (fun c => if is_cr c then LF else c) t2).
  assert (H1 : Forall (fun c => c <> NUL) t1).
  { subst t1. unfold replace_char. induction text as [|c s IH]; [constructor|].
    simpl. destruct (N.eqb_spec c NUL); simpl; constructor; auto. discriminate. }
  assert (H2 : Forall (fun c => c <> NUL) t2).
  { apply squeeze_Forall; [repeat constructor; discriminate | assumption]. }
  assert (H2t : Forall (fun c => c <> TAB) t2).
  { apply squeeze_blanks_no_tab. }
  assert (H2s : short_runs sp_or_tab 2 t2 = true).
  { apply (squeeze_short_runs sp_or_tab 1 (lit " ")); [lia | reflexivity]. }
  assert (H3 : Forall (fun c => c <> NUL /\ c <> TAB /\ c <> CR) t3).
  { subst t3. apply Forall_map. rewrite Forall_forall in *. intros c Hc.
    specialize (H2 c Hc). specialize (H2t c Hc).
    destruct (is_cr c) eqn:E.
    - repeat split; discriminate.
    - repeat split; auto. intros ->. discriminate. }
  assert (H3s : short_runs sp_or_tab 2 t3 = true).
  { subst t3. rewrite short_runs_map; [assumption|].
    intros c. destruct (is_cr c) eqn:E; [|reflexivity].
    unfold is_cr in E. simpl in E. apply N.eqb_eq in E. now subst c. }
  repeat split.
  - apply squeeze_Forall; [|assumption].
    repeat constructor; discriminate.
  - apply squeeze_other_runs; try lia; try assumption; try reflexivity.
    + intros c Hc. unfold sp_or_tab, is_lf in *. simpl in *.
      destruct (N.eqb_spec c LF) as [->|]; [discriminate | reflexivity].
    + now exists LF, [LF].
  - apply (squeeze_short_runs is_lf 3 [LF; LF]); [lia | reflexivity].
Qed.

Lemma normalised_factor (pre s post : str) :
  normalised (pre ++ s ++ post) -> normalised s.
Proof.
  intros (Hc & Hs & Hl). repeat split.
  - apply Forall_app in Hc as [_ Hc]. now apply Forall_app in Hc as [Hc _].
  - apply short_runs_app in Hs as [_ Hs]. now apply short_runs_app in Hs as [Hs _].
  - apply short_runs_app in Hl as [_ Hl]. now apply short_runs_app in Hl as [Hl _].
Qed.

(** The rewriting steps leave a normalised text as it is. *)
Lemma rewritten_fixed (s : str) : normalised s -> rewritten s = s.
Proof.
  intros (Hc & Hs & Hl). unfold rewritten, plus.
  rewrite !sub_rep by lia. rewrite sub_one.
  fold sp_or_tab is_cr is_lf.
  assert (E1 : replace_char NUL (lit " ") s = s).
  { clear Hs Hl. unfold replace_char.
    induction Hc as [|c s (Hn & _) Hc IH]; [reflexivity|].
    simpl. destruct (N.eqb_spec c NUL); [contradiction|]. simpl. now rewrite IH. }
  rewrite E1.
  assert (E2 : squeeze sp_or_tab 1 (lit " ") false s = s).
  { apply squeeze_single_fixed; [|assumption|discriminate].
    rewrite Forall_forall in *. intros c Hin Hp. destruct (Hc c Hin) as (_ & Ht & _).
    unfold sp_or_tab in Hp. simpl in Hp.
    destruct (N.eqb_spec c 32); [assumption|].
    destruct (N.eqb_spec c TAB); [contradiction | discriminate]. }
  rewrite E2.
  assert (E3 : flat_map (fun c => if is_cr c then [LF] else [c]) s = s).
  { clear E1 E2 Hs Hl. induction Hc as [|c s (_ & _ & Hr) Hc IH]; [reflexivity|].
    cbn [flat_map]. rewrite IH.
    assert (E : is_cr c = false) by (apply N.eqb_neq; assumption).
    now rewrite E. }
  rewrite E3. apply squeeze_fixed; (lia || assumption).
Qed.

(** C8. Text normalisation is idempotent: normalising a normalised text
    returns it unchanged. *)
Theorem clean_text_idempotent :
  forall t : str, clean_text (clean_text t) = clean_text t.
Proof.
  intros t. rewrite (clean_text_strip (clean_text t)).
  rewrite rewritten_fixed.
  - rewrite clean_text_strip. apply strip_by_idem.
  - rewrite clean_text_strip. unfold strip.
    destruct (strip_by_factor isspace (rewritten t)) as (pre & post & E).
    apply (normalised_factor pre _ post). rewrite <- E. apply rewritten_normalised.
Qed.

(** ** Groups of a match *)

Lemma results_keep_group (f : flags) (n : nat) (r : regex) :
  forall s s', In s' (results f r s) ->
    is_some (assoc_group n (groups s)) = true ->
    is_some (assoc_group n (groups s')) = true.
Proof.
  induction r; intros s s' Hin Hs; cbn [results] in Hin.
  - destruct Hin as [<-|[]]. assumption.
  - destruct (after s) as [|c rest]; [contradiction|].
    destruct (atom_match f a c); [|contradiction].
    destruct Hin as [<-|[]]. now rewrite groups_advance_state.
  - destruct (_ <? _); [contradiction|].
    apply in_map_iff in Hin as (k & <- & _). now rewrite groups_advance_state.
  - apply in_flat_map in Hin as (s1 & H1 & H2). eauto.
  - apply in_app_or in Hin as [H|H]; eauto.
  - apply in_app_or in Hin as [H|[<-|[]]]; eauto.
  - apply in_map_iff in Hin as (s1 & <- & H1). simpl.
    destruct (n0 =? n); [reflexivity|]. eauto.
  - destruct (at_bol f s); [|contradiction]. destruct Hin as [<-|[]]. assumption.
  - destruct (at_eol f s); [|contradiction]. destruct Hin as [<-|[]]. assumption.
  - destruct (before s) as [|c rest]; [|destruct (atom_match f a c)];
      try contradiction; destruct Hin as [<-|[]]; assumption.
  - destruct (after s) as [|c rest]; [|destruct (atom_match f a c)];
      try contradiction; destruct Hin as [<-|[]]; assumption.
Qed.

Lemma results_sets_group (f : flags) (n : nat) (r : regex) :
  always_sets n r = true ->
  forall s s', In s' (results f r s) -> is_some (assoc_group n (groups s')) = true.
Proof.
  induction r; intros Hr s s' Hin; cbn [always_sets] in Hr; try discriminate;
    cbn [results] in Hin.
  - apply in_flat_map in Hin as (s1 & H1 & H2).
    apply orb_prop in Hr as [Hr|Hr].
    + apply (results_keep_group f n r2 s1); eauto.
    + eauto.
  - apply andb_prop in Hr as [Hr1 Hr2].
    apply in_app_or in Hin as [H|H]; eauto.
  - apply in_map_iff in Hin as (s1 & <- & H1). simpl.
    destruct (n0 =? n) eqn:E; [reflexivity|]. simpl in Hr. eauto.
Qed.

Lemma is_some_exists {A : Type} (x : option A) : is_some x = true -> exists v, x = Some v.
Proof. destruct x; [eauto | discriminate]. Qed.

(** A match has its group 0 and every group the pattern always sets. *)
Lemma match_at_group (f : flags) (r : regex) (l rr : str) (m : mstate) (n : nat) :
  match_at f r l rr = Some m ->
  always_sets n (Group 0 r) = true ->
  exists v, group m n = Some v.
Proof.
  unfold match_at. intros Hm Hn.
  destruct (results f (Group 0 r) (at_pos l rr)) as [|m' ms] eqn:E; [discriminate|].
  injection Hm as ->. apply is_some_exists.
  apply (results_sets_group f n (Group 0 r) Hn (at_pos l rr)).
  rewrite E. now left.
Qed.

Lemma search_from_match_at (f : flags) (r : regex) (rr l : str) (m : mstate) :
  search_from f r l rr = Some m ->
  exists l' rr', match_at f r l' rr' = Some m.
Proof.
  revert l. induction rr as [|c rr IH]; intros l; cbn [search_from].
  - destruct (match_at f r l []) eqn:E; [|discriminate]. intros [= <-]. eauto.
  - destruct (match_at f r l (c :: rr)) eqn:E; [intros [= <-]; eauto|]. apply IH.
Qed.

Lemma search_group (f : flags) (r : regex) (text : str) (m : mstate) (n : nat) :
  search f r text = Some m ->
  always_sets n (Group 0 r) = true ->
  exists v, group m n = Some v.
Proof.
  intros Hs Hn. apply search_from_match_at in Hs as (l & rr & Hm).
  eapply match_at_group; eassumption.
Qed.

(** ** No extractor raises *)

Lemma extract_name_total (text : str) : exists r, extract_name text = Some r.
Proof.
  unfold extract_name. destruct (name_candidate text); [eauto|].
  destruct (search no_flags name_email_re text) as [m|] eqn:E; [|eauto].
  destruct (search_group _ _ _ _ 1 E eq_refl) as (v & ->). simpl. eauto.
Qed.

Lemma contact_field_total (key : string) (f : flags) (r : regex) (text : str)
    (n : nat) (w : float) (st : list (string * str) * float) :
  always_sets n (Group 0 r) = true ->
  exists st', contact_field key (search f r text) n w st = Some st'.
Proof.
  intros Hn. unfold contact_field.
  destruct (search f r text) as [m|] eqn:E; [|eauto].
  destruct (search_group _ _ _ _ n E Hn) as (v & ->). simpl. eauto.
Qed.

Lemma extract_contacts_total (text : str) : exists r, extract_contacts text = Some r.
Proof.
  unfold extract_contacts.
  destruct (contact_field_total "phone" no_flags phone_re text 0 f_0_35 ([], f_0_0) eq_refl)
    as (s1 & ->). cbn [bind].
  destruct (contact_field_total "email" no_flags email_re text 0 f_0_35 s1 eq_refl)
    as (s2 & ->). cbn [bind].
  destruct (contact_field_total "linkedin" re_I linkedin_re text 1 f_0_2 s2 eq_refl)
    as (s3 & ->). cbn [bind].
  destruct (contact_field_total "github" re_I github_re text 1 f_0_2 s3 eq_refl)
    as (s4 & ->). cbn [bind].
  eauto.
Qed.

Lemma cgpa_loop_total (ps : list regex) (text : str) :
  forallb (fun p => always_sets 1 p) ps = true ->
  exists r, cgpa_loop ps text = Some r.
Proof.
  induction ps as [|p ps IH]; intros H; cbn [cgpa_loop]; [eauto|].
  simpl in H. apply andb_prop in H as [Hp Hps].
  destruct (search re_I p text) as [m|] eqn:E; [|auto].
  destruct (search_group _ _ _ _ 1 E Hp) as (v & ->). simpl. eauto.
Qed.

Lemma extract_cgpa_total (text : str) : exists r, extract_cgpa text = Some r.
Proof. apply cgpa_loop_total. reflexivity. Qed.


Lemma append_to_last_total (combined : list (list str)) (line : str) :
  combined <> [] ->
  Forall (fun c => c <> []) combined ->
  exists combined', append_to_last combined line = Some combined'
    /\ combined' <> [] /\ Forall (fun c => c <> []) combined'.
Proof.
  induction combined as [|c cs IH]; intros Hne Hall; [contradiction|].
  inversion Hall as [|? ? Hc Hcs]; subst.
  destruct cs as [|c' cs].
  - simpl. eexists. split; [reflexivity|]. split; [discriminate|].
    constructor; [|constructor]. destruct c; discriminate.
  - destruct (IH ltac:(discriminate) Hcs) as (cs' & E & Hne' & Hall').
    cbn [append_to_last] in *. rewrite E. simpl. eexists. split; [reflexivity|].
    split; [discriminate|]. now constructor.
Qed.

Lemma block_step_total (st : str * list (list str)) (line : str) :
  block_inv st -> exists st', block_step st line = Some st' /\ block_inv st'.
Proof.
  destruct st as [cur combined]. intros [Hopen Hall]. simpl in *.
  unfold block_step.
  destruct (isupper line); [eexists; split; [reflexivity | now split]|].
  destruct (_ && negb _).
  - eexists. split; [reflexivity|]. split; simpl.
    + intros _ E. apply app_eq_nil in E as [_ E]. discriminate.
    + apply Forall_app. split; [assumption|]. repeat constructor. discriminate.
  - destruct (nonempty cur) eqn:Ec; simpl.
    + destruct (_ || _).
      * assert (Hcur : cur <> []) by (destruct cur; [discriminate | discriminate]).
        destruct (append_to_last_total combined line (Hopen Hcur) Hall)
          as (cs' & -> & Hne' & Hall').
        simpl. eexists. split; [reflexivity|]. now split.
      * eexists. split; [reflexivity | now split].
    + eexists. split; [reflexivity | now split].
Qed.

Lemma block_loop_total (lines : list str) (st : str * list (list str)) :
  block_inv st -> exists st', foldM block_step lines st = Some st' /\ block_inv st'.
Proof.
  revert st. induction lines as [|line lines IH]; intros st Hst; cbn [foldM]; [eauto|].
  destruct (block_step_total st line Hst) as (st1 & -> & H1). simpl. auto.
Qed.

Lemma project_groups_total (combined : list (list str)) :
  Forall (fun c => c <> []) combined ->
  exists ps, mapM project_of_group combined = Some ps.
Proof.
  induction 1 as [|c cs Hc Hcs (ps & IH)]; cbn [mapM]; [eauto|].
  destruct c as [|title descs]; [contradiction|]. simpl. rewrite IH. simpl. eauto.
Qed.

Lemma section_projects_total (text : str) : exists ps, section_projects text = Some ps.
Proof.
  unfold section_projects.
  destruct (search re_SI section_re text) as [sec|] eqn:E; [|eauto].
  destruct (search_group _ _ _ _ 2 E eq_refl) as (block & ->). cbn [bind].
  match goal with |- context [foldM block_step ?ls ?st] =>
    destruct (block_loop_total ls st) as (st' & -> & _ & Hall) end.
  - split; [intros H; now elim H | constructor].
  - cbn [bind]. now apply project_groups_total.
Qed.

Lemma mapM_total {A B : Type} (g : A -> option B) (l : list A) :
  (forall a, exists b, g a = Some b) -> exists bs, mapM g l = Some bs.
Proof.
  intros Hg. induction l as [|a l (bs & IH)]; cbn [mapM]; [eauto|].
  destruct (Hg a) as (b & ->). simpl. rewrite IH. simpl. eauto.
Qed.

Lemma numbered_projects_total (text : str) : exists ps, numbered_projects text = Some ps.
Proof.
  apply mapM_total. intros item. unfold numbered_project.
  destruct (search re_S _ text) as [desc|] eqn:E; [|eauto].
  destruct (search_group _ _ _ _ 1 E) as (g & ->); [|simpl; eauto].
  cbn. clear. induction (strip (snd item)) as [|c s IH]; [reflexivity|]. exact IH.
Qed.

Lemma extract_projects_total (text : str) : exists r, extract_projects text = Some r.
Proof.
  unfold extract_projects.
  destruct (section_projects_total text) as (sect & ->).
  destruct (numbered_projects_total text) as (numbered & ->). simpl. eauto.
Qed.

(** ** Confidences *)

(** Settles [unit_float] on a float given by a closed expression. *)
Ltac unit_value :=
  vm_compute;
  first [ exact I
        | split; [reflexivity
                 | first [left; reflexivity | right; split; [reflexivity | discriminate]]] ].

Lemma unit_0_0 : unit_float f_0_0. Proof. unit_value. Qed.
Lemma unit_0_1 : unit_float f_0_1. Proof. unit_value. Qed.
Lemma unit_0_5 : unit_float f_0_5. Proof. unit_value. Qed.
Lemma unit_0_85 : unit_float f_0_85. Proof. unit_value. Qed.
Lemma unit_0_9 : unit_float f_0_9. Proof. unit_value. Qed.
Lemma unit_0_97 : unit_float f_0_97. Proof. unit_value. Qed.
Lemma unit_0_99 : unit_float f_0_99. Proof. unit_value. Qed.

Lemma first_some_In {A B : Type} (g : A -> option B) (l : list A) (b : B) :
  first_some g l = Some b -> exists a, In a l /\ g a = Some b.
Proof.
  induction l as [|a l IH]; cbn [first_some]; [discriminate|].
  destruct (g a) eqn:E.
  - intros [= <-]. exists a. split; [now left | assumption].
  - intros H. destruct (IH H) as (a' & Hin & Ha). exists a'. split; [now right | assumption].
Qed.

Lemma name_of_candidate_conf (seen : list str) (name r : str) (c : float) :
  name_of_candidate seen name = Some (r, c) -> r = name /\ (c = f_0_99 \/ c = f_0_97).
Proof.
  unfold name_of_candidate.
  destruct (_ || _); [discriminate|]. destruct (mem_str _ _); [discriminate|].
  destruct (is_some _); [intros [= <- <-]; auto|].
  destruct (forallb _ _); [intros [= <- <-]; auto | discriminate].
Qed.

Lemma name_candidate_conf (text r : str) (c : float) :
  name_candidate text = Some (r, c) -> c = f_0_99 \/ c = f_0_97.
Proof.
  unfold name_candidate. intros H.
  apply first_some_In in H as (line & _ & H). unfold name_of_line in H.
  destruct (_ || _); [discriminate|]. destruct (existsb _ _); [discriminate|].
  apply first_some_In in H as (name & _ & H).
  now apply name_of_candidate_conf in H.
Qed.

Lemma extract_name_conf (text : str) :
  exists name c, extract_name text = Some (name, c) /\ unit_float c.
Proof.
  destruct (extract_name_total text) as ([name c] & E). exists name, c.
  split; [assumption|]. unfold extract_name in E.
  destruct (name_candidate text) as [[n' c']|] eqn:En.
  - injection E as <- <-. apply name_candidate_conf in En as [-> | ->];
      [apply unit_0_99 | apply unit_0_97].
  - destruct (search no_flags name_email_re text) as [m|].
    + destruct (group m 1); [|discriminate]. injection E as _ <-. apply unit_0_85.
    + injection E as _ <-. apply unit_0_1.
Qed.

Lemma contact_field_inv (key : string) (m : option mstate) (n : nat) (w : float)
    (st st' : list (string * str) * float) :
  contact_field key m n w st = Some st' ->
  snd st' = add_if (is_some m) w (snd st)
  /\ (m = None -> fst st' = fst st)
  /\ (forall ms, m = Some ms -> exists v, group ms n = Some v /\ fst st' = fst st ++ [(key, v)]).
Proof.
  unfold contact_field. destruct m as [ms|].
  - destruct (group ms n) as [v|] eqn:E; [|discriminate]. intros [= <-]. simpl.
    split; [reflexivity|]. split; [discriminate|]. intros ? [= <-]. eauto.
  - intros [= <-]. simpl. split; [reflexivity|]. split; [reflexivity | discriminate].
Qed.

Lemma contact_scores (b1 b2 b3 b4 : bool) :
  unit_float
    (fmin (add_if b4 f_0_2 (add_if b3 f_0_2 (add_if b2 f_0_35 (add_if b1 f_0_35 f_0_0))))
          f_0_99).
Proof. destruct b1, b2, b3, b4; unit_value. Qed.

(** The score of the contacts is decided by which fields were found. *)
Lemma extract_contacts_score (text : str) (out : list (string * str)) (c : float) :
  extract_contacts text = Some (out, c) ->
  c = fmin (add_if (is_some (search re_I github_re text)) f_0_2
             (add_if (is_some (search re_I linkedin_re text)) f_0_2
               (add_if (is_some (search no_flags email_re text)) f_0_35
                 (add_if (is_some (search no_flags phone_re text)) f_0_35 f_0_0))))
           f_0_99.
Proof.
  unfold extract_contacts. intros H.
  destruct (contact_field "phone" _ 0 f_0_35 _) as [s1|] eqn:E1; [|discriminate].
  cbn [bind] in H.
  destruct (contact_field "email" _ 0 f_0_35 _) as [s2|] eqn:E2; [|discriminate].
  cbn [bind] in H.
  destruct (contact_field "linkedin" _ 1 f_0_2 _) as [s3|] eqn:E3; [|discriminate].
  cbn [bind] in H.
  destruct (contact_field "github" _ 1 f_0_2 _) as [s4|] eqn:E4; [|discriminate].
  cbn [bind] in H. injection H as _ <-.
  apply contact_field_inv in E1 as (E1 & _). apply contact_field_inv in E2 as (E2 & _).
  apply contact_field_inv in E3 as (E3 & _). apply contact_field_inv in E4 as (E4 & _).
  now rewrite E4, E3, E2, E1.
Qed.

Lemma extract_contacts_conf (text : str) :
  exists out c, extract_contacts text = Some (out, c) /\ unit_float c.
Proof.
  destruct (extract_contacts_total text) as ([out c] & E). exists out, c.
  split; [assumption|]. rewrite (extract_contacts_score _ _ _ E). apply contact_scores.
Qed.

Lemma extract_skills_conf (text : str) (skills_list : list str) :
  (Z.of_nat (List.length skills_list) <= max_size)%Z ->
  unit_float (snd (extract_skills text skills_list)).
Proof.
  intros H. unfold extract_skills. cbn [snd]. apply skills_score_unit.
  unfold max_size in H. lia.
Qed.

Lemma cgpa_loop_conf (ps : list regex) (text r : str) (c : float) :
  cgpa_loop ps text = Some (r, c) -> c = f_0_99 \/ (c = f_0_0 /\ r = []).
Proof.
  induction ps as [|p ps IH]; cbn [cgpa_loop].
  - intros [= <- <-]. auto.
  - destruct (search re_I p text) as [m|]; [|assumption].
    destruct (group m 1); [|discriminate]. intros [= <- <-]. auto.
Qed.

Lemma extract_cgpa_conf (text : str) :
  exists r c, extract_cgpa text = Some (r, c) /\ unit_float c.
Proof.
  destruct (extract_cgpa_total text) as ([r c] & E). exists r, c.
  split; [assumption|].
  apply cgpa_loop_conf in E as [-> | [-> _]]; [apply unit_0_99 | apply unit_0_0].
Qed.

Lemma extract_projects_conf (text : str) :
  exists ps c, extract_projects text = Some (ps, c) /\ unit_float c.
Proof.
  destruct (extract_projects_total text) as ([ps c] & E). exists ps, c.
  split; [assumption|]. unfold extract_projects in E.
  destruct (section_projects text); [|discriminate].
  destruct (numbered_projects text); [|discriminate].
  cbn [bind] in E. injection E as _ <-.
  destruct (final_projects _); [apply unit_0_0 | apply unit_0_9].
Qed.

(** *** The aggregator *)

Lemma section_confidence_map_total (d : list (string * float)) :
  Forall (fun kv => unit_float (snd kv)) d ->
  exists r, section_confidence_map d = Some r
    /\ map fst r = map fst d
    /\ Forall (fun kv => percentage_ok (snd kv)) r.
Proof.
  unfold section_confidence_map.
  induction 1 as [|[k v] d Hv Hd (r & E & Hk & Hr)]; cbn [mapM].
  - exists []. repeat split; constructor.
  - destruct (percent_of_unit v Hv) as (p & Ep & Hp). cbn [snd fst]. rewrite Ep.
    cbn [bind]. rewrite E. cbn [bind]. exists ((k, p) :: r).
    split; [reflexivity|]. split; [simpl; now f_equal|]. constructor; assumption.
Qed.

(** ** The final loop of the project extractor *)

Lemma final_projects_inv (projects acc : list str) :
  NoDup acc ->
  Forall (fun p => strip_chars (lit " .-_") p = p) acc ->
  NoDup (fold_left final_step projects acc)
  /\ Forall (fun p => strip_chars (lit " .-_") p = p) (fold_left final_step projects acc).
Proof.
  revert acc. induction projects as [|p ps IH]; intros acc Hnd Htr; [now split|].
  cbn [fold_left]. apply IH; unfold final_step.
  - destruct (_ && negb (mem_str _ acc)) eqn:E; [|assumption].
    apply andb_prop in E as [_ E]. apply negb_true_iff, mem_str_not_In in E.
    apply NoDup_app; [assumption | repeat constructor; intros [] | ].
    intros x Hx [<-|[]]. contradiction.
  - destruct (_ && negb (mem_str _ acc)); [|assumption].
    apply Forall_app. split; [assumption|]. constructor; [|constructor].
    apply strip_by_idem.
Qed.

Lemma NoDup_firstn {A : Type} (n : nat) (l : list A) : NoDup l -> NoDup (firstn n l).
Proof.
  intros H. rewrite <- (firstn_skipn n l) in H. now apply NoDup_app_remove_r in H.
Qed.

Lemma Forall_firstn {A : Type} (P : A -> Prop) (n : nat) (l : list A) :
  Forall P l -> Forall P (firstn n l).
Proof.
  intros H. rewrite <- (firstn_skipn n l) in H. now apply Forall_app in H.
Qed.

Lemma extract_projects_capped (text : str) :
  exists ps c,
    extract_projects text = Some (ps, c)
    /\ List.length ps <= 10
    /\ NoDup ps
    /\ Forall (fun p => strip_chars (lit " .-_") p = p) ps.
Proof.
  destruct (extract_projects_total text) as ([ps c] & E). exists ps, c.
  split; [assumption|]. unfold extract_projects, bind in E.
  destruct (section_projects text) as [sect|]; [|discriminate].
  destruct (numbered_projects text) as [numbered|]; [|discriminate].
  assert (Eps : ps = firstn 10 (final_projects (sect ++ numbered ++ bullet_projects text)))
    by congruence.
  rewrite Eps. clear E Eps.
  destruct (final_projects_inv (sect ++ numbered ++ bullet_projects text) [])
    as [Hnd Htr]; [constructor | constructor |].
  split; [apply firstn_le_length|].
  split; [now apply NoDup_firstn | now apply Forall_firstn].
Qed.

(** ** The assembled record *)

(** [parse_file] returns, and its record is made of the extractors' results
    on the normalised text. *)
Lemma parse_file_record (file raw : str) (skills_list : list str) :
  unit_float (snd (extract_skills (clean_text raw) skills_list)) ->
  exists name c_name contacts c_contact cgpa c_cgpa projects c_proj conf,
    extract_name (clean_text raw) = Some (name, c_name)
    /\ extract_contacts (clean_text raw) = Some (contacts, c_contact)
    /\ extract_cgpa (clean_text raw) = Some (cgpa, c_cgpa)
    /\ extract_projects (clean_text raw) = Some (projects, c_proj)
    /\ Forall (fun kv => percentage_ok (snd kv)) conf
    /\ map fst conf = ["name"; "contact"; "skills"; "education"; "cgpa";
                       "projects"; "experience"]%string
    /\ parse_file file raw skills_list = Some {|
         p_file := file;
         p_name := remove_duplicate_words name;
         p_contacts := contacts;
         p_skills := fromkeys (fst (extract_skills (clean_text raw) skills_list));
         p_cgpa := cgpa;
         p_projects := map remove_duplicate_words projects;
         p_projects_text := join (lit " ") (map remove_duplicate_words projects);
         p_experience := [];
         p_confidence := conf;
         p_language := if is_kannada (clean_text raw) then lit "Kannada" else lit "English";
         p_raw_text := clean_text raw |}.
Proof.
  intros Hs. unfold parse_file. set (text := clean_text raw) in *.
  destruct (extract_name_conf text) as (name & c_name & En & Hn).
  destruct (extract_contacts_conf text) as (contacts & c_contact & Ec & Hc).
  destruct (extract_cgpa_conf text) as (cgpa & c_cgpa & Eg & Hg).
  destruct (extract_projects_conf text) as (projects & c_proj & Ep & Hp).
  rewrite En, Ec, Eg, Ep. cbn [bind fst snd extract_experience].
  match goal with |- context [section_confidence_map ?d] =>
    destruct (section_confidence_map_total d) as (conf & -> & Hk & Hconf) end.
  { repeat (apply Forall_cons; [cbn [snd]|]);
      [exact Hn | exact Hc | exact Hs | apply unit_0_5 | exact Hg | exact Hp
      | apply unit_0_0 | apply Forall_nil]. }
  cbn [bind]. exists name, c_name, contacts, c_contact, cgpa, c_cgpa, projects, c_proj, conf.
  repeat (split; [first [reflexivity | assumption]|]). reflexivity.
Qed.

(** ** The empty document *)

Lemma lower_from_nonempty (before s : str) : s <> [] -> lower_from before s <> [].
Proof.
  destruct s as [|c s]; [contradiction|]. intros _. cbn [lower_from].
  unfold lower_char. destruct (is_ascii c); [discriminate|].
  destruct (u_lower U before c s). discriminate.
Qed.

(** In an empty text only the empty skill is found. *)
Lemma search_skill_empty_text (skill : str) :
  skill <> [] -> search no_flags (skill_re skill) [] = None.
Proof.
  intros H. apply (lower_from_nonempty []) in H. fold (lower skill) in H.
  unfold skill_re. destruct (lower skill) as [|c ls]; [contradiction|]. reflexivity.
Qed.

Lemma skills_found_empty_text (skills_list : list str) :
  Forall (fun s => s <> []) skills_list -> skills_found [] skills_list = [].
Proof.
  unfold skills_found. induction 1 as [|skill l Hs Hl IH]; [reflexivity|].
  cbn [fold_left]. now rewrite search_skill_empty_text.
Qed.

Lemma extract_skills_empty_text (skills_list : list str) :
  Forall (fun s => s <> []) skills_list -> extract_skills [] skills_list = ([], f_0_1).
Proof.
  intros H. unfold extract_skills. change (lower []) with (@nil char).
  now rewrite skills_found_empty_text.
Qed.

Lemma parse_file_empty_text (file : str) (skills_list : list str) :
  Forall (fun s => s <> []) skills_list ->
  exists conf,
    parse_file file [] skills_list = Some {|
      p_file := file;
      p_name := lit "Unknown";
      p_contacts := [];
      p_skills := [];
      p_cgpa := [];
      p_projects := [];
      p_projects_text := [];
      p_experience := [];
      p_confidence := conf;
      p_language := lit "English";
      p_raw_text := [] |}.
Proof.
  intros H. unfold parse_file. change (clean_text []) with (@nil char). cbv zeta.
  rewrite (extract_skills_empty_text _ H). eexists. vm_compute. reflexivity.
Qed.

(** * Properties of the extractors *)

(** C2. For every text and every vocabulary a Python list can hold, the
    confidence returned by the name, contact, skills, CGPA, project and
    experience extractors lies in [0.0, 0.99], and every percentage of the
    record's confidence map lies in [0, 99]; so does every percentage the
    aggregator makes of confidences in that range. *)
Theorem confidences_bounded :
  forall (file text : str) (skills_list : list str),
    (Z.of_nat (List.length skills_list) <= max_size)%Z ->
    (exists v c, extract_name text = Some (v, c) /\ confidence_ok c)
    /\ (exists v c, extract_contacts text = Some (v, c) /\ confidence_ok c)
    /\ confidence_ok (snd (extract_skills text skills_list))
    /\ (exists v c, extract_cgpa text = Some (v, c) /\ confidence_ok c)
    /\ (exists v c, extract_projects text = Some (v, c) /\ confidence_ok c)
    /\ confidence_ok (snd (extract_experience text))
    /\ (exists rec, parse_file file text skills_list = Some rec
          /\ Forall (fun kv => percentage_ok (snd kv)) (p_confidence rec))
    /\ (forall d, Forall (fun kv => unit_float (snd kv)) d ->
          Forall (fun kv => confidence_ok (snd kv)) d
          /\ exists r, section_confidence_map d = Some r
               /\ Forall (fun kv => percentage_ok (snd kv)) r).
Proof.
  intros file text skills_list Hlen.
  split; [destruct (extract_name_conf text) as (v & c & E & H); exists v, c;
          split; [assumption | now apply unit_float_range]|].
  split; [destruct (extract_contacts_conf text) as (v & c & E & H); exists v, c;
          split; [assumption | now apply unit_float_range]|].
  split; [apply unit_float_range; now apply extract_skills_conf|].
  split; [destruct (extract_cgpa_conf text) as (v & c & E & H); exists v, c;
          split; [assumption | now apply unit_float_range]|].
  split; [destruct (extract_projects_conf text) as (v & c & E & H); exists v, c;
          split; [assumption | now apply unit_float_range]|].
  split; [apply unit_float_range, unit_0_0|].
  split.
  - destruct (parse_file_record file text skills_list)
      as (? & ? & ? & ? & ? & ? & ? & ? & conf & _ & _ & _ & _ & Hconf & _ & ->).
    + now apply extract_skills_conf.
    + eexists. split; [reflexivity | exact Hconf].
  - intros d Hd. split.
    + eapply Forall_impl; [|exact Hd]. intros kv. apply unit_float_range.
    + destruct (section_confidence_map_total d Hd) as (r & E & _ & Hr). eauto.
Qed.

(** C3 (amended). No extractor raises: on every text each one returns, and so
    does [parse_file] for every vocabulary a Python list can hold.  On the
    empty text, with a vocabulary free of the empty string, the record has
    the name Unknown, no contacts, no skills, no projects, the empty CGPA
    and the language English. *)
Theorem extraction_total :
  (forall text : str,
     (exists r, extract_name text = Some r)
     /\ (exists r, extract_contacts text = Some r)
     /\ (exists r, extract_cgpa text = Some r)
     /\ (exists r, extract_projects text = Some r))
  /\ (forall (file raw : str) (skills_list : list str),
        (Z.of_nat (List.length skills_list) <= max_size)%Z ->
        exists rec, parse_file file raw skills_list = Some rec)
  /\ (forall (file : str) (skills_list : list str),
        Forall (fun s => s <> []) skills_list ->
        exists rec,
          parse_file file [] skills_list = Some rec
          /\ p_name rec = lit "Unknown"
          /\ p_contacts rec = []
          /\ p_skills rec = []
          /\ p_projects rec = []
          /\ p_cgpa rec = []
          /\ p_language rec = lit "English").
Proof.
  split; [|split].
  - intros text.
    split; [apply extract_name_total|]. split; [apply extract_contacts_total|].
    split; [apply extract_cgpa_total | apply extract_projects_total].
  - intros file raw skills_list Hlen.
    destruct (parse_file_record file raw skills_list)
      as (? & ? & ? & ? & ? & ? & ? & ? & ? & _ & _ & _ & _ & _ & _ & ->); [|eauto].
    now apply extract_skills_conf.
  - intros file skills_list H.
    destruct (parse_file_empty_text file skills_list H) as (conf & ->).
    eexists. split; [reflexivity|]. repeat split.
Qed.

(** C4. Skill matching is whole-word, letters and digits counting as word
    characters: with the vocabulary of the one term react, the text
    I used reactive programming yields no skill, and I used React daily
    yields exactly React; a digit after the term blocks the match as well. *)
Theorem extract_skills_whole_word :
  fst (extract_skills (lit "I used reactive programming") [lit "react"]) = []
  /\ fst (extract_skills (lit "I used React daily") [lit "react"]) = [lit "React"]
  /\ fst (extract_skills (lit "I used react2 daily") [lit "react"]) = [].
Proof. repeat split; vm_compute; reflexivity. Qed.

(** C10. The labelled patterns need the number on the line of the label:
    with CGPA (or GPA) on one line and 8.50 on the next, and no out-of-ten
    form, the extractor returns the empty string with confidence 0.0, while
    the same label and number on one line give 8.50. *)
Theorem extract_cgpa_same_line :
  extract_cgpa (lit "CGPA" ++ [LF] ++ lit "8.50") = Some ([], f_0_0)
  /\ extract_cgpa (lit "GPA" ++ [LF] ++ lit "8.50") = Some ([], f_0_0)
  /\ extract_cgpa (lit "CGPA 8.50") = Some (lit "8.50", f_0_99).
Proof. repeat split; vm_compute; reflexivity. Qed.

(** ** CGPA *)

(** No CGPA label starts in text [b] that has none, whatever follows a
    label later on. *)
Lemma cgpa_label_not_before (a b post : str) :
  occurs re_I (lit "CGPA") (a ++ b) = false ->
  b <> [] ->
  lits_match re_I (lit "CGPA") (b ++ lit "CGPA: 8.5" ++ post) = false.
Proof.
  intros H Hb. apply occurs_suffix in H.
  destruct b as [|x1 [|x2 [|x3 [|x4 b]]]]; [contradiction| | | |exact H];
    cbn; repeat (rewrite ?andb_false_r; try reflexivity).
Qed.

Lemma cgpa_match_here (l post : str) :
  starts_with isdecimal post = false ->
  exists m, match_at re_I cgpa_re l (lit "CGPA: 8.5" ++ post) = Some m
            /\ group m 1 = Some (lit "8.5").
Proof.
  intros H. rewrite match_at_shift by reflexivity. unfold match_at.
  destruct post as [|c post].
  - eexists. split; vm_compute; reflexivity.
  - simpl in H. cbn. rewrite H. cbn. eexists. split; reflexivity.
Qed.

Lemma cgpa_match_any (l post : str) :
  exists m, match_at re_I cgpa_re l (lit "CGPA: 8.5" ++ post) = Some m.
Proof.
  rewrite match_at_shift by reflexivity. unfold match_at.
  destruct post as [|c post].
  - eexists. vm_compute. reflexivity.
  - cbn. destruct (isdecimal c); cbn; rewrite ?run_length_0; cbn; eexists; reflexivity.
Qed.

(** C5 (amended). The CGPA label has priority over the out-of-ten forms
    wherever they stand: a text that contains CGPA: 8.5 always yields a value
    with confidence 0.99 from a labelled pattern, and the value is 8.5 when
    no CGPA label (in any case) stands before it and no digit follows it,
    whatever else, such as 7.2/10, comes before or after. *)
Theorem extract_cgpa_priority :
  (forall pre post : str,
     occurs re_I (lit "CGPA") pre = false ->
     starts_with isdecimal post = false ->
     extract_cgpa (pre ++ lit "CGPA: 8.5" ++ post) = Some (lit "8.5", f_0_99))
  /\ (forall text : str,
        in_str (lit "CGPA: 8.5") text = true ->
        exists m v, search re_I cgpa_re text = Some m
                    /\ group m 1 = Some v
                    /\ extract_cgpa text = Some (v, f_0_99)).
Proof.
  split.
  - intros pre post Hpre Hpost.
    destruct (cgpa_match_here (rev pre ++ []) post Hpost) as (m & Hm & Hg).
    unfold extract_cgpa, cgpa_patterns. cbn [cgpa_loop].
    unfold search. rewrite search_from_skip.
    + rewrite (search_from_hit _ _ _ _ _ Hm), Hg. reflexivity.
    + intros a b E Hb. apply match_at_escape_fail.
      rewrite E in Hpre. now apply cgpa_label_not_before with a.
  - intros text H. apply in_str_split in H as (pre & post & ->).
    destruct (cgpa_match_any (rev pre ++ []) post) as (m & Hm).
    destruct (search_from_some _ _ _ _ _ _ Hm) as (m' & Hs).
    destruct (search_group re_I cgpa_re _ m' 1 Hs eq_refl) as (v & Hv).
    exists m', v. split; [exact Hs|]. split; [exact Hv|].
    unfold extract_cgpa, cgpa_patterns. cbn [cgpa_loop].
    unfold search in *. now rewrite Hs, Hv.
Qed.

(** ** Name fallback *)


Lemma is_letter_ascii (c : char) : is_letter c = ascii_isalpha c.
Proof.
  unfold is_letter, ascii_isalpha, ascii_isupper, ascii_islower. cbn.
  rewrite orb_false_r. apply orb_comm.
Qed.

(** What the fallback pattern matches: letters, at most one separator,
    letters again, then the at sign. *)
Lemma name_email_shape (l rr : str) (m : mstate) :
  match_at no_flags name_email_re l rr = Some m ->
  exists w1 w2 w3 rest,
    rr = (w1 ++ w2 ++ w3) ++ AT :: rest
    /\ forallb is_letter w1 = true
    /\ forallb is_name_sep w2 = true /\ List.length w2 <= 1
    /\ forallb is_letter w3 = true.
Proof.
  intros H. apply match_at_In, In_results_group in H as (s & H & _).
  unfold name_email_re, seqs in H. cbn [fold_right] in H.
  apply In_results_seq in H as (s1 & H1 & H).
  apply In_results_seq in H as (s2 & H2 & H).
  apply In_results_seq in H as (s3 & H3 & H).
  apply In_results_seq in H as (s4 & H4 & H5).
  apply In_results_group in H1 as (s1' & H1 & E1).
  apply In_results_rep in H1 as (w1 & Ea1 & Hw1 & _).
  apply In_results_rep in H2 as (w2 & Ea2 & Hw2 & _ & Hl2 & _).
  assert (H3' : exists w3, after s2 = w3 ++ after s3 /\ forallb is_letter w3 = true).
  { cbn [results] in H3. apply in_app_or in H3 as [H3|[<-|[]]].
    - apply in_map_iff in H3 as (s3' & <- & H3).
      apply In_results_rep in H3 as (w3 & Ea3 & Hw3 & _). exists w3. auto.
    - now exists []. }
  destruct H3' as (w3 & Ea3 & Hw3).
  apply In_results_one in H4 as (c & Ea4 & Hc).
  cbn in Hc. apply N.eqb_eq in Hc. subst c.
  exists w1, w2, w3, (after s4).
  cbn [after at_pos] in Ea1. rewrite Ea1, <- E1, Ea2, Ea3, Ea4, <- !app_assoc.
  auto.
Qed.

Lemma first_occurrence_unique (c : char) (w1 w2 r1 r2 : str) :
  w1 ++ c :: r1 = w2 ++ c :: r2 ->
  mem_char c w1 = false -> mem_char c w2 = false -> w1 = w2.
Proof.
  revert w2. induction w1 as [|x w1 IH]; intros [|y w2] E H1 H2; simpl in *.
  - reflexivity.
  - injection E as -> _. now rewrite N.eqb_refl in H2.
  - injection E as -> _. now rewrite N.eqb_refl in H1.
  - injection E as -> E. apply orb_false_elim in H1 as [_ H1].
    apply orb_false_elim in H2 as [_ H2]. f_equal. eauto.
Qed.

Lemma mem_char_app (c : char) (a b : str) :
  mem_char c (a ++ b) = mem_char c a || mem_char c b.
Proof. apply existsb_app. Qed.

Lemma forallb_no_member (p : char -> bool) (c : char) (w : str) :
  p c = false -> forallb p w = true -> mem_char c w = false.
Proof.
  intros Hc. induction w as [|x w IH]; [reflexivity|]. simpl.
  intros H. apply andb_prop in H as [Hx Hw]. rewrite (IH Hw), orb_false_r.
  apply N.eqb_neq. intros ->. congruence.
Qed.


Lemma non_letters_app (a b : str) : non_letters (a ++ b) = non_letters a ++ non_letters b.
Proof. apply filter_app. Qed.

Lemma non_letters_letters (w : str) : forallb is_letter w = true -> non_letters w = [].
Proof.
  induction w as [|c w IH]; [reflexivity|]. simpl. intros H.
  apply andb_prop in H as [Hc Hw]. rewrite Hc. simpl. auto.
Qed.

Lemma non_letters_length (w : str) : List.length (non_letters w) <= List.length w.
Proof. apply filter_length_le. Qed.

(** The pattern has no match starting in text that holds no at sign and
    ends in a character that is no letter, when the address follows. *)
Lemma name_email_not_before (l b post : str) (m : mstate) :
  b <> [] ->
  mem_char AT b = false ->
  ends_with ascii_isalpha b = false ->
  match_at no_flags name_email_re l (b ++ lit "jane.doe@x.com" ++ post) = Some m ->
  False.
Proof.
  intros Hb Hat Hend H.
  apply name_email_shape in H as (w1 & w2 & w3 & rest & E & H1 & H2 & Hl2 & H3).
  change (b ++ lit "jane.doe@x.com" ++ post)
    with (b ++ lit "jane.doe" ++ AT :: lit "x.com" ++ post) in E.
  rewrite app_assoc in E. symmetry in E.
  apply first_occurrence_unique in E.
  - apply (f_equal non_letters) in E.
    rewrite !non_letters_app, (non_letters_letters _ H1), (non_letters_letters _ H3) in E.
    rewrite app_nil_r in E. cbn [app] in E.
    apply (f_equal (@List.length char)) in E. rewrite length_app in E.
    pose proof (non_letters_length w2) as Hle.
    change (List.length (non_letters (lit "jane.doe"))) with 1 in E.
    assert (Hnb : 1 <= List.length (non_letters b)).
    { unfold ends_with in Hend. destruct (rev b) as [|z rb] eqn:Er.
      - apply (f_equal (@rev char)) in Er. rewrite rev_involutive in Er. contradiction.
      - apply (f_equal (@rev char)) in Er. rewrite rev_involutive in Er. simpl in Er.
        subst b. rewrite non_letters_app, length_app. simpl in Hend. simpl.
        rewrite is_letter_ascii, Hend. simpl. lia. }
    lia.
  - rewrite !mem_char_app. rewrite (forallb_no_member is_letter AT w1 eq_refl H1).
    rewrite (forallb_no_member is_name_sep AT w2 eq_refl H2).
    now rewrite (forallb_no_member is_letter AT w3 eq_refl H3).
  - rewrite mem_char_app, Hat. reflexivity.
Qed.

Lemma name_email_match_here (l post : str) :
  exists m, match_at no_flags name_email_re l (lit "jane.doe@x.com" ++ post) = Some m
            /\ group m 1 = Some (lit "jane")
            /\ group m 2 = Some (lit "doe").
Proof.
  rewrite match_at_shift by reflexivity. unfold match_at. cbn.
  eexists. split; [reflexivity|]. split; reflexivity.
Qed.

(** Without an at sign the pattern has no match. *)
Lemma name_email_needs_at (text : str) :
  mem_char AT text = false -> search no_flags name_email_re text = None.
Proof.
  intros H. apply search_from_none. intros a b ->.
  destruct (match_at no_flags name_email_re (rev a ++ []) b) as [m|] eqn:E; [|reflexivity].
  apply name_email_shape in E as (w1 & w2 & w3 & rest & -> & _).
  rewrite mem_char_app in H. apply orb_false_elim in H as [_ H].
  rewrite mem_char_app in H. apply orb_false_elim in H as [_ H].
  unfold mem_char in H. cbn [existsb] in H. now rewrite N.eqb_refl in H.
Qed.

(** C6 (amended). When no line yields a name candidate, the name comes from
    the leftmost run of letters (with at most one dot or underscore inside)
    that ends at an at sign: for a text in which jane.doe@x.com follows text
    that holds no at sign and does not end in a letter, the result is
    Jane Doe with confidence 0.85; for a text without any at sign it is
    Unknown with confidence 0.1, and Unknown is returned exactly when that
    pattern has no match. *)
Theorem extract_name_fallback :
  (forall pre post : str,
     name_candidate (pre ++ lit "jane.doe@x.com" ++ post) = None ->
     mem_char AT pre = false ->
     ends_with ascii_isalpha pre = false ->
     extract_name (pre ++ lit "jane.doe@x.com" ++ post) = Some (lit "Jane Doe", f_0_85))
  /\ (forall text : str,
        name_candidate text = None ->
        mem_char AT text = false ->
        extract_name text = Some (lit "Unknown", f_0_1))
  /\ (forall text : str,
        name_candidate text = None ->
        (extract_name text = Some (lit "Unknown", f_0_1)
         <-> search no_flags name_email_re text = None)).
Proof.
  split; [|split].
  - intros pre post Hc Hat Hend.
    destruct (name_email_match_here (rev pre ++ []) post) as (m & Hm & H1 & H2).
    unfold extract_name. rewrite Hc. unfold search. rewrite search_from_skip.
    + rewrite (search_from_hit _ _ _ _ _ Hm), H1, H2. vm_compute. reflexivity.
    + intros a b E Hb.
      destruct (match_at no_flags name_email_re (rev a ++ [])
                  (b ++ lit "jane.doe@x.com" ++ post)) as [m'|] eqn:Em;
        [exfalso|reflexivity].
      apply (name_email_not_before _ _ _ _ Hb) in Em; [assumption| |].
      * rewrite E, mem_char_app in Hat. now apply orb_false_elim in Hat.
      * unfold ends_with in *. rewrite E, rev_app_distr in Hend.
        destruct (rev b) as [|z rb] eqn:Er; [|exact Hend].
        apply (f_equal (@rev char)) in Er. rewrite rev_involutive in Er. contradiction.
  - intros text Hc Hat. unfold extract_name.
    now rewrite Hc, (name_email_needs_at _ Hat).
  - intros text Hc. unfold extract_name. rewrite Hc.
    destruct (search no_flags name_email_re text) as [m|] eqn:E.
    + split; [|discriminate]. destruct (search_group _ _ _ _ 1 E eq_refl) as (g1 & ->).
      cbn [bind]. intros H. discriminate H.
    + split; reflexivity.
Qed.

(** ** Contacts *)


Lemma In_results_rep_intro (f : flags) (a : atom) (lo : nat) (hi : option nat) (g : bool)
    (s : mstate) (k : nat) :
  lo <= k <= run_length (atom_match f a) hi (after s) ->
  In (advance_state s k) (results f (Rep a lo hi g) s).
Proof.
  intros H. cbn [results]. destruct (Nat.ltb_spec (run_length (atom_match f a) hi (after s)) lo);
    [lia|].
  apply in_map. unfold counts.
  assert (Hs : In k (seq lo (S (run_length (atom_match f a) hi (after s)) - lo)))
    by (apply in_seq; lia).
  destruct g; [now apply in_rev in Hs | assumption].
Qed.

Lemma phone_match_here (l post : str) :
  exists m, match_at no_flags phone_re l (lit "9876543210" ++ post) = Some m
            /\ group m 0 = Some (lit "9876543210").
Proof.
  rewrite match_at_shift by reflexivity. unfold match_at.
  cbn. rewrite ?run_length_0. cbn. eexists. split; reflexivity.
Qed.

Lemma email_match_any (l post : str) :
  exists m, match_at no_flags email_re l (lit "x@y.com" ++ post) = Some m.
Proof.
  eapply match_at_some. unfold email_re, seqs. cbn [fold_right].
  apply In_results_seq. eexists. split.
  { apply (In_results_rep_intro _ _ _ _ _ _ 1). cbn. lia. }
  apply In_results_seq. eexists. split; [cbn; left; reflexivity|].
  apply In_results_seq. eexists. split.
  { apply (In_results_rep_intro _ _ _ _ _ _ 1). cbn. lia. }
  apply In_results_seq. eexists. split; [cbn; left; reflexivity|].
  apply In_results_seq. eexists. split.
  { apply (In_results_rep_intro _ _ _ _ _ _ 3). cbn. lia. }
  cbn. left. reflexivity.
Qed.

Ltac eval_atoms :=
  repeat match goal with
         | |- context [atom_match ?f ?a ?x] =>
             let v := eval vm_compute in (atom_match f a x) in
             match v with
             | true => idtac
             | false => idtac
             end;
             change (atom_match f a x) with v
         end.

Lemma domain_char_dot (c : char) :
  domain_char c = false -> atom_match no_flags (Lit (ch ".")) c = false.
Proof.
  unfold domain_char. cbn. intros H.
  repeat (apply orb_false_elim in H as [? H]). assumption.
Qed.

Lemma domain_char_letter (c : char) :
  domain_char c = false -> atom_match no_flags (Cls [rng "A" "Z"; rng "a" "z"]) c = false.
Proof.
  unfold domain_char. cbn. intros H.
  apply orb_false_elim in H as [H0 H]. apply orb_false_elim in H as [H1 H].
  now rewrite H0, H1.
Qed.

(** With nothing that could belong to a domain after it, the address is
    matched as a whole. *)
Lemma email_match_here (l post : str) :
  starts_with domain_char post = false ->
  exists m, match_at no_flags email_re l (lit "x@y.com" ++ post) = Some m
            /\ group m 0 = Some (lit "x@y.com").
Proof.
  intros H. rewrite match_at_shift by reflexivity. unfold match_at.
  destruct post as [|c post].
  - cbn. eexists. split; reflexivity.
  - cbn [starts_with] in H.
    pose proof (domain_char_dot c H) as Hdot.
    pose proof (domain_char_letter c H) as Hlet.
    unfold domain_char in H. cbn -[atom_match] in H, Hdot, Hlet.
    repeat (cbn -[atom_match]; eval_atoms; rewrite ?H, ?Hdot, ?Hlet).
    eexists. split; reflexivity.
Qed.

(** What the address pattern matches starts with local-part characters up
    to an at sign. *)
Lemma email_shape (l rr : str) (m : mstate) :
  match_at no_flags email_re l rr = Some m ->
  exists w rest, rr = w ++ AT :: rest /\ forallb local_char w = true.
Proof.
  intros H. apply match_at_In, In_results_group in H as (s & H & _).
  unfold email_re, seqs in H. cbn [fold_right] in H.
  apply In_results_seq in H as (s1 & H1 & H).
  apply In_results_seq in H as (s2 & H2 & _).
  apply In_results_rep in H1 as (w & Ea1 & Hw & _).
  apply In_results_one in H2 as (c & Ea2 & Hc).
  cbn in Hc. apply N.eqb_eq in Hc. subst c.
  exists w, (after s2). cbn [after at_pos] in Ea1. rewrite Ea1, Ea2. auto.
Qed.

(** The pattern has no match starting in text that holds no at sign and
    ends in a character no local part can hold, when the address follows. *)
Lemma email_not_before (l b post : str) :
  b <> [] ->
  mem_char AT b = false ->
  ends_with local_char b = false ->
  match_at no_flags email_re l (b ++ lit "x@y.com" ++ post) = None.
Proof.
  intros Hb Hat Hend.
  destruct (match_at no_flags email_re l (b ++ lit "x@y.com" ++ post)) as [m|] eqn:H;
    [exfalso|reflexivity].
  apply email_shape in H as (w & rest & E & Hw).
  change (b ++ lit "x@y.com" ++ post) with (b ++ lit "x" ++ AT :: lit "y.com" ++ post) in E.
  rewrite app_assoc in E. symmetry in E.
  apply first_occurrence_unique in E.
  - subst w. rewrite forallb_app in Hw. apply andb_prop in Hw as [Hw _].
    unfold ends_with in Hend. destruct (rev b) as [|z rb] eqn:Er.
    + apply (f_equal (@rev char)) in Er. rewrite rev_involutive in Er. contradiction.
    + apply (f_equal (@rev char)) in Er. rewrite rev_involutive in Er. simpl in Er.
      subst b. rewrite forallb_app in Hw. apply andb_prop in Hw as [_ Hw].
      cbn [forallb] in Hw. cbn [starts_with] in Hend. rewrite Hend in Hw. discriminate.
  - apply (forallb_no_member local_char AT w eq_refl Hw).
  - rewrite mem_char_app, Hat. reflexivity.
Qed.

Lemma six_to_nine_9 (c : char) : six_to_nine c = false -> (c =? ch "9")%N = false.
Proof.
  unfold six_to_nine. cbn. rewrite orb_false_r. intros H.
  destruct (N.eqb_spec c 57) as [->|]; [discriminate H | reflexivity].
Qed.

(** The phone pattern has no match starting in text without any of the
    digits 6 to 9, when the number follows. *)
Lemma phone_not_before (l b rest : str) :
  b <> [] ->
  existsb six_to_nine b = false ->
  match_at no_flags phone_re l (b ++ lit "9876543210" ++ rest) = None.
Proof.
  intros Hb H. apply match_at_none.
  destruct b as [|x b]; [contradiction|]. cbn [existsb] in H.
  apply orb_false_elim in H as [Hx H].
  assert (Hl : lits_match no_flags (lit "+91") ((x :: b) ++ lit "9876543210" ++ rest) = false).
  { destruct b as [|y b].
    - cbn. now rewrite andb_false_r.
    - cbn [existsb] in H. apply orb_false_elim in H as [Hy _].
      apply six_to_nine_9 in Hy. cbn. cbn in Hy. rewrite Hy. now rewrite andb_false_r. }
  unfold phone_re, seqs. cbn [fold_right]. cbn [results]. rewrite results_escape.
  cbn [after at_pos]. rewrite Hl. cbn [flat_map map app].
  unfold six_to_nine in Hx. cbn -[atom_match] in Hx |- *. now rewrite Hx.
Qed.

Lemma search_link_none (f : flags) (p : str) (r : regex) (text : str) :
  occurs f p text = false -> search f (Group 1 (Seq (escape p) r)) text = None.
Proof.
  intros H. apply search_from_none. intros a b ->.
  apply match_at_none. cbn [results]. rewrite results_escape.
  cbn [after at_pos]. apply occurs_suffix in H. now rewrite H.
Qed.

Lemma sentence_phone (pre post : str) :
  pre ++ sentence ++ post =
  (pre ++ lit "Call me at ") ++ lit "9876543210" ++ lit " or email x@y.com" ++ post.
Proof. rewrite <- app_assoc. reflexivity. Qed.

Lemma sentence_email (pre post : str) :
  pre ++ sentence ++ post =
  (pre ++ lit "Call me at 9876543210 or email ") ++ lit "x@y.com" ++ post.
Proof. rewrite <- app_assoc. reflexivity. Qed.

Lemma ends_with_suffix (p : char -> bool) (a b c d : str) :
  a ++ b = c ++ d -> b <> [] -> d <> [] -> ends_with p b = ends_with p d.
Proof.
  intros E Hb Hd. apply (f_equal (@rev char)) in E. rewrite !rev_app_distr in E.
  unfold ends_with.
  destruct (rev b) as [|z rb] eqn:Eb.
  { apply (f_equal (@rev char)) in Eb. rewrite rev_involutive in Eb. contradiction. }
  destruct (rev d) as [|z' rd] eqn:Ed.
  { apply (f_equal (@rev char)) in Ed. rewrite rev_involutive in Ed. contradiction. }
  simpl in E. injection E as -> _. reflexivity.
Qed.

Lemma existsb_suffix (p : char -> bool) (a b : str) :
  existsb p (a ++ b) = false -> existsb p b = false.
Proof. rewrite existsb_app. intros H. now apply orb_false_elim in H. Qed.

(** Where the phone number of the sentence is found. *)
Lemma search_phone_sentence (pre post : str) :
  existsb six_to_nine pre = false ->
  exists m, search no_flags phone_re (pre ++ sentence ++ post) = Some m
            /\ group m 0 = Some (lit "9876543210").
Proof.
  intros H.
  destruct (phone_match_here (rev (pre ++ lit "Call me at ") ++ [])
              (lit " or email x@y.com" ++ post)) as (m & Hm & Hg).
  exists m. split; [|exact Hg].
  unfold search. rewrite sentence_phone, search_from_skip.
  - apply search_from_hit, Hm.
  - intros a b E Hb. apply phone_not_before; [assumption|].
    apply (existsb_suffix _ a). rewrite <- E, existsb_app, H. reflexivity.
Qed.

(** Where the address of the sentence is found. *)
Lemma search_email_sentence (pre post : str) :
  mem_char AT pre = false ->
  starts_with domain_char post = false ->
  exists m, search no_flags email_re (pre ++ sentence ++ post) = Some m
            /\ group m 0 = Some (lit "x@y.com").
Proof.
  intros H Hpost.
  destruct (email_match_here (rev (pre ++ lit "Call me at 9876543210 or email ") ++ [])
              post Hpost) as (m & Hm & Hg).
  exists m. split; [|exact Hg].
  unfold search. rewrite sentence_email, search_from_skip.
  - apply search_from_hit, Hm.
  - intros a b E Hb. apply email_not_before; [assumption| |].
    + apply (existsb_suffix _ a). change (mem_char AT (a ++ b) = false).
      rewrite <- E, mem_char_app, H. reflexivity.
    + symmetry in E. rewrite (ends_with_suffix _ _ _ _ _ E Hb); [reflexivity|discriminate].
Qed.

Lemma search_phone_any (pre post : str) :
  exists m, search no_flags phone_re (pre ++ sentence ++ post) = Some m.
Proof.
  destruct (phone_match_here (rev (pre ++ lit "Call me at ") ++ [])
              (lit " or email x@y.com" ++ post)) as (m & Hm & _).
  unfold search. rewrite sentence_phone. eapply search_from_some, Hm.
Qed.

Lemma search_email_any (pre post : str) :
  exists m, search no_flags email_re (pre ++ sentence ++ post) = Some m.
Proof.
  destruct (email_match_any (rev (pre ++ lit "Call me at 9876543210 or email ") ++ []) post)
    as (m & Hm).
  unfold search. rewrite sentence_email. eapply search_from_some, Hm.
Qed.

Lemma contact_field_grows (key : string) (m : option mstate) (n : nat) (w : float)
    (st st' : list (string * str) * float) :
  contact_field key m n w st = Some st' -> exists tl, fst st' = fst st ++ tl.
Proof.
  intros H. apply contact_field_inv in H as (_ & Hn & Hs). destruct m as [ms|].
  - destruct (Hs ms eq_refl) as (v & _ & ->). eauto.
  - exists []. rewrite app_nil_r. auto.
Qed.

(** The fields found are entries of the mapping. *)
Lemma extract_contacts_entries (text : str) (out : list (string * str)) (c : float) :
  extract_contacts text = Some (out, c) ->
  (is_some (search no_flags phone_re text) = true -> exists v, In ("phone"%string, v) out)
  /\ (is_some (search no_flags email_re text) = true -> exists v, In ("email"%string, v) out).
Proof.
  unfold extract_contacts. intros H.
  destruct (contact_field "phone" _ 0 f_0_35 _) as [s1|] eqn:E1; [|discriminate].
  cbn [bind] in H.
  destruct (contact_field "email" _ 0 f_0_35 _) as [s2|] eqn:E2; [|discriminate].
  cbn [bind] in H.
  destruct (contact_field "linkedin" _ 1 f_0_2 _) as [s3|] eqn:E3; [|discriminate].
  cbn [bind] in H.
  destruct (contact_field "github" _ 1 f_0_2 _) as [s4|] eqn:E4; [|discriminate].
  cbn [bind] in H. injection H as <- _.
  apply contact_field_grows in E4 as (t4 & ->). apply contact_field_grows in E3 as (t3 & ->).
  split; intros Hm.
  - apply contact_field_grows in E2 as (t2 & ->).
    apply contact_field_inv in E1 as (_ & _ & E1).
    destruct (search no_flags phone_re text) as [m|]; [|discriminate].
    destruct (E1 m eq_refl) as (v & _ & ->). exists v.
    rewrite !in_app_iff. simpl. intuition auto.
  - apply contact_field_inv in E2 as (_ & _ & E2).
    destruct (search no_flags email_re text) as [m|]; [|discriminate].
    destruct (E2 m eq_refl) as (v & _ & ->). exists v.
    rewrite !in_app_iff. simpl. intuition auto.
Qed.

(** C7 (amended). Every text that holds the sentence
    Call me at 9876543210 or email x@y.com yields a mapping with a phone and
    an email entry and a confidence from 0.7 to 0.99; the mapping is exactly
    phone 9876543210 and email x@y.com with confidence 0.7 when the text
    before the sentence holds no digit from 6 to 9 and no at sign, what
    follows it does not start with a letter, a digit, a dot or a hyphen, and
    the text holds neither linkedin.com/in/ nor github.com/ in any case. *)
Theorem extract_contacts_sentence :
  (forall pre post : str,
     exists out c p e,
       extract_contacts (pre ++ sentence ++ post) = Some (out, c)
       /\ In ("phone"%string, p) out /\ In ("email"%string, e) out
       /\ fle f_0_7 c = true /\ fle c f_0_99 = true)
  /\ (forall pre post : str,
        existsb six_to_nine pre = false ->
        mem_char AT pre = false ->
        starts_with domain_char post = false ->
        occurs re_I (lit "linkedin.com/in/") (pre ++ sentence ++ post) = false ->
        occurs re_I (lit "github.com/") (pre ++ sentence ++ post) = false ->
        extract_contacts (pre ++ sentence ++ post) =
        Some ([("phone"%string, lit "9876543210"); ("email"%string, lit "x@y.com")], f_0_7)).
Proof.
  split.
  - intros pre post.
    destruct (extract_contacts_total (pre ++ sentence ++ post)) as ([out c] & E).
    destruct (search_phone_any pre post) as (mp & Hp).
    destruct (search_email_any pre post) as (me & He).
    pose proof (extract_contacts_score _ _ _ E) as Hc.
    destruct (extract_contacts_entries _ _ _ E) as (Hin1 & Hin2).
    rewrite Hp in Hc, Hin1. rewrite He in Hc, Hin2.
    destruct (Hin1 eq_refl) as (p & Hinp). destruct (Hin2 eq_refl) as (e & Hine).
    exists out, c, p, e. repeat (split; [assumption|]).
    rewrite Hc.
    destruct (is_some (search re_I github_re _)), (is_some (search re_I linkedin_re _));
      vm_compute; split; reflexivity.
  - intros pre post H69 Hat Hpost Hl Hg.
    destruct (search_phone_sentence pre post H69) as (mp & Hp & Gp).
    destruct (search_email_sentence pre post Hat Hpost) as (me & He & Ge).
    unfold extract_contacts. rewrite Hp, He.
    unfold linkedin_re, github_re.
    rewrite (search_link_none _ _ _ _ Hl), (search_link_none _ _ _ _ Hg).
    cbn [contact_field bind]. rewrite Gp. cbn [bind fst snd]. rewrite Ge.
    vm_compute. reflexivity.
Qed.

(** * Further properties *)

(** ** The normal form of [clean_text] *)

Lemma starts_with_false (p : char -> bool) (s : str) :
  starts_with p s = false <-> match s with c :: _ => p c = false | [] => True end.
Proof. destruct s; simpl; tauto. Qed.

Lemma strip_by_ends (p : char -> bool) (s : str) :
  starts_with p (strip_by p s) = false /\ ends_with p (strip_by p s) = false.
Proof.
  split.
  - apply starts_with_false. unfold strip_by.
    pose proof (lstrip_by_head p s) as Hh.
    destruct (rstrip_by_prefix p (lstrip_by p s)) as (post & E).
    destruct (rstrip_by p (lstrip_by p s)) as [|c z]; [exact I|].
    rewrite E in Hh. exact Hh.
  - unfold ends_with, strip_by, rstrip_by. rewrite rev_involutive.
    apply starts_with_false, lstrip_by_head.
Qed.

Lemma strip_by_fixed (p : char -> bool) (s : str) :
  starts_with p s = false -> ends_with p s = false -> strip_by p s = s.
Proof.
  intros Hs He. unfold strip_by.
  rewrite (lstrip_by_fixed p s) by now apply starts_with_false.
  unfold rstrip_by. rewrite lstrip_by_fixed by now apply starts_with_false.
  apply rev_involutive.
Qed.

Lemma clean_text_normalised (t : str) : normalised (clean_text t).
Proof.
  rewrite clean_text_strip. unfold strip.
  destruct (strip_by_factor isspace (rewritten t)) as (pre & post & E).
  apply (normalised_factor pre _ post). rewrite <- E. apply rewritten_normalised.
Qed.

Lemma clean_text_fixed (s : str) :
  normalised s -> starts_with isspace s = false -> ends_with isspace s = false ->
  clean_text s = s.
Proof.
  intros Hn Hs He. rewrite clean_text_strip, (rewritten_fixed s Hn).
  now apply strip_by_fixed.
Qed.

Lemma clean_text_clean_text (t : str) : clean_text (clean_text t) = clean_text t.
Proof.
  apply clean_text_fixed; [apply clean_text_normalised| |];
    rewrite clean_text_strip; apply strip_by_ends.
Qed.

(** X1. The texts [clean_text] returns are exactly the texts it leaves alone:
    those without NUL, tab and carriage return, without two blanks or three
    line feeds in a row, and without whitespace at either end. *)
Theorem clean_text_normal_form :
  (forall t : str,
     normalised (clean_text t)
     /\ starts_with isspace (clean_text t) = false
     /\ ends_with isspace (clean_text t) = false)
  /\ (forall s : str,
        normalised s ->
        starts_with isspace s = false ->
        ends_with isspace s = false ->
        clean_text s = s).
Proof.
  split.
  - intros t. split; [apply clean_text_normalised|].
    rewrite clean_text_strip. apply strip_by_ends.
  - apply clean_text_fixed.
Qed.

(** ** Normalisation and words *)

Lemma flush_nil (l : list str) : flush [] l = l.
Proof. reflexivity. Qed.

Lemma split_ws_spaces (w rest : str) :
  forallb isspace w = true -> split_ws [] (w ++ rest) = split_ws [] rest.
Proof.
  induction w as [|c w IH]; intros H; [reflexivity|].
  simpl in H. apply andb_prop in H as [Hc Hw].
  simpl. rewrite Hc. now apply IH.
Qed.

Lemma split_ws_space_run (cur w rest : str) :
  w <> [] -> forallb isspace w = true ->
  split_ws cur (w ++ rest) = flush cur (split_ws [] rest).
Proof.
  intros Hne H. destruct w as [|c w]; [contradiction|].
  simpl in H. apply andb_prop in H as [Hc Hw].
  simpl. rewrite Hc. now rewrite split_ws_spaces.
Qed.

Lemma split_ws_trailing (a post cur : str) :
  forallb isspace post = true -> split_ws cur (a ++ post) = split_ws cur a.
Proof.
  intros H. revert cur. induction a as [|c a IH]; intros cur.
  - simpl. destruct post as [|c post]; [reflexivity|].
    rewrite <- (app_nil_r (c :: post)), split_ws_space_run; [reflexivity|discriminate|assumption].
  - simpl. destruct (isspace c); now rewrite IH.
Qed.

Lemma squeeze_split (p : char -> bool) (lo : nat) (repl : str) :
  (forall c, p c = true -> isspace c = true) ->
  repl <> [] -> forallb isspace repl = true ->
  forall s b cur, (b = true -> cur = []) ->
    split_ws cur (squeeze p lo repl b s) = split_ws cur s.
Proof.
  intros Hp Hne Hr. induction s as [|c s IH]; intros b cur Hb; [reflexivity|].
  cbn [squeeze]. destruct (p c) eqn:E.
  - pose proof (Hp c E) as Hc. destruct b.
    + rewrite (Hb eq_refl). cbn [split_ws]. rewrite Hc, flush_nil. now apply IH.
    + destruct (lo <=? _).
      * rewrite split_ws_space_run by assumption. cbn [split_ws]. rewrite Hc.
        f_equal. now apply IH.
      * cbn [split_ws]. rewrite Hc. f_equal. apply IH. discriminate.
  - cbn [split_ws]. destruct (isspace c); [f_equal|]; apply IH; discriminate.
Qed.

Lemma map_split (g : char -> char) :
  (forall c, isspace (g c) = isspace c) ->
  (forall c, isspace c = false -> g c = c) ->
  forall s cur, split_ws cur (map g s) = split_ws cur s.
Proof.
  intros Hs Hg. induction s as [|c s IH]; intros cur; [reflexivity|].
  simpl. rewrite Hs. destruct (isspace c) eqn:E.
  - now rewrite IH.
  - now rewrite (Hg c E), IH.
Qed.

Lemma lstrip_by_dropped (p : char -> bool) (s : str) :
  exists pre, s = pre ++ lstrip_by p s /\ forallb p pre = true.
Proof.
  induction s as [|c s (pre & IH & Hpre)]; [now exists []|].
  simpl. destruct (p c) eqn:E; [|now exists []].
  exists (c :: pre). simpl. rewrite E. split; [now f_equal | assumption].
Qed.

Lemma rstrip_by_dropped (p : char -> bool) (s : str) :
  exists post, s = rstrip_by p s ++ post /\ forallb p post = true.
Proof.
  unfold rstrip_by. destruct (lstrip_by_dropped p (rev s)) as (pre & E & Hpre).
  exists (rev pre). split.
  - rewrite <- rev_app_distr, <- E. now rewrite rev_involutive.
  - rewrite forallb_forall in *. intros x Hx. apply Hpre. now apply in_rev.
Qed.

Lemma split_strip (s : str) : split (strip s) = split s.
Proof.
  unfold split, strip, strip_by.
  destruct (lstrip_by_dropped isspace s) as (pre & E1 & H1).
  destruct (rstrip_by_dropped isspace (lstrip_by isspace s)) as (post & E2 & H2).
  rewrite E1 at 2. rewrite split_ws_spaces by assumption.
  rewrite E2 at 2. now rewrite split_ws_trailing.
Qed.

Lemma replace_char_absent (old : char) (new s : str) :
  mem_char old s = false -> replace_char old new s = s.
Proof.
  unfold mem_char, replace_char. induction s as [|c s IH]; [reflexivity|].
  simpl. intros H. apply orb_false_elim in H as [Hc Hs].
  rewrite N.eqb_sym, Hc. simpl. now rewrite IH.
Qed.

Lemma split_clean_text (t : str) :
  split (clean_text t) = split (replace_char NUL (lit " ") t).
Proof.
  rewrite clean_text_strip, split_strip. unfold rewritten, plus.
  rewrite !sub_rep by lia. rewrite sub_one.
  fold sp_or_tab is_cr is_lf. rewrite cr_to_lf_map.
  unfold split. rewrite squeeze_split.
  - rewrite map_split.
    + apply squeeze_split; try reflexivity; try discriminate.
      intros c Hc. unfold sp_or_tab in Hc. cbn in Hc. rewrite orb_false_r in Hc.
      apply orb_prop in Hc as [Hc|Hc]; apply N.eqb_eq in Hc; now subst c.
    + intros c. destruct (is_cr c) eqn:E; [|reflexivity].
      unfold is_cr in E. cbn in E. apply N.eqb_eq in E. now subst c.
    + intros c Hc. destruct (is_cr c) eqn:E; [|reflexivity].
      unfold is_cr in E. cbn in E. apply N.eqb_eq in E. now subst c.
  - intros c Hc. unfold is_lf in Hc. cbn in Hc. apply N.eqb_eq in Hc. now subst c.
  - discriminate.
  - reflexivity.
  - discriminate.
Qed.

(** X2. Normalisation keeps the words: the whitespace-delimited tokens of the
    normalised text are those of the text with every NUL replaced by a blank;
    for a text without NUL the tokens are unchanged, and so is the result of
    duplicate-word removal. *)
Theorem clean_text_keeps_words :
  (forall t : str, split (clean_text t) = split (replace_char NUL (lit " ") t))
  /\ (forall t : str,
        mem_char NUL t = false ->
        split (clean_text t) = split t
        /\ remove_duplicate_words (clean_text t) = remove_duplicate_words t).
Proof.
  split; [apply split_clean_text|].
  intros t H.
  assert (E : split (clean_text t) = split t)
    by now rewrite split_clean_text, replace_char_absent.
  split; [exact E|]. unfold remove_duplicate_words. now rewrite E.
Qed.

(** ** Normalisation and length *)

Lemma squeeze_length (p : char -> bool) (lo : nat) (repl : str) :
  List.length repl <= lo ->
  forall s b,
    List.length (squeeze p lo repl b s) + (if b then run_length p None s else 0)
    <= List.length s.
Proof.
  intros Hr. induction s as [|c s IH]; intros b.
  - simpl. destruct b; simpl; lia.
  - cbn [squeeze]. rewrite !run_length_cons. destruct (p c) eqn:E.
    + destruct b.
      * specialize (IH true). simpl in *. lia.
      * destruct (Nat.leb_spec lo (S (run_length p None s))).
        -- specialize (IH true). rewrite length_app. simpl in *. lia.
        -- specialize (IH false). simpl in *. lia.
    + specialize (IH false). destruct b; simpl in *; lia.
Qed.

Lemma replace_char_length (old c : char) (s : str) :
  List.length (replace_char old [c] s) = List.length s.
Proof.
  unfold replace_char. induction s as [|x s IH]; [reflexivity|].
  cbn [flat_map]. rewrite length_app, IH. now destruct (x =? old)%N.
Qed.

Lemma strip_by_length (p : char -> bool) (s : str) :
  List.length (strip_by p s) <= List.length s.
Proof.
  destruct (strip_by_factor p s) as (pre & post & E).
  rewrite E at 2. rewrite !length_app. lia.
Qed.

(** X3. Normalisation never makes a text longer. *)
Theorem clean_text_not_longer :
  forall t : str, List.length (clean_text t) <= List.length t.
Proof.
  intros t. rewrite clean_text_strip. unfold strip.
  etransitivity; [apply strip_by_length|]. unfold rewritten, plus.
  rewrite !sub_rep by lia. rewrite sub_one.
  fold sp_or_tab is_cr is_lf. rewrite cr_to_lf_map.
  pose proof (squeeze_length is_lf 3 [LF; LF] ltac:(simpl; lia)
                (map (fun c => if is_cr c then LF else c)
                   (squeeze sp_or_tab 1 (lit " ") false (replace_char NUL (lit " ") t)))
                false) as H1.
  pose proof (squeeze_length sp_or_tab 1 (lit " ") ltac:(simpl; lia)
                (replace_char NUL (lit " ") t) false) as H2.
  rewrite length_map in H1.
  change (lit " ") with [32%N] in *. rewrite replace_char_length in H2. lia.
Qed.

(** ** Duplicate-word removal, again *)

Lemma dedup_loop_fixed (ws : list str) :
  forall out, NoDup (map lower (out ++ ws)) ->
    snd (fold_left dedup_step ws (map lower out, out)) = out ++ ws.
Proof.
  induction ws as [|w ws IH]; intros out H; cbn [fold_left].
  - now rewrite app_nil_r.
  - unfold dedup_step at 2.
    assert (Hw : mem_str (lower w) (map lower out) = false).
    { apply mem_str_not_In. rewrite map_app in H. cbn [map] in H.
      apply NoDup_remove_2 in H. intros Hin. apply H. apply in_or_app. now left. }
    rewrite Hw.
    replace (map lower out ++ [lower w]) with (map lower (out ++ [w]))
      by now rewrite map_app.
    rewrite IH; rewrite <- app_assoc; [reflexivity | exact H].
Qed.

Lemma dedup_words_fixed (ws : list str) : NoDup (map lower ws) -> dedup_words ws = ws.
Proof. intros H. unfold dedup_words. apply (dedup_loop_fixed ws []). exact H. Qed.

(** X4. Removing duplicate words twice is removing them once; a text whose
    words differ pairwise in lowercase only has its whitespace replaced by
    single blanks; a text of whitespace only becomes the empty string. *)
Theorem remove_duplicate_words_idempotent :
  (forall t : str,
     remove_duplicate_words (remove_duplicate_words t) = remove_duplicate_words t)
  /\ (forall t : str,
        NoDup (map lower (split t)) ->
        remove_duplicate_words t = join (lit " ") (split t))
  /\ (forall t : str,
        forallb isspace t = true -> remove_duplicate_words t = []).
Proof.
  split; [|split].
  - intros t. unfold remove_duplicate_words at 1.
    rewrite split_remove_duplicate_words, dedup_words_fixed; [reflexivity|].
    destruct (dedup_loop_inv (split t)) as [_ Hnd _ _ _]. exact Hnd.
  - intros t H. unfold remove_duplicate_words. now rewrite dedup_words_fixed.
  - intros t H. unfold remove_duplicate_words, split.
    rewrite <- (app_nil_r t), split_ws_spaces by assumption. reflexivity.
Qed.

(** ** What a record is made of *)

Lemma parse_file_inv (file raw : str) (skills_list : list str) (rec : parsed) :
  parse_file file raw skills_list = Some rec ->
  exists name c_name contacts c_contact cgpa c_cgpa projects c_proj conf,
    extract_name (clean_text raw) = Some (name, c_name)
    /\ extract_contacts (clean_text raw) = Some (contacts, c_contact)
    /\ extract_cgpa (clean_text raw) = Some (cgpa, c_cgpa)
    /\ extract_projects (clean_text raw) = Some (projects, c_proj)
    /\ section_confidence_map
         [("name", c_name); ("contact", c_contact);
          ("skills", snd (extract_skills (clean_text raw) skills_list));
          ("education", f_0_5); ("cgpa", c_cgpa);
          ("projects", c_proj); ("experience", f_0_0)]%string = Some conf
    /\ rec = {|
         p_file := file;
         p_name := remove_duplicate_words name;
         p_contacts := contacts;
         p_skills := fromkeys (fst (extract_skills (clean_text raw) skills_list));
         p_cgpa := cgpa;
         p_projects := map remove_duplicate_words projects;
         p_projects_text := join (lit " ") (map remove_duplicate_words projects);
         p_experience := [];
         p_confidence := conf;
         p_language := if is_kannada (clean_text raw) then lit "Kannada" else lit "English";
         p_raw_text := clean_text raw |}.
Proof.
  unfold parse_file. set (text := clean_text raw). intros H.
  destruct (extract_name text) as [[name c_name]|]; [|discriminate].
  destruct (extract_contacts text) as [[contacts c_contact]|]; [|discriminate].
  destruct (extract_cgpa text) as [[cgpa c_cgpa]|]; [|discriminate].
  destruct (extract_projects text) as [[projects c_proj]|]; [|discriminate].
  cbn [bind fst snd extract_experience] in H.
  destruct (section_confidence_map _) as [conf|] eqn:Ec; [|discriminate].
  cbn [bind] in H. injection H as <-.
  exists name, c_name, contacts, c_contact, cgpa, c_cgpa, projects, c_proj, conf.
  repeat (split; [reflexivity|]). split; [exact Ec | reflexivity].
Qed.

(** ** Characters that normalisation leaves alone *)

Lemma existsb_none (p q : char -> bool) (s : str) :
  (forall c, p c = true -> q c = false) -> forallb p s = true -> existsb q s = false.
Proof.
  intros H. induction s as [|c s IH]; [reflexivity|]. simpl. intros Hs.
  apply andb_prop in Hs as [Hc Hs]. now rewrite (H c Hc), IH.
Qed.

Lemma existsb_squeeze (q p : char -> bool) (lo : nat) (repl : str) :
  (forall c, p c = true -> q c = false) -> existsb q repl = false ->
  forall s b, existsb q (squeeze p lo repl b s) = existsb q s.
Proof.
  intros Hp Hr. induction s as [|c s IH]; intros b; [reflexivity|].
  cbn [squeeze]. destruct (p c) eqn:E.
  - cbn [existsb]. rewrite (Hp c E). cbn [orb].
    destruct b; [apply IH|]. destruct (lo <=? _).
    + now rewrite existsb_app, Hr, IH.
    + cbn [existsb]. now rewrite (Hp c E), IH.
  - cbn [existsb]. now rewrite IH.
Qed.

Lemma existsb_map_same (q : char -> bool) (g : char -> char) (s : str) :
  (forall c, q (g c) = q c) -> existsb q (map g s) = existsb q s.
Proof.
  intros H. induction s as [|c s IH]; [reflexivity|]. simpl. now rewrite H, IH.
Qed.

Lemma existsb_strip_by (q p : char -> bool) (s : str) :
  (forall c, p c = true -> q c = false) -> existsb q (strip_by p s) = existsb q s.
Proof.
  intros H. unfold strip_by.
  destruct (lstrip_by_dropped p s) as (pre & E1 & H1).
  destruct (rstrip_by_dropped p (lstrip_by p s)) as (post & E2 & H2).
  rewrite E1 at 2. rewrite existsb_app, (existsb_none p q pre H H1). cbn [orb].
  rewrite E2 at 2. rewrite existsb_app, (existsb_none p q post H H2).
  now rewrite orb_false_r.
Qed.

Lemma existsb_replace_char (q : char -> bool) (old : char) (new s : str) :
  q old = false -> existsb q new = false ->
  existsb q (replace_char old new s) = existsb q s.
Proof.
  intros Ho Hn. unfold replace_char. induction s as [|c s IH]; [reflexivity|].
  cbn [flat_map existsb]. rewrite existsb_app, IH.
  destruct (N.eqb_spec c old) as [->|]; [now rewrite Hn, Ho|].
  cbn [existsb]. now rewrite orb_false_r.
Qed.

(** Normalisation neither removes nor brings in a character that is no NUL
    and no whitespace. *)
Lemma existsb_clean_text (q : char -> bool) (t : str) :
  q NUL = false -> (forall c, isspace c = true -> q c = false) ->
  existsb q (clean_text t) = existsb q t.
Proof.
  intros H0 Hs. rewrite clean_text_strip. unfold strip.
  rewrite existsb_strip_by by exact Hs. unfold rewritten, plus.
  rewrite !sub_rep by lia. rewrite sub_one.
  fold sp_or_tab is_cr is_lf. rewrite cr_to_lf_map.
  rewrite existsb_squeeze.
  - rewrite existsb_map_same.
    + rewrite existsb_squeeze.
      * apply existsb_replace_char; [assumption|]. cbn. now rewrite (Hs 32%N eq_refl).
      * intros c Hc. apply Hs. unfold sp_or_tab in Hc. cbn in Hc. rewrite orb_false_r in Hc.
        apply orb_prop in Hc as [Hc|Hc]; apply N.eqb_eq in Hc; now subst c.
      * cbn. now rewrite (Hs 32%N eq_refl).
    + intros c. destruct (is_cr c) eqn:E; [|reflexivity].
      unfold is_cr in E. cbn in E. apply N.eqb_eq in E. subst c.
      now rewrite (Hs LF eq_refl), (Hs CR eq_refl).
  - intros c Hc. apply Hs. unfold is_lf in Hc. cbn in Hc. apply N.eqb_eq in Hc. now subst c.
  - cbn. now rewrite (Hs LF eq_refl).
Qed.

(** ** Language *)

Lemma search_from_one (f : flags) (a : atom) (rr : str) :
  forall l, is_some (search_from f (One a) l rr) = existsb (atom_match f a) rr.
Proof.
  induction rr as [|c rr IH]; intros l; cbn [search_from]; rewrite match_at_one.
  - reflexivity.
  - cbn [existsb]. destruct (atom_match f a c); [reflexivity|]. apply IH.
Qed.

Lemma is_kannada_existsb (text : str) : is_kannada text = existsb kannada_char text.
Proof.
  unfold is_kannada, search. rewrite search_from_one.
  induction text as [|c text IH]; [reflexivity|]. cbn [existsb]. rewrite IH.
  f_equal. cbn. apply orb_false_r.
Qed.

Lemma kannada_char_not_space (c : char) : isspace c = true -> kannada_char c = false.
Proof.
  unfold isspace, kannada_char. intros H.
  destruct (N.leb_spec 0xC80 c) as [Hl|]; [|reflexivity].
  destruct (N.leb_spec c 0xCFF) as [Hh|]; [|reflexivity].
  exfalso.
  repeat match goal with
         | H : (_ || _)%bool = true |- _ => apply orb_prop in H as [H|H]
         end;
    try (apply andb_prop in H as [H1 H2]; apply N.leb_le in H1, H2);
    try apply N.eqb_eq in H; lia.
Qed.

(** X5. The language of a record is Kannada exactly when the raw text holds a
    code point of the Kannada block (U+0C80 to U+0CFF), English otherwise:
    normalisation does not touch these characters. *)
Theorem language_of_record :
  (forall text : str, is_kannada text = existsb kannada_char text)
  /\ (forall (file raw : str) (skills_list : list str) (rec : parsed),
        parse_file file raw skills_list = Some rec ->
        p_language rec
        = if existsb kannada_char raw then lit "Kannada" else lit "English").
Proof.
  split; [apply is_kannada_existsb|].
  intros file raw skills_list rec H.
  apply parse_file_inv in H
    as (name & c_name & contacts & c_contact & cgpa & c_cgpa & projects & c_proj & conf
        & _ & _ & _ & _ & _ & ->).
  cbn [p_language]. rewrite is_kannada_existsb, existsb_clean_text; [reflexivity..|].
  apply kannada_char_not_space.
Qed.

(** ** Entries of the project list *)

Lemma final_projects_long (projects acc : list str) :
  Forall (fun p => 5 < List.length p) acc ->
  Forall (fun p => 5 < List.length p) (fold_left final_step projects acc).
Proof.
  revert acc. induction projects as [|p ps IH]; intros acc H; [assumption|].
  cbn [fold_left]. apply IH. unfold final_step.
  destruct (_ && negb (mem_str _ acc)) eqn:E; [|assumption].
  apply andb_prop in E as [E _]. apply Nat.ltb_lt in E.
  apply Forall_app. split; [assumption|]. now constructor.
Qed.

(** X6. Every project reported has more than five characters, and the
    confidence is 0.9 exactly when a project is reported, 0.0 otherwise. *)
Theorem extract_projects_entries :
  forall (text : str) (ps : list str) (c : float),
    extract_projects text = Some (ps, c) ->
    Forall (fun p => 5 < List.length p) ps
    /\ ((ps = [] /\ c = f_0_0) \/ (ps <> [] /\ c = f_0_9)).
Proof.
  intros text ps c E. unfold extract_projects, bind in E.
  destruct (section_projects text) as [sect|]; [|discriminate].
  destruct (numbered_projects text) as [numbered|]; [|discriminate].
  set (final := final_projects (sect ++ numbered ++ bullet_projects text)) in E.
  assert (Hl : Forall (fun p => 5 < List.length p) final)
    by (apply final_projects_long; constructor).
  assert (Eps : ps = firstn 10 final) by congruence.
  assert (Ec : c = match final with [] => f_0_0 | _ => f_0_9 end) by congruence.
  subst ps c. split; [now apply Forall_firstn|].
  destruct final as [|p final]; [left; split; reflexivity|].
  right. split; [discriminate | reflexivity].
Qed.

(** X17. [extract_projects] returns for every text; its list has at most 10
    entries, no two of them equal, and each is left unchanged by the
    trimming of blanks, dots, hyphens and underscores the extractor applies,
    so no two are equal after that trimming either.  The projects field of
    the record holds the same entries after duplicate-word removal, in the
    same order: it has at most 10 entries as well. *)
Theorem extract_projects_cap :
  (forall text : str,
     exists ps c,
       extract_projects text = Some (ps, c)
       /\ List.length ps <= 10
       /\ NoDup ps
       /\ Forall (fun p => strip_chars (lit " .-_") p = p) ps
       /\ NoDup (map (strip_chars (lit " .-_")) ps))
  /\ (forall (file raw : str) (skills_list : list str) (rec : parsed),
        parse_file file raw skills_list = Some rec ->
        exists ps c,
          extract_projects (clean_text raw) = Some (ps, c)
          /\ p_projects rec = map remove_duplicate_words ps
          /\ List.length (p_projects rec) <= 10).
Proof.
  split.
  - intros text. destruct (extract_projects_capped text) as (ps & c & E & Hl & Hnd & Htr).
    exists ps, c. repeat (split; [assumption|]).
    replace (map (strip_chars (lit " .-_")) ps) with ps; [assumption|].
    clear E Hl Hnd. induction Htr as [|p ps Hp _ IH]; [reflexivity|].
    simpl. now rewrite Hp, <- IH.
  - intros file raw skills_list rec E.
    destruct (extract_projects_capped (clean_text raw)) as (ps & c & Ep & Hl & _).
    exists ps, c. split; [assumption|].
    unfold parse_file in E. rewrite Ep in E.
    destruct (extract_name (clean_text raw)); [|discriminate].
    destruct (extract_contacts (clean_text raw)); [|discriminate].
    destruct (extract_cgpa (clean_text raw)); [|discriminate].
    cbn [bind fst snd] in E.
    destruct (section_confidence_map _); [|discriminate].
    cbn [bind] in E. injection E as <-. cbn [p_projects].
    split; [reflexivity|]. now rewrite length_map.
Qed.

(** ** Errors of the aggregator *)

Lemma round_int_none (x : float) : round_int x = None <-> is_finite x = false.
Proof. destruct x; simpl; split; intros H; try discriminate; reflexivity. Qed.

Lemma fmul_not_finite (x y : float) : is_finite x = false -> is_finite (fmul x y) = false.
Proof. destruct x as [| | |]; try discriminate; intros _; destruct y; reflexivity. Qed.

(** *** Rounding to the nearest integer *)

Lemma nearest_even_unique (num d n n' : Z) :
  (0 < d)%Z -> nearest_even num d n -> nearest_even num d n' -> n = n'.
Proof.
  unfold nearest_even. intros Hd [H1 E1] [H2 E2].
  assert (Hc : (n' = n \/ n' = n + 1 \/ n = n' + 1)%Z) by nia.
  destruct Hc as [->|[-> | ->]]; [reflexivity | exfalso | exfalso].
  - assert (T1 : Z.abs (2 * (n * d - num)) = d) by nia.
    assert (T2 : Z.abs (2 * ((n + 1) * d - num)) = d) by nia.
    specialize (E1 T1). specialize (E2 T2).
    rewrite Z.add_1_r, Z.even_succ, <- Z.negb_even, E1 in E2. discriminate.
  - assert (T1 : Z.abs (2 * ((n' + 1) * d - num)) = d) by nia.
    assert (T2 : Z.abs (2 * (n' * d - num)) = d) by nia.
    specialize (E1 T1). specialize (E2 T2).
    rewrite Z.add_1_r, Z.even_succ, <- Z.negb_even, E2 in E1. discriminate.
Qed.

Lemma nearest_even_opp (num d n : Z) :
  nearest_even num d n -> nearest_even (- num) d (- n).
Proof.
  unfold nearest_even. intros [H E].
  replace (2 * (- n * d - - num))%Z with (- (2 * (n * d - num)))%Z by ring.
  rewrite Z.abs_opp, Z.even_opp. auto.
Qed.

Lemma round_half_even_nearest (m : positive) (e : Z) :
  nearest_even (Zpos m * 2 ^ Z.max 0 e) (2 ^ Z.max 0 (- e)) (round_half_even m e).
Proof.
  unfold round_half_even, nearest_even. destruct e as [|p|p].
  - change (2 ^ Z.max 0 (- 0))%Z with 1%Z. change (Z.max 0 0) with 0%Z. lia.
  - change (Z.max 0 (- Z.pos p)) with 0%Z. change (Z.max 0 (Z.pos p)) with (Z.pos p).
    change (2 ^ 0)%Z with 1%Z. lia.
  - change (Z.max 0 (Z.neg p)) with 0%Z. change (Z.max 0 (- Z.neg p)) with (Z.pos p).
    change (2 ^ 0)%Z with 1%Z. change (2 ^ Z.pos p)%Z with (Z.pow_pos 2 p).
    cbv zeta.
    assert (Hd : (0 < Z.pow_pos 2 p)%Z)
      by (change (Z.pow_pos 2 p) with (2 ^ Z.pos p)%Z; apply Z.pow_pos_nonneg; lia).
    pose proof (Z.div_mod (Zpos m) _ (Z.neq_sym _ _ (Z.lt_neq _ _ Hd))) as Hdm.
    pose proof (Z.mod_pos_bound (Zpos m) _ Hd) as Hr.
    generalize dependent (Z.pow_pos 2 p). intros d Hd.
    generalize (Zpos m / d)%Z (Zpos m mod d)%Z. intros q r Hdm Hr.
    rewrite Z.mul_1_r.
    destruct (Z.compare_spec (2 * r) d) as [Hc|Hc|Hc].
    + destruct (Z.even q) eqn:Eq.
      * split; [nia|]. intros _. exact Eq.
      * split; [nia|]. intros _.
        now rewrite Z.add_1_r, Z.even_succ, <- Z.negb_even, Eq.
    + split; [nia|]. intros H. exfalso. nia.
    + split; [nia|]. intros H. exfalso. nia.
Qed.

(** [round_int] rounds to the nearest integer, ties to even, and has no
    other result. *)
Lemma round_int_nearest (x : float) (n : Z) : round_int x = Some n <-> rounds_to x n.
Proof.
  assert (Hpos : forall e : Z, (0 < 2 ^ Z.max 0 e)%Z)
    by (intros e; apply Z.pow_pos_nonneg; lia).
  assert (H1 : forall m e s,
             nearest_even (cond_Zopp s (Zpos m * 2 ^ Z.max 0 e)) (2 ^ Z.max 0 (- e))
               (cond_Zopp s (round_half_even m e))).
  { intros m e s. pose proof (round_half_even_nearest m e) as H.
    destruct s; cbn [cond_Zopp]; [now apply nearest_even_opp | exact H]. }
  unfold rounds_to. destruct x as [s|s| |s m e]; cbn [round_int is_finite numerator denominator].
  - split.
    + intros [= <-]. split; [reflexivity|]. unfold nearest_even. simpl. lia.
    + intros [_ [H _]]. f_equal. lia.
  - split; [discriminate | intros [H _]; discriminate].
  - split; [discriminate | intros [H _]; discriminate].
  - split.
    + intros [= <-]. split; [reflexivity | apply H1].
    + intros [_ H]. f_equal.
      exact (nearest_even_unique _ _ _ _ (Hpos (- e)%Z) (H1 m e s) H).
Qed.

(** X7. The aggregator raises exactly when some confidence times 100 is an
    infinity or a NaN, as it is for a confidence that is one itself; when it
    returns, the result has the keys of its argument, in their order, each
    with the product rounded to the nearest integer: an integer at distance
    at most one half from the product, the even one when the product lies
    halfway between two integers, and there is only one such integer. So
    0.125 gives 12 and 0.375 gives 38. *)
Theorem section_confidence_map_errors :
  forall d : list (string * float),
    (section_confidence_map d = None
     <-> Exists (fun kv => is_finite (fmul (snd kv) f_100) = false) d)
    /\ (Exists (fun kv => is_finite (snd kv) = false) d -> section_confidence_map d = None)
    /\ (forall r, section_confidence_map d = Some r ->
          map fst r = map fst d
          /\ Forall2 (fun kv kp => round_int (fmul (snd kv) f_100) = Some (snd kp)
                                   /\ rounds_to (fmul (snd kv) f_100) (snd kp)) d r)
    /\ section_confidence_map [("a", decimal 1 8); ("b", decimal 3 8)]%string
       = Some [("a", 12%Z); ("b", 38%Z)]%string
    /\ (forall (x : float) (n n' : Z), rounds_to x n -> rounds_to x n' -> n = n')
    /\ (forall (s : bool) (m : positive) (e n : Z),
          rounds_to (S754_finite s m e) n ->
          (Z.abs (2 * (n * 2 ^ Z.max 0 (- e) - cond_Zopp s (Zpos m * 2 ^ Z.max 0 e)))
           <= 2 ^ Z.max 0 (- e))%Z).
Proof.
  intros d.
  assert (H1 : section_confidence_map d = None
               <-> Exists (fun kv => is_finite (fmul (snd kv) f_100) = false) d).
  { unfold section_confidence_map. induction d as [|[k v] d IH]; cbn [mapM].
    - split; [discriminate | intros H; inversion H].
    - cbn [fst snd]. destruct (round_int (fmul v f_100)) as [p|] eqn:Ep; cbn [bind].
      + destruct (mapM _ d) as [r|]; cbn [bind].
        * split; [discriminate|]. intros H. inversion H as [? ? Hv|? ? Hd]; subst.
          -- cbn [snd] in Hv. apply round_int_none in Hv. congruence.
          -- apply IH in Hd. discriminate.
        * split; [|reflexivity]. intros _. apply Exists_cons_tl. now apply IH.
      + split; [|reflexivity]. intros _. apply Exists_cons_hd. now apply round_int_none. }
  split; [exact H1|]. split; [|split; [|split; [|split]]].
  - intros H. apply H1. apply Exists_exists in H as (kv & Hin & Hkv).
    apply Exists_exists. exists kv. split; [assumption|]. now apply fmul_not_finite.
  - unfold section_confidence_map. clear H1. induction d as [|[k v] d IH]; cbn [mapM].
    + intros r [= <-]. split; constructor.
    + cbn [fst snd]. destruct (round_int (fmul v f_100)) as [p|] eqn:Ep; [|discriminate].
      cbn [bind]. destruct (mapM _ d) as [r'|]; [|discriminate]. cbn [bind].
      intros r [= <-]. destruct (IH r' eq_refl) as [Hk Hv].
      split; [simpl; now f_equal|]. constructor; [|assumption].
      cbn [fst snd]. split; [exact Ep | now apply round_int_nearest].
  - vm_compute. reflexivity.
  - intros x n n' Hn Hn'. apply round_int_nearest in Hn, Hn'. congruence.
  - intros s m e n [_ [H _]]. exact H.
Qed.

(** ** What the groups of a match hold *)

Lemma results_same_group (f : flags) (n : nat) (r : regex) :
  sets_no n r = true ->
  forall s s', In s' (results f r s) ->
    assoc_group n (groups s') = assoc_group n (groups s).
Proof.
  induction r; intros Hr s s' Hin; cbn [sets_no] in Hr; cbn [results] in Hin.
  - destruct Hin as [<-|[]]. reflexivity.
  - destruct (after s) as [|c rest]; [contradiction|].
    destruct (atom_match f a c); [|contradiction].
    destruct Hin as [<-|[]]. now rewrite groups_advance_state.
  - destruct (_ <? _); [contradiction|].
    apply in_map_iff in Hin as (k & <- & _). now rewrite groups_advance_state.
  - apply andb_prop in Hr as [H1 H2]. apply in_flat_map in Hin as (s1 & Hs1 & Hs').
    rewrite (IHr2 H2 _ _ Hs'). now apply IHr1.
  - apply andb_prop in Hr as [H1 H2]. apply in_app_or in Hin as [H|H]; auto.
  - apply in_app_or in Hin as [H|[<-|[]]]; auto.
  - apply andb_prop in Hr as [H1 H2]. apply in_map_iff in Hin as (s1 & <- & Hs1).
    cbn [set_group groups assoc_group]. apply negb_true_iff in H1. rewrite H1. auto.
  - destruct (at_bol f s); [|contradiction]. destruct Hin as [<-|[]]. reflexivity.
  - destruct (at_eol f s); [|contradiction]. destruct Hin as [<-|[]]. reflexivity.
  - destruct (before s) as [|c rest]; [|destruct (atom_match f a c)];
      try contradiction; destruct Hin as [<-|[]]; reflexivity.
  - destruct (after s) as [|c rest]; [|destruct (atom_match f a c)];
      try contradiction; destruct Hin as [<-|[]]; reflexivity.
Qed.

(** A group holds the text its pattern consumed. *)
Lemma In_results_group_value (f : flags) (n : nat) (r : regex) (s s' : mstate) :
  In s' (results f (Group n r) s) ->
  exists s1 w,
    In s1 (results f r s)
    /\ after s = w ++ after s1
    /\ after s' = after s1
    /\ before s' = before s1
    /\ groups s' = (n, w) :: groups s1.
Proof.
  cbn [results]. intros Hin. apply in_map_iff in Hin as (s1 & <- & H1).
  destruct (results_consumed f r s s1 H1) as (w & Ea & Eb).
  exists s1, w. repeat (split; [first [assumption | reflexivity]|]).
  unfold set_group. cbn [groups]. now rewrite (between_consumed s s1 w Eb).
Qed.

Lemma match_at_inv (f : flags) (r : regex) (l rr : str) (m : mstate) :
  match_at f r l rr = Some m ->
  exists s1 w,
    In s1 (results f r (at_pos l rr))
    /\ rr = w ++ after s1
    /\ after m = after s1
    /\ groups m = (0, w) :: groups s1.
Proof.
  intros H. apply match_at_In, In_results_group_value in H
    as (s1 & w & H1 & Ea & Ea' & _ & Eg).
  exists s1, w. cbn [after at_pos] in Ea. auto.
Qed.

(** Where a search found its match. *)
Lemma search_from_where (f : flags) (r : regex) (rr : str) :
  forall l m, search_from f r l rr = Some m ->
    exists a b, rr = a ++ b /\ match_at f r (rev a ++ l) b = Some m.
Proof.
  induction rr as [|c rr IH]; intros l m; cbn [search_from].
  - destruct (match_at f r l []) eqn:E; [|discriminate]. intros [= <-]. now exists [], [].
  - destruct (match_at f r l (c :: rr)) eqn:E.
    + intros [= <-]. now exists [], (c :: rr).
    + intros H. destruct (IH _ _ H) as (a & b & -> & Hm).
      exists (c :: a), b. split; [reflexivity|]. simpl. now rewrite <- app_assoc.
Qed.

Lemma search_where (f : flags) (r : regex) (text : str) (m : mstate) :
  search f r text = Some m ->
  exists a b, text = a ++ b /\ match_at f r (rev a ++ []) b = Some m.
Proof. apply search_from_where. Qed.

Lemma startswith_app (p s : str) : startswith p (p ++ s) = true.
Proof. induction p as [|x p IH]; [reflexivity|]. simpl. now rewrite N.eqb_refl. Qed.

Lemma in_str_intro (w a b : str) : in_str w (a ++ w ++ b) = true.
Proof.
  induction a as [|c a IH].
  - simpl app. destruct (w ++ b) eqn:E; cbn [in_str]; rewrite <- E, startswith_app; reflexivity.
  - simpl app. cbn [in_str]. rewrite IH. apply orb_true_r.
Qed.

Lemma in_str_longer (w x y a b : str) : in_str w (a ++ (x ++ w ++ y) ++ b) = true.
Proof.
  replace (a ++ (x ++ w ++ y) ++ b) with ((a ++ x) ++ w ++ (y ++ b))
    by now rewrite <- !app_assoc.
  apply in_str_intro.
Qed.

(** Group 0 of a match found by [re.search] is a piece of the text. *)
Lemma search_span (f : flags) (r : regex) (text : str) (m : mstate) :
  search f r text = Some m ->
  exists a w, group m 0 = Some w /\ text = a ++ w ++ after m.
Proof.
  intros H. apply search_where in H as (a & b & -> & H).
  apply match_at_inv in H as (s1 & w & _ & -> & Ea & Eg).
  exists a, w. unfold group. rewrite Eg. cbn [assoc_group Nat.eqb]. now rewrite Ea.
Qed.

Lemma forallb_same (p q : char -> bool) (s : str) :
  (forall c, p c = q c) -> forallb p s = forallb q s.
Proof. intros H. induction s as [|c s IH]; [reflexivity|]. simpl. now rewrite H, IH. Qed.

(** A group set during a match holds a piece of what the match consumed,
    and that piece is as the pattern inside the group makes it. *)
Lemma results_capture (f : flags) (n : nat) (P : str -> Prop) (r : regex) :
  groups_hold f n P r ->
  forall s s', In s' (results f r s) ->
    exists w, after s = w ++ after s'
      /\ (assoc_group n (groups s') = assoc_group n (groups s)
          \/ exists x v y, assoc_group n (groups s') = Some v /\ w = x ++ v ++ y /\ P v).
Proof.
  assert (Hadv : forall s k, exists w,
             after s = w ++ after (advance_state s k)
             /\ (assoc_group n (groups (advance_state s k)) = assoc_group n (groups s)
                 \/ exists x v y, assoc_group n (groups (advance_state s k)) = Some v
                                  /\ w = x ++ v ++ y /\ P v)).
  { intros s k. exists (firstn k (after s)).
    rewrite after_advance_state, firstn_skipn, groups_advance_state. auto. }
  assert (Hid : forall s : mstate, exists w, after s = w ++ after s
             /\ (assoc_group n (groups s) = assoc_group n (groups s)
                 \/ exists x v y, assoc_group n (groups s) = Some v
                                  /\ w = x ++ v ++ y /\ P v))
    by (intros s; exists []; auto).
  induction r; intros Hr s s' Hin; cbn [groups_hold] in Hr; cbn [results] in Hin.
  - destruct Hin as [<-|[]]. apply Hid.
  - destruct (after s) as [|c rest] eqn:E; [contradiction|].
    destruct (atom_match f a c); [|contradiction].
    destruct Hin as [<-|[]]. rewrite <- E. apply Hadv.
  - destruct (_ <? _); [contradiction|].
    apply in_map_iff in Hin as (k & <- & _). apply Hadv.
  - destruct Hr as [Hr1 Hr2]. apply in_flat_map in Hin as (s1 & H1 & H2).
    destruct (IHr1 Hr1 _ _ H1) as (w1 & E1 & C1).
    destruct (IHr2 Hr2 _ _ H2) as (w2 & E2 & C2).
    exists (w1 ++ w2). split; [rewrite E1, E2; now rewrite app_assoc|].
    destruct C2 as [C2|(x & v & y & Hv & -> & HP)].
    + destruct C1 as [C1|(x & v & y & Hv & -> & HP)].
      * left. congruence.
      * right. exists x, v, (y ++ w2). rewrite C2. split; [assumption|].
        split; [now rewrite <- !app_assoc | assumption].
    + right. exists (w1 ++ x), v, y. split; [assumption|].
      split; [now rewrite <- !app_assoc | assumption].
  - destruct Hr as [Hr1 Hr2]. apply in_app_or in Hin as [H|H]; auto.
  - apply in_app_or in Hin as [H|[<-|[]]]; auto.
  - destruct Hr as [Hk Hr1]. apply in_map_iff in Hin as (s1 & <- & H1).
    destruct (IHr Hr1 _ _ H1) as (w & E & C).
    destruct (results_consumed f r s s1 H1) as (w' & Ea & Eb).
    assert (w' = w) by (apply (app_inv_tail (after s1)); congruence). subst w'.
    exists w. cbn [set_group after groups assoc_group].
    rewrite (between_consumed s s1 w Eb). split; [assumption|].
    destruct (Nat.eqb_spec n0 n) as [En|En]; [|exact C].
    right. exists [], w, []. rewrite app_nil_r. split; [reflexivity|].
    split; [reflexivity|]. apply (Hk En s s1 w H1 E).
  - destruct (at_bol f s); [|contradiction]. destruct Hin as [<-|[]]. apply Hid.
  - destruct (at_eol f s); [|contradiction]. destruct Hin as [<-|[]]. apply Hid.
  - assert (s' = s) as ->; [|apply Hid].
    destruct (before s) as [|c rest]; [|destruct (atom_match f a c)];
      try contradiction; now destruct Hin as [<-|[]].
  - assert (s' = s) as ->; [|apply Hid].
    destruct (after s) as [|c rest]; [|destruct (atom_match f a c)];
      try contradiction; now destruct Hin as [<-|[]].
Qed.

(** A group of a match found by [re.search] holds a piece of the text, made
    as the pattern inside the group makes it. *)
Lemma search_capture (f : flags) (n : nat) (P : str -> Prop) (r : regex)
    (text : str) (m : mstate) (v : str) :
  groups_hold f (S n) P r ->
  search f r text = Some m ->
  group m (S n) = Some v ->
  in_str v text = true /\ P v.
Proof.
  intros Hr H Hv. apply search_where in H as (a & b & -> & H).
  apply match_at_inv in H as (s1 & w & H & -> & _ & Eg).
  destruct (results_capture f (S n) P r Hr _ _ H) as (w' & Ea & C).
  cbn [after at_pos groups assoc_group] in Ea, C.
  assert (w' = w) by (apply (app_inv_tail (after s1)); congruence). subst w'.
  unfold group in Hv. rewrite Eg in Hv. cbn [assoc_group Nat.eqb] in Hv.
  destruct C as [C|(x & v' & y & Hv' & -> & HP)]; [congruence|].
  assert (v' = v) by congruence. subst v'.
  split; [apply in_str_longer | assumption].
Qed.

(** ** The mapping of the contacts *)

Lemma contact_field_entry (key : string) (m : option mstate) (n : nat) (w : float)
    (st st' : list (string * str) * float) :
  contact_field key m n w st = Some st' ->
  exists e, contact_entry key m n e /\ fst st' = fst st ++ e.
Proof.
  intros H. apply contact_field_inv in H as (_ & Hn & Hs). destruct m as [ms|].
  - destruct (Hs ms eq_refl) as (v & Hv & ->). exists [(key, v)]. split; [|reflexivity].
    exists v. auto.
  - exists []. split; [reflexivity|]. rewrite app_nil_r. auto.
Qed.

(** The mapping holds the fields found, in the order of the source. *)
Lemma extract_contacts_out (text : str) (out : list (string * str)) (c : float) :
  extract_contacts text = Some (out, c) ->
  exists e1 e2 e3 e4,
    out = e1 ++ e2 ++ e3 ++ e4
    /\ contact_entry "phone" (search no_flags phone_re text) 0 e1
    /\ contact_entry "email" (search no_flags email_re text) 0 e2
    /\ contact_entry "linkedin" (search re_I linkedin_re text) 1 e3
    /\ contact_entry "github" (search re_I github_re text) 1 e4.
Proof.
  unfold extract_contacts. intros H.
  destruct (contact_field "phone" _ 0 f_0_35 _) as [s1|] eqn:E1; [|discriminate].
  cbn [bind] in H.
  destruct (contact_field "email" _ 0 f_0_35 _) as [s2|] eqn:E2; [|discriminate].
  cbn [bind] in H.
  destruct (contact_field "linkedin" _ 1 f_0_2 _) as [s3|] eqn:E3; [|discriminate].
  cbn [bind] in H.
  destruct (contact_field "github" _ 1 f_0_2 _) as [s4|] eqn:E4; [|discriminate].
  cbn [bind] in H. injection H as <- _.
  apply contact_field_entry in E1 as (e1 & H1 & F1).
  apply contact_field_entry in E2 as (e2 & H2 & F2).
  apply contact_field_entry in E3 as (e3 & H3 & F3).
  apply contact_field_entry in E4 as (e4 & H4 & F4).
  exists e1, e2, e3, e4. split; [|auto].
  rewrite F4, F3, F2, F1. cbn [fst]. now rewrite <- !app_assoc.
Qed.

(** X8. The keys of the mapping are among phone, email, linkedin and github,
    in this order and without repetition; the confidence is the sum of the
    weights of the keys present (0.35 for phone and for email, 0.2 for
    linkedin and for github), capped at 0.99, and it is 0.0 exactly when the
    mapping is empty. *)
Theorem extract_contacts_keys :
  forall (text : str) (out : list (string * str)) (c : float),
    extract_contacts text = Some (out, c) ->
    subseq (map fst out) ["phone"; "email"; "linkedin"; "github"]%string
    /\ c = fmin (contact_sum (map fst out)) f_0_99
    /\ (out = [] <-> c = f_0_0).
Proof.
  intros text out c H.
  pose proof (extract_contacts_score _ _ _ H) as Hc.
  apply extract_contacts_out in H as (e1 & e2 & e3 & e4 & -> & H1 & H2 & H3 & H4).
  destruct (search no_flags phone_re text) as [m1|];
    [destruct H1 as (v1 & _ & ->) | rewrite H1];
    (destruct (search no_flags email_re text) as [m2|];
       [destruct H2 as (v2 & _ & ->) | rewrite H2]);
    (destruct (search re_I linkedin_re text) as [m3|];
       [destruct H3 as (v3 & _ & ->) | rewrite H3]);
    (destruct (search re_I github_re text) as [m4|];
       [destruct H4 as (v4 & _ & ->) | rewrite H4]);
    cbn [is_some add_if] in Hc; subst c; cbn [app map fst];
    (split; [repeat first [apply subseq_nil | apply subseq_keep | apply subseq_skip]|]);
    (split; [vm_compute; reflexivity|]);
    (split; [intros E; discriminate E | intros E; vm_compute in E; discriminate E])
    || (split; reflexivity).
Qed.

(** ** The values of the contacts *)

Lemma lits_match_exact (p s : str) :
  lits_match no_flags p s = true -> exists rest, s = p ++ rest.
Proof.
  revert s. induction p as [|x p IH]; intros s H; [now exists s|].
  destruct s as [|c s]; [discriminate|]. cbn [lits_match] in H.
  apply andb_prop in H as [Hc Hp]. cbn in Hc. apply N.eqb_eq in Hc. subst c.
  destruct (IH _ Hp) as (rest & ->). now exists rest.
Qed.

Lemma In_results_eps (f : flags) (s s' : mstate) : In s' (results f Eps s) -> s' = s.
Proof. intros [<-|[]]. reflexivity. Qed.

(** What the phone pattern matches. *)
Lemma phone_shape (l rr : str) (m : mstate) :
  match_at no_flags phone_re l rr = Some m ->
  exists w0 d ds,
    group m 0 = Some (w0 ++ d :: ds)
    /\ (w0 = [] \/ exists sep, w0 = lit "+91" ++ sep /\ List.length sep <= 1
                               /\ forallb (fun c => mem_char c (lit "- ")) sep = true)
    /\ six_to_nine d = true
    /\ List.length ds = 9
    /\ forallb isdecimal ds = true.
Proof.
  intros H. apply match_at_inv in H as (s1 & w & H & Ew & _ & Eg).
  unfold phone_re, seqs in H. cbn [fold_right] in H.
  apply In_results_seq in H as (sa & Ha & H).
  apply In_results_seq in H as (sb & Hb & H).
  apply In_results_seq in H as (sc & Hc & H).
  apply In_results_eps in H. subst s1.
  apply In_results_one in Hb as (d & Eb & Hd).
  apply In_results_rep in Hc as (ds & Ec & Hds & Hlo & Hhi & _).
  assert (Ha' : exists w0, rr = w0 ++ after sa
            /\ (w0 = [] \/ exists sep, w0 = lit "+91" ++ sep /\ List.length sep <= 1
                  /\ forallb (fun c => mem_char c (lit "- ")) sep = true)).
  { cbn [results] in Ha. apply in_app_or in Ha as [Ha|[<-|[]]]; [|exists []; auto].
    apply in_map_iff in Ha as (sg & <- & Ha). cbn [set_group after].
    apply in_flat_map in Ha as (se & He & Ha).
    rewrite results_escape in He. cbn [after at_pos] in He.
    destruct (lits_match no_flags (lit "+91") rr) eqn:El; [|contradiction].
    destruct He as [<-|[]]. apply lits_match_exact in El as (rest & ->).
    apply In_results_rep in Ha as (sep & Ea & Hsep & _ & Hl & _).
    rewrite after_advance_state in Ea. cbn [after at_pos] in Ea.
    change (skipn (List.length (lit "+91")) (lit "+91" ++ rest)) with rest in Ea.
    exists (lit "+91" ++ sep). rewrite Ea, <- app_assoc. split; [reflexivity|].
    right. exists sep. split; [reflexivity|]. split; [exact Hl|].
    rewrite (forallb_same _ (atom_match no_flags (Cls [Chr (ch "-"); Chr (ch " ")])));
      [exact Hsep|]. intros c. reflexivity. }
  destruct Ha' as (w0 & Ea & Hw0).
  exists w0, d, ds. unfold group. rewrite Eg. cbn [assoc_group Nat.eqb].
  assert (E : w = w0 ++ d :: ds).
  { apply (app_inv_tail (after sc)). rewrite <- Ew, Ea, Eb, Ec, <- app_assoc. reflexivity. }
  rewrite E. repeat (split; [first [reflexivity | assumption]|]).
  split; [lia | exact Hds].
Qed.

(** What the address pattern matches. *)
Lemma email_full_shape (l rr : str) (m : mstate) :
  match_at no_flags email_re l rr = Some m ->
  exists loc dom tld,
    group m 0 = Some (loc ++ AT :: dom ++ ch "." :: tld)
    /\ loc <> [] /\ forallb local_char loc = true
    /\ dom <> [] /\ forallb domain_char dom = true
    /\ 2 <= List.length tld /\ forallb is_letter tld = true.
Proof.
  intros H. apply match_at_inv in H as (s1 & w & H & Ew & _ & Eg).
  unfold email_re, seqs in H. cbn [fold_right] in H.
  apply In_results_seq in H as (sa & Ha & H).
  apply In_results_seq in H as (sb & Hb & H).
  apply In_results_seq in H as (sc & Hc & H).
  apply In_results_seq in H as (sd & Hd & H).
  apply In_results_seq in H as (se & He & H).
  apply In_results_eps in H. subst s1.
  apply In_results_rep in Ha as (loc & Ea & Hloc & Hl1 & _).
  apply In_results_one in Hb as (c1 & Eb & Hc1). cbn in Hc1. apply N.eqb_eq in Hc1. subst c1.
  apply In_results_rep in Hc as (dom & Ec & Hdom & Hl2 & _).
  apply In_results_one in Hd as (c2 & Ed & Hc2). cbn in Hc2. apply N.eqb_eq in Hc2. subst c2.
  apply In_results_rep in He as (tld & Ee & Htld & Hl3 & _).
  cbn [after at_pos] in Ea.
  exists loc, dom, tld. unfold group. rewrite Eg. cbn [assoc_group Nat.eqb].
  assert (E : w = loc ++ AT :: dom ++ ch "." :: tld).
  { apply (app_inv_tail (after se)). rewrite <- Ew, Ea, Eb, Ec, Ed, Ee.
    rewrite <- !app_assoc. cbn [app]. rewrite <- !app_assoc. reflexivity. }
  rewrite E. split; [reflexivity|].
  split; [intros ->; simpl in Hl1; lia|]. split; [exact Hloc|].
  split; [intros ->; simpl in Hl2; lia|]. split; [exact Hdom|].
  split; [exact Hl3|].
  rewrite (forallb_same _ (atom_match no_flags (Cls [rng "A" "Z"; rng "a" "z"])));
    [exact Htld|]. intros c. unfold is_letter, letters. cbn.
  rewrite !orb_false_r. apply orb_comm.
Qed.

(** A pattern that is one group has that group hold the whole match. *)
Lemma whole_group (f : flags) (n : nat) (r : regex) (l rr : str) (m : mstate) :
  match_at f (Group (S n) r) l rr = Some m -> group m (S n) = group m 0.
Proof.
  intros H. apply match_at_inv in H as (s1 & w & H & Ew & _ & Eg).
  apply In_results_group_value in H as (s2 & w' & _ & Ea & Ea' & _ & Eg').
  cbn [after at_pos] in Ea. unfold group. rewrite Eg, Eg'.
  cbn [assoc_group Nat.eqb]. rewrite Nat.eqb_refl. f_equal.
  apply (app_inv_tail (after s1)). rewrite <- Ew, Ea'. symmetry. exact Ea.
Qed.

Lemma search_whole_group (f : flags) (n : nat) (r : regex) (text : str) (m : mstate) :
  search f (Group (S n) r) text = Some m -> group m (S n) = group m 0.
Proof.
  intros H. apply search_where in H as (a & b & _ & H). now apply whole_group in H.
Qed.

Lemma search_group_in_str (f : flags) (r : regex) (text : str) (m : mstate) (v : str) :
  search f r text = Some m -> group m 0 = Some v -> in_str v text = true.
Proof.
  intros H Hv. apply search_span in H as (a & w & Hw & ->).
  assert (v = w) by congruence. subst w. apply in_str_intro.
Qed.

Lemma lits_match_firstn (f : flags) (p s : str) :
  lits_match f p s = true ->
  lits_match f p (firstn (List.length p) s) = true
  /\ List.length (firstn (List.length p) s) = List.length p.
Proof.
  revert s. induction p as [|x p IH]; intros s H; [split; reflexivity|].
  destruct s as [|c s]; [discriminate|]. cbn [lits_match] in H.
  apply andb_prop in H as [Hc Hp]. destruct (IH _ Hp) as [H1 H2].
  cbn [List.length firstn lits_match]. rewrite Hc, H1, H2. split; reflexivity.
Qed.

(** What a link pattern matches. *)
Lemma link_shape (label l rr : str) (m : mstate) :
  match_at re_I (Group 1 (Seq (escape label) (plus handle))) l rr = Some m ->
  exists v, group m 1 = Some v /\ link_value label v.
Proof.
  intros H. pose proof (whole_group _ _ _ _ _ _ H) as Hg.
  apply match_at_inv in H as (s1 & w & H & Ew & _ & Eg).
  apply In_results_group in H as (s2 & H & Ea).
  apply In_results_seq in H as (sa & Ha & Hb).
  rewrite results_escape in Ha. cbn [after at_pos] in Ha.
  destruct (lits_match re_I label rr) eqn:El; [|contradiction].
  destruct Ha as [<-|[]].
  apply In_results_rep in Hb as (h & Eh & Hh & Hl & _).
  rewrite after_advance_state in Eh. cbn [after at_pos] in Eh.
  destruct (lits_match_firstn _ _ _ El) as [H1 H2].
  exists w. split; [rewrite Hg; unfold group; rewrite Eg; reflexivity|].
  exists (firstn (List.length label) rr), h.
  split; [|split; [exact H2|split; [exact H1|split; [intros ->; simpl in Hl; lia|exact Hh]]]].
  apply (app_inv_tail (after s1)). rewrite <- Ew, Ea, <- app_assoc, <- Eh.
  symmetry. apply firstn_skipn.
Qed.

(** X9. Every value of the mapping is a piece of the text. A phone value is
    ten decimal digits, the first of them from 6 to 9, after nothing or after
    +91 and at most one hyphen or blank. An email value is a local part, an at
    sign, a domain, a dot and at least two letters, with no character outside
    the classes of the pattern. A linkedin or github value is its label in any
    letter case and at least one more character of the handle class. *)
Theorem extract_contacts_values :
  forall (text : str) (out : list (string * str)) (c : float),
    extract_contacts text = Some (out, c) ->
    (forall key v, In (key, v) out -> in_str v text = true)
    /\ (forall v, In ("phone"%string, v) out ->
          exists w0 d ds,
            v = w0 ++ d :: ds
            /\ (w0 = [] \/ exists sep, w0 = lit "+91" ++ sep /\ List.length sep <= 1
                                       /\ forallb (fun c => mem_char c (lit "- ")) sep = true)
            /\ six_to_nine d = true
            /\ List.length ds = 9
            /\ forallb isdecimal ds = true)
    /\ (forall v, In ("email"%string, v) out ->
          exists loc dom tld,
            v = loc ++ AT :: dom ++ ch "." :: tld
            /\ loc <> [] /\ forallb local_char loc = true
            /\ dom <> [] /\ forallb domain_char dom = true
            /\ 2 <= List.length tld /\ forallb is_letter tld = true)
    /\ (forall v, In ("linkedin"%string, v) out -> link_value (lit "linkedin.com/in/") v)
    /\ (forall v, In ("github"%string, v) out -> link_value (lit "github.com/") v).
Proof.
  intros text out c H.
  apply extract_contacts_out in H as (e1 & e2 & e3 & e4 & -> & H1 & H2 & H3 & H4).
  assert (K : forall key v, In (key, v) (e1 ++ e2 ++ e3 ++ e4) ->
            (key = "phone"%string /\ exists m, search no_flags phone_re text = Some m
                                               /\ group m 0 = Some v)
            \/ (key = "email"%string /\ exists m, search no_flags email_re text = Some m
                                                  /\ group m 0 = Some v)
            \/ (key = "linkedin"%string /\ exists m, search re_I linkedin_re text = Some m
                                                     /\ group m 1 = Some v)
            \/ (key = "github"%string /\ exists m, search re_I github_re text = Some m
                                                   /\ group m 1 = Some v)).
  { intros key v Hin. rewrite !in_app_iff in Hin.
    destruct Hin as [Hin|[Hin|[Hin|Hin]]].
    - destruct (search no_flags phone_re text) as [m|] eqn:E;
        [destruct H1 as (v' & Hv & ->) | rewrite H1 in Hin; contradiction].
      destruct Hin as [[= <- <-]|[]]. left. eauto.
    - destruct (search no_flags email_re text) as [m|] eqn:E;
        [destruct H2 as (v' & Hv & ->) | rewrite H2 in Hin; contradiction].
      destruct Hin as [[= <- <-]|[]]. right. left. eauto.
    - destruct (search re_I linkedin_re text) as [m|] eqn:E;
        [destruct H3 as (v' & Hv & ->) | rewrite H3 in Hin; contradiction].
      destruct Hin as [[= <- <-]|[]]. right. right. left. eauto.
    - destruct (search re_I github_re text) as [m|] eqn:E;
        [destruct H4 as (v' & Hv & ->) | rewrite H4 in Hin; contradiction].
      destruct Hin as [[= <- <-]|[]]. right. right. right. eauto. }
  split; [|split; [|split; [|split]]].
  - intros key v Hin.
    destruct (K key v Hin)
      as [(_ & m & Hs & Hv)|[(_ & m & Hs & Hv)|[(_ & m & Hs & Hv)|(_ & m & Hs & Hv)]]].
    + eapply search_group_in_str; eassumption.
    + eapply search_group_in_str; eassumption.
    + unfold linkedin_re in Hs. rewrite (search_whole_group _ _ _ _ _ Hs) in Hv.
      eapply search_group_in_str; eassumption.
    + unfold github_re in Hs. rewrite (search_whole_group _ _ _ _ _ Hs) in Hv.
      eapply search_group_in_str; eassumption.
  - intros v Hin.
    destruct (K _ v Hin) as [(_ & m & Hs & Hv)|[(E & _)|[(E & _)|(E & _)]]];
      try discriminate E.
    apply search_where in Hs as (a & b & _ & Hm).
    apply phone_shape in Hm as (w0 & d & ds & Hg & Hrest).
    exists w0, d, ds. split; [congruence | exact Hrest].
  - intros v Hin.
    destruct (K _ v Hin) as [(E & _)|[(_ & m & Hs & Hv)|[(E & _)|(E & _)]]];
      try discriminate E.
    apply search_where in Hs as (a & b & _ & Hm).
    apply email_full_shape in Hm as (loc & dom & tld & Hg & Hrest).
    exists loc, dom, tld. split; [congruence | exact Hrest].
  - intros v Hin.
    destruct (K _ v Hin) as [(E & _)|[(E & _)|[(_ & m & Hs & Hv)|(E & _)]]];
      try discriminate E.
    apply search_where in Hs as (a & b & _ & Hm).
    apply link_shape in Hm as (v' & Hg & Hrest). congruence.
  - intros v Hin.
    destruct (K _ v Hin) as [(E & _)|[(E & _)|[(E & _)|(_ & m & Hs & Hv)]]];
      try discriminate E.
    apply search_where in Hs as (a & b & _ & Hm).
    apply link_shape in Hm as (v' & Hg & Hrest). congruence.
Qed.

(** ** The value of the CGPA *)

Lemma number_consumed (s s1 : mstate) (w : str) :
  In s1 (results re_I
           (seqs [plus Digit; One (Lit (ch ".")); Rep Digit 1 (Some 2) true]) s) ->
  after s = w ++ after s1 ->
  decimal_number w.
Proof.
  intros H Ew. unfold seqs in H. cbn [fold_right] in H.
  apply In_results_seq in H as (sa & Ha & H).
  apply In_results_seq in H as (sb & Hb & H).
  apply In_results_seq in H as (sc & Hc & H).
  apply In_results_eps in H. subst s1.
  apply In_results_rep in Ha as (a & Ea & Ha & Hla & _).
  apply In_results_one in Hb as (d & Eb & Hd).
  apply In_results_rep in Hc as (b & Ec & Hb & Hlb & Hhb & _).
  exists a, d, b.
  assert (E : w = a ++ d :: b).
  { apply (app_inv_tail (after sc)). rewrite <- Ew, Ea, Eb, Ec, <- app_assoc. reflexivity. }
  split; [exact E|]. split; [intros ->; simpl in Hla; lia|].
  split; [exact Ha|]. split; [exact Hd|]. split; [lia | exact Hb].
Qed.

Lemma cgpa_patterns_hold : Forall (groups_hold re_I 1 decimal_number) cgpa_patterns.
Proof.
  unfold cgpa_patterns.
  repeat (apply Forall_cons; [|]); [..|apply Forall_nil];
    cbn [groups_hold cgpa_re gpa_re slash_ten_re out_of_ten_re number seqs fold_right
         escape lit map list_ascii_of_string star];
    repeat match goal with
           | |- _ /\ _ => split
           end; try exact I; intros _ s s1 w; apply number_consumed.
Qed.

Lemma cgpa_loop_inv (ps : list regex) (text v : str) (c : float) :
  cgpa_loop ps text = Some (v, c) ->
  (c = f_0_0 /\ v = [] /\ Forall (fun p => search re_I p text = None) ps)
  \/ (c = f_0_99
      /\ exists earlier p later m,
          ps = earlier ++ p :: later
          /\ Forall (fun q => search re_I q text = None) earlier
          /\ search re_I p text = Some m /\ group m 1 = Some v).
Proof.
  induction ps as [|p ps IH]; cbn [cgpa_loop].
  - intros [= <- <-]. left. repeat split. constructor.
  - destruct (search re_I p text) as [m|] eqn:E.
    + destruct (group m 1) as [g|] eqn:Eg; [|discriminate]. intros [= <- <-].
      right. split; [reflexivity|]. exists [], p, ps, m.
      split; [reflexivity|]. split; [constructor | auto].
    + intros H.
      destruct (IH H) as [(-> & -> & Hn)|(-> & e & p' & l & m & -> & He & Hs & Hg)].
      * left. repeat split. now constructor.
      * right. split; [reflexivity|]. exists (p :: e), p', l, m.
        split; [reflexivity|]. split; [now constructor | auto].
Qed.

Lemma cgpa_loop_none (ps : list regex) (text : str) :
  Forall (fun p => search re_I p text = None) ps -> cgpa_loop ps text = Some ([], f_0_0).
Proof.
  induction 1 as [|p ps Hp _ IH]; cbn [cgpa_loop]; [reflexivity|]. now rewrite Hp.
Qed.

Lemma ascii_dot (d : char) :
  atom_match re_I (Lit (ch ".")) d = true -> is_ascii d = true -> d = ch ".".
Proof.
  unfold atom_match. cbn [f_i re_I]. unfold variants. intros H Ha. rewrite Ha in H.
  cbn [existsb] in H. change (ch ".") with 46%N in *.
  assert (Hl : ascii_lower d = 46%N -> d = 46%N).
  { unfold ascii_lower. destruct (ascii_isupper d) eqn:E; [|auto].
    unfold ascii_isupper in E. apply andb_prop in E as [E1 E2].
    apply N.leb_le in E1, E2. lia. }
  assert (Hu : ascii_upper d = 46%N -> d = 46%N).
  { unfold ascii_upper. destruct (ascii_islower d) eqn:E; [|auto].
    unfold ascii_islower in E. apply andb_prop in E as [E1 E2].
    apply N.leb_le in E1, E2. lia. }
  repeat match goal with
         | H : (_ || _)%bool = true |- _ => apply orb_prop in H as [H|H]
         end;
    try discriminate; apply N.eqb_eq in H; auto.
Qed.

Lemma in_str_existsb (q : char -> bool) (v text : str) :
  in_str v text = true -> existsb q v = true -> existsb q text = true.
Proof.
  intros H Hv. apply in_str_split in H as (a & b & ->).
  rewrite !existsb_app, Hv. now rewrite orb_true_r.
Qed.

(** X10. The CGPA is either the empty string with confidence 0.0, when none of
    the four patterns matches, or with confidence 0.99 the first group of the
    leftmost match of the first pattern, in the order of the list, that
    matches at all, no earlier pattern matching anywhere; that group is a
    piece of the text made of decimal digits, a dot, and one or two decimal
    digits. The empty result is returned exactly when none of the four
    patterns matches. A text without a decimal digit has no CGPA. *)
Theorem extract_cgpa_value :
  (forall (text v : str) (c : float),
     extract_cgpa text = Some (v, c) ->
     (c = f_0_0 /\ v = [] /\ Forall (fun p => search re_I p text = None) cgpa_patterns)
     \/ (c = f_0_99 /\ in_str v text = true /\ decimal_number v
         /\ exists earlier p later m,
             cgpa_patterns = earlier ++ p :: later
             /\ Forall (fun q => search re_I q text = None) earlier
             /\ search re_I p text = Some m /\ group m 1 = Some v))
  /\ (forall d : char,
        atom_match re_I (Lit (ch ".")) d = true -> is_ascii d = true -> d = ch ".")
  /\ (forall text : str,
        existsb isdecimal text = false -> extract_cgpa text = Some ([], f_0_0))
  /\ (forall text : str,
        extract_cgpa text = Some ([], f_0_0)
        <-> Forall (fun p => search re_I p text = None) cgpa_patterns)
  /\ (forall (text v : str) (c : float),
        extract_cgpa text = Some (v, c) ->
        (v = [] <-> c = f_0_0) /\ (v <> [] <-> c = f_0_99)).
Proof.
  assert (H1 : forall (text v : str) (c : float),
             extract_cgpa text = Some (v, c) ->
             (c = f_0_0 /\ v = []
              /\ Forall (fun p => search re_I p text = None) cgpa_patterns)
             \/ (c = f_0_99 /\ in_str v text = true /\ decimal_number v
                 /\ exists earlier p later m,
                     cgpa_patterns = earlier ++ p :: later
                     /\ Forall (fun q => search re_I q text = None) earlier
                     /\ search re_I p text = Some m /\ group m 1 = Some v)).
  { intros text v c H.
    apply cgpa_loop_inv in H as [H|(-> & e & p & l & m & Ep & He & Hs & Hg)];
      [now left|]. right. split; [reflexivity|].
    pose proof cgpa_patterns_hold as Hh. rewrite Forall_forall in Hh.
    assert (Hin : In p cgpa_patterns) by (rewrite Ep; apply in_elt).
    destruct (search_capture re_I 0 decimal_number p text m v (Hh p Hin) Hs Hg)
      as [Hv Hd].
    split; [exact Hv|]. split; [exact Hd|]. exists e, p, l, m. auto. }
  assert (H2 : forall v : str, decimal_number v -> v <> []).
  { intros v (a & d & b & -> & _) E. now destruct a. }
  split; [exact H1|]. split; [exact ascii_dot|]. split; [|split].
  - intros text Hd. destruct (extract_cgpa_total text) as ([v c] & E).
    destruct (H1 _ _ _ E)
      as [(-> & -> & _)|(_ & Hin & (a & d & b & -> & Ha & Hda & _) & _)];
      [exact E|].
    exfalso. rewrite (in_str_existsb isdecimal _ _ Hin) in Hd; [discriminate|].
    destruct a as [|x a]; [contradiction|]. simpl in Hda.
    apply andb_prop in Hda as [Hx _]. simpl. now rewrite Hx.
  - intros text. split; [|apply cgpa_loop_none].
    intros E. destruct (H1 _ _ _ E) as [(_ & _ & H)|(Hc & _)]; [exact H | discriminate].
  - intros text v c E.
    destruct (H1 _ _ _ E) as [(-> & -> & _)|(-> & _ & Hd & _)].
    + split; split; auto; [intros H; now elim H | discriminate].
    + apply H2 in Hd. split; split; auto; [contradiction | discriminate].
Qed.

(** ** The outcomes of the name extractor *)

Lemma letters_consumed (s s1 : mstate) (w : str) :
  In s1 (results no_flags (plus letters) s) -> after s = w ++ after s1 -> letter_run w.
Proof.
  intros H Ew. apply In_results_rep in H as (w' & Ea & Hw & Hl & _).
  assert (w' = w) by (apply (app_inv_tail (after s1)); congruence). subst w'.
  split; [intros ->; simpl in Hl; lia|].
  rewrite (forallb_same _ is_letter); [exact Hw|].
  intros c. symmetry. apply is_letter_ascii.
Qed.

Lemma name_email_holds (n : nat) : groups_hold no_flags n letter_run name_email_re.
Proof.
  cbn [groups_hold name_email_re seqs fold_right maybe].
  repeat match goal with
         | |- _ /\ _ => split
         end; try exact I; intros _ s s1 w; apply letters_consumed.
Qed.

Lemma alpha_ascii (c : char) : ascii_isalpha c = true -> is_ascii c = true.
Proof.
  unfold ascii_isalpha, ascii_isupper, ascii_islower, is_ascii. intros H.
  apply N.ltb_lt.
  apply orb_prop in H as [H|H]; apply andb_prop in H as [H1 H2];
    apply N.leb_le in H1, H2; lia.
Qed.

Lemma alpha_not_space (c : char) : ascii_isalpha c = true -> isspace c = false.
Proof.
  unfold ascii_isalpha, ascii_isupper, ascii_islower. intros H.
  assert (Hc : (65 <= c <= 122)%N).
  { apply orb_prop in H as [H|H]; apply andb_prop in H as [H1 H2];
      apply N.leb_le in H1, H2; lia. }
  unfold isspace.
  repeat match goal with
         | |- context [(?a <=? ?b)%N] => destruct (N.leb_spec a b); try lia
         | |- context [(?a =? ?b)%N] => destruct (N.eqb_spec a b); try lia
         end; reflexivity.
Qed.

Lemma upper_bounds (c : char) : ascii_isupper c = true -> (65 <= c <= 90)%N.
Proof.
  unfold ascii_isupper. intros H. apply andb_prop in H as [H1 H2].
  apply N.leb_le in H1, H2. lia.
Qed.

Lemma lower_bounds (c : char) : ascii_islower c = true -> (97 <= c <= 122)%N.
Proof.
  unfold ascii_islower. intros H. apply andb_prop in H as [H1 H2].
  apply N.leb_le in H1, H2. lia.
Qed.

Lemma alpha_lower_upper (c : char) :
  ascii_isalpha c = true ->
  ascii_isalpha (ascii_lower c) = true /\ ascii_isalpha (ascii_upper c) = true.
Proof.
  unfold ascii_isalpha, ascii_lower, ascii_upper. intros H.
  destruct (ascii_isupper c) eqn:Eu; destruct (ascii_islower c) eqn:El;
    try discriminate; cbv iota.
  - apply upper_bounds in Eu. apply lower_bounds in El. lia.
  - split; [|now rewrite Eu]. apply upper_bounds in Eu.
    apply orb_true_iff. right. unfold ascii_islower.
    apply andb_true_intro. split; apply N.leb_le; lia.
  - split; [apply orb_true_r|]. apply lower_bounds in El.
    apply orb_true_iff. left. unfold ascii_isupper.
    apply andb_true_intro. split; apply N.leb_le; lia.
Qed.

(** Title-casing a run of ASCII letters gives a run of ASCII letters. *)
Lemma title_from_letters (w : str) :
  forall before prev, forallb ascii_isalpha w = true ->
    forallb ascii_isalpha (title_from before prev w) = true
    /\ List.length (title_from before prev w) = List.length w.
Proof.
  induction w as [|c w IH]; intros before prev H; [split; reflexivity|].
  simpl in H. apply andb_prop in H as [Hc Hw].
  cbn [title_from]. unfold lower_char, title_char. rewrite (alpha_ascii c Hc).
  destruct (alpha_lower_upper c Hc) as [Hl Hu].
  destruct (IH (c :: before) (iscased c) Hw) as [IH1 IH2].
  destruct prev; cbn [app forallb List.length]; rewrite IH1, IH2;
    [rewrite Hl | rewrite Hu]; split; reflexivity.
Qed.

Lemma title_letter_run (w : str) : letter_run w -> letter_run (title w).
Proof.
  intros [Hne Hw]. destruct (title_from_letters w [] false Hw) as [H1 H2].
  split; [|exact H1]. unfold title. intros E. rewrite E in H2.
  destruct w; [contradiction | discriminate].
Qed.

Lemma letter_run_ends (w : str) :
  letter_run w -> starts_with isspace w = false /\ ends_with isspace w = false.
Proof.
  intros [Hne Hw]. split.
  - destruct w as [|c w]; [reflexivity|]. simpl in *.
    apply andb_prop in Hw as [Hc _]. now apply alpha_not_space.
  - unfold ends_with. destruct (rev w) as [|c z] eqn:E; [reflexivity|]. simpl.
    apply alpha_not_space. rewrite forallb_forall in Hw. apply Hw.
    apply in_rev. rewrite E. now left.
Qed.

Lemma strip_run_blank (w : str) : letter_run w -> strip (w ++ lit " ") = w.
Proof.
  intros Hw. destruct (letter_run_ends w Hw) as [Hs He].
  unfold strip, strip_by. rewrite lstrip_by_fixed.
  - unfold rstrip_by. rewrite rev_app_distr. simpl.
    rewrite lstrip_by_fixed; [apply rev_involutive|]. now apply starts_with_false.
  - destruct Hw as [Hne _]. destruct w as [|c w]; [contradiction|].
    simpl in *. exact Hs.
Qed.

Lemma strip_two_runs (w1 w2 : str) :
  letter_run w1 -> letter_run w2 -> strip (w1 ++ lit " " ++ w2) = w1 ++ lit " " ++ w2.
Proof.
  intros H1 H2. destruct (letter_run_ends w1 H1) as [Hs _].
  destruct (letter_run_ends w2 H2) as [_ He].
  apply strip_by_fixed.
  - destruct H1 as [Hne _]. destruct w1 as [|c w]; [contradiction | exact Hs].
  - unfold ends_with in *. rewrite !rev_app_distr.
    destruct H2 as [Hne _]. destruct (rev w2) as [|c z] eqn:E; [|exact He].
    apply (f_equal (@rev char)) in E. rewrite rev_involutive in E. contradiction.
Qed.

(** A name taken from a line. *)
Lemma name_candidate_shape (text r : str) (c : float) :
  name_candidate text = Some (r, c) ->
  r <> [] /\ strip r = r /\ 2 <= List.length (split r) <= 5
  /\ (c = f_0_99 \/ c = f_0_97).
Proof.
  unfold name_candidate. intros H.
  apply first_some_In in H as (line & _ & H). unfold name_of_line in H.
  destruct (_ || _); [discriminate|]. destruct (existsb _ _); [discriminate|].
  apply first_some_In in H as (name & Hin & H).
  apply filter_In in Hin as [Hin Hne]. apply in_map_iff in Hin as (x & <- & _).
  pose proof (name_of_candidate_conf _ _ _ _ H) as [-> Hc].
  split; [intros E; rewrite E in Hne; discriminate|].
  split; [apply strip_by_idem|]. split; [|exact Hc].
  unfold name_of_candidate in H.
  destruct (Nat.ltb_spec (List.length (split (strip x))) 2);
    [discriminate|].
  destruct (Nat.ltb_spec 5 (List.length (split (strip x)))); [discriminate|]. lia.
Qed.

(** The name is never empty and never has whitespace at either end. *)
Lemma extract_name_trimmed (text r : str) (c : float) :
  extract_name text = Some (r, c) -> r <> [] /\ strip r = r.
Proof.
  intros H. unfold extract_name in H.
  destruct (name_candidate text) as [[r' c']|] eqn:En.
  - injection H as -> ->. destruct (name_candidate_shape _ _ _ En) as (Hne & Hs & _). auto.
  - destruct (search no_flags name_email_re text) as [m|] eqn:Es.
    + destruct (group m 1) as [g1|] eqn:E1; [|discriminate]. cbn [bind] in H.
      destruct (search_capture _ 0 _ _ _ _ _ (name_email_holds 1) Es E1) as [_ Hg1].
      pose proof (title_letter_run g1 Hg1) as Ht1.
      destruct (group m 2) as [g2|] eqn:E2.
      * destruct (search_capture _ 1 _ _ _ _ _ (name_email_holds 2) Es E2) as [_ Hg2].
        pose proof (title_letter_run g2 Hg2) as Ht2.
        assert (Hn : nonempty g2 = true) by (destruct Hg2 as [Hne _]; now destruct g2).
        rewrite Hn in H. rewrite (strip_two_runs _ _ Ht1 Ht2) in H. injection H as <- _.
        split; [destruct Ht1 as [Hne _]; now destruct (title g1)|].
        now apply strip_two_runs.
      * change (title g1 ++ lit " " ++ []) with (title g1 ++ lit " ") in H.
        rewrite (strip_run_blank _ Ht1) in H. injection H as <- _.
        destruct (letter_run_ends _ Ht1) as [Hs He].
        split; [now destruct Ht1 | now apply strip_by_fixed].
    + injection H as <- _. split; [discriminate | reflexivity].
Qed.

(** *** Where the fallback pattern matches *)

Lemma run_length_ge (p : char -> bool) (hi : option nat) (w t : str) :
  forallb p w = true ->
  match hi with Some h => List.length w <= h | None => True end ->
  List.length w <= run_length p hi (w ++ t).
Proof.
  revert hi. induction w as [|c w IH]; intros hi Hw Hh; [simpl; lia|].
  simpl in Hw. apply andb_prop in Hw as [Hc Hw].
  destruct hi as [[|h]|]; simpl in *; try lia; rewrite Hc; apply le_n_S.
  - apply (IH (Some h)); [assumption | lia].
  - apply (IH None); auto.
Qed.

Lemma run_length_exact (p : char -> bool) (w t : str) :
  forallb p w = true -> starts_with p t = false ->
  run_length p None (w ++ t) = List.length w.
Proof.
  intros Hw Ht. induction w as [|c w IH].
  - destruct t as [|x t]; [reflexivity|]. simpl in *. now rewrite Ht.
  - simpl in Hw. apply andb_prop in Hw as [Hc Hw]. simpl. rewrite Hc. f_equal. auto.
Qed.

Lemma run_length_same (p q : char -> bool) (hi : option nat) (s : str) :
  (forall c, p c = q c) -> run_length p hi s = run_length q hi s.
Proof.
  intros H. revert hi. induction s as [|c s IH]; intros hi.
  - now rewrite !run_length_nil.
  - destruct hi as [[|h]|]; simpl; rewrite ?H, ?IH; reflexivity.
Qed.

Lemma run_length_stop (p : char -> bool) (s : str) :
  starts_with p (skipn (run_length p None s) s) = false.
Proof.
  induction s as [|c s IH]; [reflexivity|]. simpl.
  destruct (p c) eqn:E; [exact IH|]. simpl. exact E.
Qed.

Lemma In_results_rep_word (f : flags) (a : atom) (lo : nat) (hi : option nat) (g : bool)
    (s : mstate) (w t : str) :
  after s = w ++ t ->
  forallb (atom_match f a) w = true ->
  lo <= List.length w ->
  match hi with Some h => List.length w <= h | None => True end ->
  In (advance_state s (List.length w)) (results f (Rep a lo hi g) s).
Proof.
  intros Ea Hw Hlo Hhi. apply In_results_rep_intro. rewrite Ea.
  pose proof (run_length_ge _ hi w t Hw Hhi). lia.
Qed.

Lemma In_results_one_intro (f : flags) (a : atom) (s : mstate) (c : char) (t : str) :
  after s = c :: t -> atom_match f a c = true ->
  In (advance_state s 1) (results f (One a) s).
Proof. intros E H. cbn [results]. rewrite E, H. now left. Qed.

Lemma In_results_one_groups (f : flags) (a : atom) (s s' : mstate) :
  In s' (results f (One a) s) -> groups s' = groups s.
Proof.
  cbn [results]. destruct (after s) as [|c rest]; [contradiction|].
  destruct (atom_match f a c); [|contradiction].
  intros [<-|[]]. apply groups_advance_state.
Qed.

Lemma In_results_opt (f : flags) (r : regex) (s s' : mstate) :
  In s' (results f (Opt r) s) <-> In s' (results f r s) \/ s' = s.
Proof.
  cbn [results]. rewrite in_app_iff. cbn [In]. intuition auto.
Qed.

Lemma In_results_group_intro (f : flags) (n : nat) (r : regex) (s s1 : mstate) :
  In s1 (results f r s) -> In (set_group n s s1) (results f (Group n r) s).
Proof. cbn [results]. apply in_map. Qed.

Lemma after_advance_app (s : mstate) (w t : str) :
  after s = w ++ t -> after (advance_state s (List.length w)) = t.
Proof.
  intros E. rewrite after_advance_state, E, skipn_app, skipn_all, Nat.sub_diag.
  reflexivity.
Qed.

Lemma hd_error_map {A B : Type} (g : A -> B) (l : list A) (y : B) :
  hd_error (map g l) = Some y -> exists x, hd_error l = Some x /\ y = g x.
Proof. destruct l as [|x l]; simpl; [discriminate|]. intros [= <-]. eauto. Qed.

Lemma hd_error_flat_map {A B : Type} (g : A -> list B) (x : A) (xs : list A) (y : B) :
  hd_error (flat_map g (x :: xs)) = Some y ->
  In y (g x) \/ (g x = [] /\ exists x', In x' xs /\ In y (g x')).
Proof.
  simpl. destruct (g x) as [|b bs] eqn:E; simpl.
  - intros H. right. split; [reflexivity|].
    apply hd_error_In, in_flat_map in H. exact H.
  - intros [= <-]. left. now left.
Qed.

Lemma search_from_leftmost (f : flags) (r : regex) (rr : str) :
  forall l m, search_from f r l rr = Some m ->
    exists a b,
      rr = a ++ b /\ match_at f r (rev a ++ l) b = Some m
      /\ forall a' b', rr = a' ++ b' -> List.length a' < List.length a ->
           match_at f r (rev a' ++ l) b' = None.
Proof.
  induction rr as [|c rr IH]; intros l m; cbn [search_from].
  - destruct (match_at f r l []) eqn:E; [|discriminate]. intros [= <-].
    exists [], []. split; [reflexivity|]. split; [assumption|].
    intros a' b' _ Hl. simpl in Hl. lia.
  - destruct (match_at f r l (c :: rr)) eqn:E.
    + intros [= <-]. exists [], (c :: rr). split; [reflexivity|]. split; [assumption|].
      intros a' b' _ Hl. simpl in Hl. lia.
    + intros H. destruct (IH _ _ H) as (a & b & -> & Hm & Hleft).
      exists (c :: a), b. split; [reflexivity|]. split.
      * simpl. now rewrite <- app_assoc.
      * intros [|c' a'] b' Ea Hl; simpl in Ea.
        -- subst b'. exact E.
        -- injection Ea as <- Ea. simpl. rewrite <- app_assoc.
           apply Hleft; [assumption | simpl in Hl; lia].
Qed.

Lemma name_sep_cases (sep : str) :
  forallb is_name_sep sep = true /\ List.length sep <= 1
  <-> sep = [] \/ sep = lit "." \/ sep = lit "_".
Proof.
  split.
  - intros [H Hl]. destruct sep as [|c [|d sep]]; [now left | | simpl in Hl; lia].
    right. simpl in H. rewrite andb_true_r in H.
    unfold is_name_sep, atom_match in H. cbn [f_i no_flags existsb item_mem] in H.
    apply orb_prop in H as [H|H]; [|apply orb_prop in H as [H|H]; [|discriminate]];
      apply N.eqb_eq in H; subst c; auto.
  - intros [->|[->| ->]]; split; simpl; try lia; reflexivity.
Qed.

Lemma name_sep_no_letter (c : char) : is_name_sep c = true -> ascii_isalpha c = false.
Proof.
  intros H. destruct (proj1 (name_sep_cases [c])) as [E|[E|E]].
  - split; [simpl; now rewrite H | simpl; lia].
  - discriminate.
  - injection E as ->. reflexivity.
  - injection E as ->. reflexivity.
Qed.

Lemma letters_ascii (w : str) :
  forallb (atom_match no_flags letters) w = forallb ascii_isalpha w.
Proof. apply forallb_same. intros c. apply is_letter_ascii. Qed.

Lemma name_email_split :
  name_email_re = Seq (Group 1 (plus letters)) name_email_tail.
Proof. reflexivity. Qed.

(** What the rest of the pattern consumes, and what it leaves in group 2. *)
Lemma name_email_tail_sound (s s' : mstate) :
  In s' (results no_flags name_email_tail s) ->
  exists sep g2 rest,
    after s = sep ++ g2 ++ AT :: rest /\ after s' = rest
    /\ forallb is_name_sep sep = true /\ List.length sep <= 1
    /\ forallb ascii_isalpha g2 = true
    /\ groups s' = (if nonempty g2 then [(2, g2)] else []) ++ groups s.
Proof.
  unfold name_email_tail, seqs. cbn [fold_right]. intros H.
  apply In_results_seq in H as (s1 & H1 & H).
  apply In_results_seq in H as (s2 & H2 & H).
  apply In_results_seq in H as (s3 & H3 & H).
  apply In_results_eps in H. subst s3.
  apply In_results_rep in H1 as (sep & Ea1 & Hsep & _ & Hl & Eg1).
  pose proof (In_results_one_groups _ _ _ _ H3) as Eg3.
  apply In_results_one in H3 as (c & Ea3 & Hc).
  cbn in Hc. apply N.eqb_eq in Hc. subst c.
  apply In_results_opt in H2 as [H2| ->].
  - apply In_results_group_value in H2 as (s2' & g2 & H2 & Ea2 & Ea2' & _ & Eg2).
    pose proof (letters_consumed _ _ _ H2 Ea2) as [Hne Hg2].
    apply In_results_rep in H2 as (_ & _ & _ & _ & _ & Eg2').
    exists sep, g2, (after s'). rewrite Ea1, Ea2, <- Ea2', Ea3.
    repeat (split; [first [reflexivity | assumption]|]).
    rewrite Eg3, Eg2, Eg2', Eg1. now destruct g2.
  - exists sep, [], (after s'). rewrite Ea1, Ea3.
    repeat (split; [first [reflexivity | assumption]|]).
    rewrite Eg3, Eg1. reflexivity.
Qed.

(** Text of that shape lets the rest of the pattern match. *)
Lemma name_email_tail_complete (s : mstate) (sep g2 rest : str) :
  after s = sep ++ g2 ++ AT :: rest ->
  forallb is_name_sep sep = true -> List.length sep <= 1 ->
  forallb ascii_isalpha g2 = true ->
  results no_flags name_email_tail s <> [].
Proof.
  intros Ea Hsep Hl Hg2.
  assert (H : exists s', In s' (results no_flags name_email_tail s));
    [|destruct H as (s' & H); intros E; now rewrite E in H].
  unfold name_email_tail, seqs. cbn [fold_right].
  set (s1 := advance_state s (List.length sep)).
  assert (H1 : In s1 (results no_flags (maybe (Cls [Chr (ch "."); Chr (ch "_")])) s)).
  { apply (In_results_rep_word _ _ _ _ _ _ sep (g2 ++ AT :: rest)); auto. lia. }
  assert (E1 : after s1 = g2 ++ AT :: rest) by (apply (after_advance_app s sep); exact Ea).
  assert (H2 : exists s2, In s2 (results no_flags (Opt (Group 2 (plus letters))) s1)
                          /\ after s2 = AT :: rest).
  { destruct g2 as [|c g2].
    - exists s1. split; [apply In_results_opt; now right | exact E1].
    - exists (set_group 2 s1 (advance_state s1 (List.length (c :: g2)))). split.
      + apply In_results_opt. left. apply In_results_group_intro.
        apply (In_results_rep_word _ _ _ _ _ _ (c :: g2) (AT :: rest));
          [exact E1 | now rewrite letters_ascii | simpl; lia | exact I].
      + cbn [set_group after]. apply (after_advance_app s1 (c :: g2)). exact E1. }
  destruct H2 as (s2 & H2 & E2).
  exists (advance_state s2 1).
  apply In_results_seq. exists s1. split; [exact H1|].
  apply In_results_seq. exists s2. split; [exact H2|].
  apply In_results_seq. exists (advance_state s2 1). split; [|now left].
  apply (In_results_one_intro _ _ _ AT rest E2). reflexivity.
Qed.

(** If the rest of the pattern matches after some of the leading letters, it
    matches after all of them. *)
Lemma name_email_longest (rr sep g2 rest : str) (k : nat) :
  k <= run_length ascii_isalpha None rr ->
  skipn k rr = sep ++ g2 ++ AT :: rest ->
  forallb is_name_sep sep = true -> List.length sep <= 1 ->
  forallb ascii_isalpha g2 = true ->
  exists sep' g2' rest',
    skipn (run_length ascii_isalpha None rr) rr = sep' ++ g2' ++ AT :: rest'
    /\ forallb is_name_sep sep' = true /\ List.length sep' <= 1
    /\ forallb ascii_isalpha g2' = true.
Proof.
  intros Hk Es Hsep Hl Hg2.
  pose proof (run_length_firstn _ _ _ _ Hk) as Ha.
  pose proof (run_length_le ascii_isalpha None rr) as Hle.
  assert (Hlen : List.length (firstn k rr) = k) by (rewrite length_firstn; lia).
  pose proof (firstn_skipn k rr) as E. rewrite Es in E.
  destruct sep as [|c sep].
  - assert (En : run_length ascii_isalpha None rr = List.length (firstn k rr ++ g2)).
    { rewrite <- E at 1. simpl app. rewrite app_assoc. apply run_length_exact.
      - rewrite forallb_app, Ha, Hg2. reflexivity.
      - reflexivity. }
    exists [], [], rest. rewrite En. rewrite <- E at 2. simpl app.
    rewrite app_assoc, skipn_app, skipn_all, Nat.sub_diag. auto.
  - assert (En : run_length ascii_isalpha None rr = k).
    { rewrite <- E at 1. rewrite <- Hlen at 2. apply run_length_exact; [exact Ha|].
      simpl in Hsep. apply andb_prop in Hsep as [Hc _]. simpl.
      now apply name_sep_no_letter. }
    exists (c :: sep), g2, rest. rewrite En. auto.
Qed.

(** The match of the fallback pattern at a position: group 1 is the whole
    run of letters there. *)
Lemma name_email_match (l rr : str) (m : mstate) :
  match_at no_flags name_email_re l rr = Some m ->
  exists g1 sep g2 rest,
    rr = g1 ++ sep ++ g2 ++ AT :: rest
    /\ letter_run g1
    /\ (sep = [] \/ sep = lit "." \/ sep = lit "_")
    /\ forallb ascii_isalpha g2 = true
    /\ (sep = [] -> g2 = [])
    /\ group m 1 = Some g1
    /\ group m 2 = (if nonempty g2 then Some g2 else None).
Proof.
  unfold match_at. intros H.
  set (s0 := at_pos l rr) in *.
  change (results no_flags (Group 0 name_email_re) s0)
    with (map (set_group 0 s0)
            (flat_map (results no_flags name_email_tail)
               (map (set_group 1 s0) (results no_flags (plus letters) s0)))) in H.
  apply hd_error_map in H as (x & H & ->).
  unfold plus in H. cbn [results] in H. cbv zeta in H.
  change (after s0) with rr in H.
  rewrite (run_length_same (atom_match no_flags letters) ascii_isalpha None rr
             is_letter_ascii) in H.
  set (n := run_length ascii_isalpha None rr) in *.
  destruct (Nat.ltb_spec n 1) as [Hn|Hn]; [discriminate|].
  destruct (counts_greedy_head 1 n Hn) as (restc & Ec). rewrite Ec in H.
  cbn [map] in H.
  assert (Hx : In x (results no_flags name_email_tail
                       (set_group 1 s0 (advance_state s0 n)))).
  { apply hd_error_flat_map in H as [H|(Hnil & x' & Hx' & Hy)]; [exact H|exfalso].
    apply in_map_iff in Hx' as (y & <- & Hy').
    apply in_map_iff in Hy' as (k & <- & Hk').
    assert (Hk : 1 <= k <= n) by (apply (In_counts 1 n k true); rewrite Ec; now right).
    apply name_email_tail_sound in Hy as (sep & g2 & rest & Ea & _ & Hsep & Hl & Hg2 & _).
    cbn [set_group after] in Ea. rewrite after_advance_state in Ea.
    change (after s0) with rr in Ea.
    destruct (name_email_longest rr sep g2 rest k (proj2 Hk) Ea Hsep Hl Hg2)
      as (sep' & g2' & rest' & Ea' & Hsep' & Hl' & Hg2').
    revert Hnil. apply (name_email_tail_complete _ sep' g2' rest'); auto.
    cbn [set_group after]. rewrite after_advance_state. exact Ea'. }
  apply name_email_tail_sound in Hx as (sep & g2 & rest & Ea & _ & Hsep & Hl & Hg2 & Eg).
  cbn [set_group after groups] in Ea, Eg. rewrite after_advance_state in Ea.
  change (after s0) with rr in Ea. rewrite groups_advance_state in Eg.
  change (groups s0) with (@nil (nat * str)) in Eg.
  assert (Eb : between s0 (advance_state s0 n) = firstn n rr).
  { apply between_consumed. now rewrite before_advance_state. }
  rewrite Eb in Eg.
  pose proof (run_length_le ascii_isalpha None rr) as Hle. fold n in Hle.
  assert (Hg1 : letter_run (firstn n rr)).
  { split.
    - intros E. apply (f_equal (@List.length char)) in E.
      rewrite length_firstn in E. simpl in E. lia.
    - apply (run_length_firstn _ None). fold n. lia. }
  assert (Hstop : starts_with ascii_isalpha (skipn n rr) = false)
    by apply run_length_stop.
  exists (firstn n rr), sep, g2, rest.
  split; [rewrite <- Ea; symmetry; apply firstn_skipn|].
  split; [exact Hg1|]. split; [now apply name_sep_cases|]. split; [exact Hg2|].
  split.
  - intros ->. destruct g2 as [|c g2]; [reflexivity|].
    simpl in Ea. rewrite Ea in Hstop. simpl in Hstop, Hg2. rewrite Hstop in Hg2.
    discriminate.
  - unfold group. cbn [set_group groups]. rewrite Eg.
    destruct g2; split; reflexivity.
Qed.

(** Text of the shape the pattern describes has a match where it starts. *)
Lemma name_email_complete (l g1 sep g2 rest : str) :
  letter_run g1 ->
  sep = [] \/ sep = lit "." \/ sep = lit "_" ->
  forallb ascii_isalpha g2 = true ->
  exists m, match_at no_flags name_email_re l (g1 ++ sep ++ g2 ++ AT :: rest) = Some m.
Proof.
  intros [Hne Hg1] Hsep Hg2. apply name_sep_cases in Hsep as [Hsep Hl].
  set (s0 := at_pos l (g1 ++ sep ++ g2 ++ AT :: rest)).
  set (s1 := set_group 1 s0 (advance_state s0 (List.length g1))).
  assert (E1 : after s1 = sep ++ g2 ++ AT :: rest).
  { cbn [s1 set_group after]. now apply (after_advance_app s0 g1). }
  pose proof (name_email_tail_complete s1 sep g2 rest E1 Hsep Hl Hg2) as Hne'.
  destruct (results no_flags name_email_tail s1) as [|x xs] eqn:Ex; [contradiction|].
  apply (match_at_some _ _ _ _ x). rewrite name_email_split.
  apply In_results_seq. exists s1. split; [|rewrite Ex; now left].
  apply In_results_group_intro.
  apply (In_results_rep_word _ _ _ _ _ _ g1 (sep ++ g2 ++ AT :: rest));
    [reflexivity | now rewrite letters_ascii | | exact I].
  destruct g1; [contradiction | simpl; lia].
Qed.

(** X11. The four outcomes of [extract_name]. A name from a line (confidence
    0.99 or 0.97) is trimmed and has two to five words. Otherwise the text is
    searched for a run of letters, at most one dot or underscore, a second
    run of letters that may be missing, and an at sign: the fallback name
    (0.85) comes from the leftmost place where such an address part starts,
    the first run being the whole run of letters there; it is that run in
    title case, followed by a blank and the second run in title case if
    there is one. The name is Unknown with confidence 0.1 when no line yields
    a name and the text holds no such address part, and confidence 0.1 is
    returned exactly then. The name is never empty and never has whitespace
    at either end. *)
Theorem extract_name_outcome :
  forall (text r : str) (c : float),
    extract_name text = Some (r, c) ->
    r <> [] /\ strip r = r
    /\ (((c = f_0_99 \/ c = f_0_97)
         /\ name_candidate text = Some (r, c)
         /\ 2 <= List.length (split r) <= 5)
        \/ (c = f_0_85
            /\ name_candidate text = None
            /\ exists pre g1 sep g2 rest m,
                 address_at text pre g1 sep g2 rest
                 /\ (sep = [] -> g2 = [])
                 /\ (forall pre' g1' sep' g2' rest',
                       address_at text pre' g1' sep' g2' rest' ->
                       List.length pre <= List.length pre')
                 /\ search no_flags name_email_re text = Some m
                 /\ group m 1 = Some g1
                 /\ group m 2 = (if nonempty g2 then Some g2 else None)
                 /\ r = (if nonempty g2 then title g1 ++ lit " " ++ title g2
                         else title g1))
        \/ (c = f_0_1
            /\ r = lit "Unknown"
            /\ name_candidate text = None
            /\ search no_flags name_email_re text = None
            /\ forall pre g1 sep g2 rest, ~ address_at text pre g1 sep g2 rest))
    /\ (c = f_0_1
        <-> name_candidate text = None
            /\ forall pre g1 sep g2 rest, ~ address_at text pre g1 sep g2 rest).
Proof.
  intros text r c H.
  assert (Hmain :
    r <> [] /\ strip r = r
    /\ (((c = f_0_99 \/ c = f_0_97)
         /\ name_candidate text = Some (r, c)
         /\ 2 <= List.length (split r) <= 5)
        \/ (c = f_0_85
            /\ name_candidate text = None
            /\ exists pre g1 sep g2 rest m,
                 address_at text pre g1 sep g2 rest
                 /\ (sep = [] -> g2 = [])
                 /\ (forall pre' g1' sep' g2' rest',
                       address_at text pre' g1' sep' g2' rest' ->
                       List.length pre <= List.length pre')
                 /\ search no_flags name_email_re text = Some m
                 /\ group m 1 = Some g1
                 /\ group m 2 = (if nonempty g2 then Some g2 else None)
                 /\ r = (if nonempty g2 then title g1 ++ lit " " ++ title g2
                         else title g1))
        \/ (c = f_0_1
            /\ r = lit "Unknown"
            /\ name_candidate text = None
            /\ search no_flags name_email_re text = None
            /\ forall pre g1 sep g2 rest, ~ address_at text pre g1 sep g2 rest))).
  { unfold extract_name in H.
    destruct (name_candidate text) as [[r' c']|] eqn:En.
    - injection H as -> ->.
      destruct (name_candidate_shape _ _ _ En) as (Hne & Hs & Hl & Hc).
      split; [exact Hne|]. split; [exact Hs|]. left. auto.
    - destruct (search no_flags name_email_re text) as [m|] eqn:Es.
      + pose proof Es as Hw. apply search_from_leftmost in Hw as (a & b & Et & Hm & Hleft).
        destruct (name_email_match _ _ _ Hm)
          as (g1 & sep & g2 & rest & Eb & Hg1 & Hsep & Hg2 & Hmax & E1 & E2).
        rewrite E1, E2 in H. cbn [bind] in H.
        pose proof (title_letter_run g1 Hg1) as Ht1.
        assert (Haddr : address_at text a g1 sep g2 rest)
          by (unfold address_at; rewrite Et, Eb; auto).
        assert (Hfirst : forall pre' g1' sep' g2' rest',
                   address_at text pre' g1' sep' g2' rest' ->
                   List.length a <= List.length pre').
        { intros pre' g1' sep' g2' rest' (Et' & Hg1' & Hsep' & Hg2').
          destruct (Nat.le_gt_cases (List.length a) (List.length pre')) as [Hle|Hgt];
            [exact Hle|exfalso].
          destruct (name_email_complete (rev pre' ++ []) g1' sep' g2' rest'
                      Hg1' Hsep' Hg2') as (m' & Hm').
          rewrite (Hleft pre' _ Et' Hgt) in Hm'. discriminate. }
        destruct g2 as [|x g2]; cbn [nonempty] in H |- *.
        * change (title g1 ++ lit " " ++ []) with (title g1 ++ lit " ") in H.
          rewrite (strip_run_blank _ Ht1) in H. injection H as <- <-.
          destruct (letter_run_ends _ Ht1) as [Hs He].
          split; [now destruct Ht1|]. split; [now apply strip_by_fixed|].
          right. left. split; [reflexivity|]. split; [reflexivity|].
          exists a, g1, sep, [], rest, m. cbn [nonempty]. auto 10.
        * assert (Hr2 : letter_run (x :: g2)) by (split; [discriminate | exact Hg2]).
          pose proof (title_letter_run _ Hr2) as Ht2.
          rewrite (strip_two_runs _ _ Ht1 Ht2) in H. injection H as <- <-.
          split; [destruct Ht1 as [Hne _]; now destruct (title g1)|].
          split; [now apply strip_two_runs|].
          right. left. split; [reflexivity|]. split; [reflexivity|].
          exists a, g1, sep, (x :: g2), rest, m. cbn [nonempty]. auto 10.
      + injection H as <- <-. split; [discriminate|]. split; [vm_compute; reflexivity|].
        right. right. repeat (split; [reflexivity|]).
        intros pre g1 sep g2 rest (Et & Hg1 & Hsep & Hg2).
        destruct (name_email_complete (rev pre ++ []) g1 sep g2 rest Hg1 Hsep Hg2)
          as (m & Hm).
        apply search_from_some in Hm as (m' & Hm'). unfold search in Es.
        rewrite Et, Hm' in Es. discriminate. }
  destruct Hmain as (Hne & Hs & Hcases).
  split; [exact Hne|]. split; [exact Hs|]. split; [exact Hcases|].
  destruct Hcases as [([-> | ->] & Hn & _)
                     |[(-> & Hn & pre & g1 & sep & g2 & rest & m & Ha & _)
                      |(-> & _ & Hn & _ & Hno)]].
  - split; [discriminate|]. intros [Hn' _]. rewrite Hn in Hn'. discriminate.
  - split; [discriminate|]. intros [Hn' _]. rewrite Hn in Hn'. discriminate.
  - split; [discriminate|]. intros [_ Hno]. exfalso. exact (Hno _ _ _ _ _ Ha).
  - split; auto.
Qed.

(** ** The list of skills *)

Lemma str_leb_refl (a : str) : str_leb a a = true.
Proof.
  induction a as [|x a IH]; [reflexivity|]. simpl.
  now rewrite N.eqb_refl, IH, orb_true_r.
Qed.

Lemma str_leb_total (a b : str) : str_leb a b = false -> str_leb b a = true.
Proof.
  revert b. induction a as [|x a IH]; intros [|y b]; simpl; try discriminate; auto.
  intros H. apply orb_false_elim in H as [H1 H2]. apply N.ltb_ge in H1.
  destruct (N.eqb_spec x y) as [->|Hne].
  - simpl in H2. rewrite N.eqb_refl, (IH _ H2). apply orb_true_r.
  - assert (Hlt : (y <? x)%N = true) by (apply N.ltb_lt; lia). now rewrite Hlt.
Qed.

Lemma str_leb_trans (a b c : str) :
  str_leb a b = true -> str_leb b c = true -> str_leb a c = true.
Proof.
  revert b c. induction a as [|x a IH]; intros [|y b] [|z c]; simpl; try discriminate; auto.
  intros H1 H2.
  apply orb_prop in H1 as [H1|H1]; apply orb_prop in H2 as [H2|H2].
  - apply N.ltb_lt in H1, H2. assert (E : (x <? z)%N = true) by (apply N.ltb_lt; lia).
    now rewrite E.
  - apply andb_prop in H2 as [H2 _]. apply N.eqb_eq in H2. subst z. now rewrite H1.
  - apply andb_prop in H1 as [H1 _]. apply N.eqb_eq in H1. subst y. now rewrite H2.
  - apply andb_prop in H1 as [H1 H1']. apply andb_prop in H2 as [H2 H2'].
    apply N.eqb_eq in H1, H2. subst y z. rewrite N.eqb_refl, (IH _ _ H1' H2').
    apply orb_true_r.
Qed.

Lemma str_leb_antisym (a b : str) :
  str_leb a b = true -> str_leb b a = true -> a = b.
Proof.
  revert b. induction a as [|x a IH]; intros [|y b]; simpl; try discriminate; auto.
  intros H1 H2.
  apply orb_prop in H1 as [H1|H1]; apply orb_prop in H2 as [H2|H2].
  - apply N.ltb_lt in H1, H2. lia.
  - apply andb_prop in H2 as [H2 _]. apply N.eqb_eq in H2. apply N.ltb_lt in H1. lia.
  - apply andb_prop in H1 as [H1 _]. apply N.eqb_eq in H1. apply N.ltb_lt in H2. lia.
  - apply andb_prop in H1 as [H1 H1']. apply andb_prop in H2 as [_ H2'].
    apply N.eqb_eq in H1. subst y. f_equal. auto.
Qed.

Lemma insert_sorted_perm (x : str) (l : list str) : Permutation (insert_sorted x l) (x :: l).
Proof.
  induction l as [|y l IH]; simpl; [reflexivity|].
  destruct (str_leb x y); [reflexivity|].
  rewrite IH. apply perm_swap.
Qed.

Lemma insert_sorted_sorted (x : str) (l : list str) :
  StronglySorted str_le l -> StronglySorted str_le (insert_sorted x l).
Proof.
  induction 1 as [|y l Hs IH Hy]; simpl; [repeat constructor|].
  destruct (str_leb x y) eqn:E.
  - constructor; [now constructor|]. constructor; [exact E|].
    rewrite Forall_forall in *. intros z Hz. apply (str_leb_trans x y z E). now apply Hy.
  - constructor; [exact IH|].
    rewrite Forall_forall in *. intros z Hz.
    apply (Permutation_in _ (insert_sorted_perm x l)) in Hz as [<-|Hz].
    + now apply str_leb_total.
    + now apply Hy.
Qed.

Lemma sorted_perm (l : list str) : Permutation (sorted l) l.
Proof.
  induction l as [|x l IH]; [reflexivity|]. unfold sorted in *. cbn [fold_right].
  rewrite insert_sorted_perm. now constructor.
Qed.

Lemma sorted_sorted (l : list str) : StronglySorted str_le (sorted l).
Proof.
  induction l as [|x l IH]; [constructor|]. unfold sorted in *. cbn [fold_right].
  now apply insert_sorted_sorted.
Qed.

(** A sorted list without repetition is determined by its entries. *)
Lemma sorted_unique (l1 : list str) :
  forall l2,
    StronglySorted str_le l1 -> StronglySorted str_le l2 ->
    NoDup l1 -> NoDup l2 ->
    (forall x, In x l1 <-> In x l2) ->
    l1 = l2.
Proof.
  induction l1 as [|x1 l1 IH]; intros [|x2 l2] S1 S2 N1 N2 H.
  - reflexivity.
  - exfalso. apply (proj2 (H x2)). now left.
  - exfalso. apply (proj1 (H x1)). now left.
  - apply StronglySorted_inv in S1 as [S1 F1]. apply StronglySorted_inv in S2 as [S2 F2].
    rewrite Forall_forall in F1, F2.
    inversion N1 as [|? ? Hn1 N1']; subst. inversion N2 as [|? ? Hn2 N2']; subst.
    assert (E : x1 = x2).
    { destruct (proj1 (H x1) (or_introl eq_refl)) as [E|Hin1]; [now symmetry|].
      destruct (proj2 (H x2) (or_introl eq_refl)) as [E|Hin2]; [assumption|].
      apply str_leb_antisym; [now apply F1 | now apply F2]. }
    subst x2. f_equal. apply IH; try assumption.
    intros x. split; intros Hx.
    + destruct (proj1 (H x) (or_intror Hx)) as [<-|]; [contradiction | assumption].
    + destruct (proj2 (H x) (or_intror Hx)) as [<-|]; [contradiction | assumption].
Qed.

Lemma fromkeys_loop (l : list str) :
  forall acc, NoDup (acc ++ l) ->
    fold_left (fun acc x => if mem_str x acc then acc else acc ++ [x]) l acc = acc ++ l.
Proof.
  induction l as [|x l IH]; intros acc H; cbn [fold_left]; [now rewrite app_nil_r|].
  assert (Hx : mem_str x acc = false).
  { apply mem_str_not_In. apply NoDup_remove_2 in H. intros Hin. apply H.
    apply in_or_app. now left. }
  rewrite Hx, IH; rewrite <- app_assoc; [reflexivity | exact H].
Qed.

Lemma fromkeys_fixed (l : list str) : NoDup l -> fromkeys l = l.
Proof. intros H. apply (fromkeys_loop l []). exact H. Qed.

Lemma set_add_In (x y : str) (l : list str) : In x (set_add y l) <-> x = y \/ In x l.
Proof.
  unfold set_add. destruct (mem_str y l) eqn:E.
  - apply mem_str_In in E. split; [auto|]. intros [->|H]; assumption.
  - rewrite in_app_iff. simpl. split; intros H.
    + destruct H as [H|[H|[]]]; auto.
    + destruct H as [->|H]; auto.
Qed.

Lemma set_add_NoDup (y : str) (l : list str) : NoDup l -> NoDup (set_add y l).
Proof.
  intros H. unfold set_add. destruct (mem_str y l) eqn:E; [assumption|].
  apply mem_str_not_In in E. apply NoDup_app; [assumption | repeat constructor; intros [] |].
  intros x Hx [<-|[]]. contradiction.
Qed.

Lemma set_add_length (y : str) (l : list str) :
  List.length (set_add y l) <= S (List.length l).
Proof.
  unfold set_add. destruct (mem_str y l); [lia|]. rewrite length_app. simpl. lia.
Qed.

(** What the loop over the vocabulary collects. *)
Lemma skills_loop (low : str) (v : list str) :
  forall acc, NoDup acc ->
    let found :=
      fold_left (fun found skill =>
                   if is_some (search no_flags (skill_re skill) low)
                   then set_add (title skill) found else found) v acc in
    NoDup found
    /\ (forall s, In s found <->
                  In s acc \/ exists k, In k v /\ s = title k /\ skill_hit low k = true)
    /\ List.length found <= List.length acc + List.length v.
Proof.
  induction v as [|k v IH]; intros acc Hacc; cbn [fold_left].
  - split; [assumption|]. split; [|simpl; lia].
    intros s. split; [auto|]. intros [H|(k & [] & _)]. assumption.
  - set (acc' := if is_some (search no_flags (skill_re k) low)
                 then set_add (title k) acc else acc).
    assert (Hacc' : NoDup acc').
    { subst acc'. destruct (is_some _); [now apply set_add_NoDup | assumption]. }
    destruct (IH acc' Hacc') as (Hn & Hin & Hl). split; [exact Hn|]. split.
    + intros s. rewrite Hin. subst acc'. unfold skill_hit.
      destruct (is_some (search no_flags (skill_re k) low)) eqn:E.
      * rewrite set_add_In. split.
        -- intros [[->|H]|(k' & Hk & Hs)]; [right; exists k; simpl; auto | auto |].
           right. exists k'. simpl. tauto.
        -- intros [H|(k' & [<-|Hk] & -> & Hh)]; [auto | auto |].
           right. exists k'. auto.
      * split.
        -- intros [H|(k' & Hk & Hs)]; [auto|]. right. exists k'. simpl. tauto.
        -- intros [H|(k' & [<-|Hk] & -> & Hh)]; [auto | congruence |].
           right. exists k'. auto.
    + cbn [List.length]. subst acc'.
      destruct (is_some _); [pose proof (set_add_length (title k) acc)|]; lia.
Qed.

(** X12. The skills come out in ascending code point order without repetition,
    so the later removal of repetitions in [parse_file] changes nothing; they
    are the title-cased terms of the vocabulary that the lowercased text holds
    as whole words, at most as many as the vocabulary has terms; and the
    result does not depend on the order of the vocabulary. *)
Theorem extract_skills_result :
  (forall (text : str) (skills_list : list str),
     let skills := fst (extract_skills text skills_list) in
     StronglySorted str_le skills
     /\ NoDup skills
     /\ fromkeys skills = skills
     /\ (forall s, In s skills <->
                   exists k, In k skills_list /\ s = title k
                             /\ skill_hit (lower text) k = true)
     /\ List.length skills <= List.length skills_list)
  /\ (forall (text : str) (v1 v2 : list str),
        Permutation v1 v2 -> extract_skills text v1 = extract_skills text v2).
Proof.
  assert (K : forall text v,
             NoDup (skills_found (lower text) v)
             /\ (forall s, In s (skills_found (lower text) v) <->
                           exists k, In k v /\ s = title k
                                     /\ skill_hit (lower text) k = true)
             /\ List.length (skills_found (lower text) v) <= List.length v).
  { intros text v. destruct (skills_loop (lower text) v [] (NoDup_nil _)) as (Hn & Hin & Hl).
    split; [exact Hn|]. split; [|exact Hl].
    intros s. unfold skills_found. rewrite Hin. split; [|auto].
    intros [[]|H]. exact H. }
  split.
  - intros text v. unfold extract_skills. cbn [fst].
    destruct (K text v) as (Hn & Hin & Hl).
    pose proof (sorted_perm (skills_found (lower text) v)) as Hp.
    assert (Hnd : NoDup (sorted (skills_found (lower text) v))).
    { apply (Permutation_NoDup (Permutation_sym Hp) Hn). }
    split; [apply sorted_sorted|]. split; [exact Hnd|].
    split; [now apply fromkeys_fixed|]. split.
    + intros s. rewrite <- Hin. split; apply Permutation_in; [exact Hp | now symmetry].
    + now rewrite (Permutation_length Hp).
  - intros text v1 v2 Hv. unfold extract_skills.
    destruct (K text v1) as (Hn1 & Hin1 & _). destruct (K text v2) as (Hn2 & Hin2 & _).
    assert (Hsame : forall s, In s (skills_found (lower text) v1)
                              <-> In s (skills_found (lower text) v2)).
    { intros s. rewrite Hin1, Hin2. split; intros (k & Hk & Hs); exists k;
        (split; [|exact Hs]); [apply (Permutation_in _ Hv Hk)|].
      apply (Permutation_in _ (Permutation_sym Hv) Hk). }
    assert (Hperm : Permutation (skills_found (lower text) v1)
                                (skills_found (lower text) v2))
      by now apply NoDup_Permutation.
    f_equal.
    + pose proof (sorted_perm (skills_found (lower text) v1)) as P1.
      pose proof (sorted_perm (skills_found (lower text) v2)) as P2.
      apply sorted_unique; try apply sorted_sorted.
      * apply (Permutation_NoDup (Permutation_sym P1) Hn1).
      * apply (Permutation_NoDup (Permutation_sym P2) Hn2).
      * intros s. split; intros H.
        -- apply (Permutation_in _ (Permutation_sym P2)). apply Hsame.
           apply (Permutation_in _ P1 H).
        -- apply (Permutation_in _ (Permutation_sym P1)). apply Hsame.
           apply (Permutation_in _ P2 H).
    + now rewrite (Permutation_length Hperm), (Permutation_length Hv).
Qed.

(** ** Whole-word search of a skill *)

Lemma lits_match_self (p b : str) : lits_match no_flags p (p ++ b) = true.
Proof.
  induction p as [|x p IH]; [reflexivity|]. cbn [app lits_match]. rewrite IH.
  cbn. now rewrite N.eqb_refl.
Qed.

Lemma skipn_self (p b : str) : skipn (List.length p) (p ++ b) = b.
Proof. induction p as [|x p IH]; [reflexivity|]. exact IH. Qed.

Lemma results_not_behind (a : atom) (s : mstate) :
  results no_flags (NotBehind a) s
  = if starts_with (atom_match no_flags a) (before s) then [] else [s].
Proof. cbn [results]. unfold starts_with. now destruct (before s). Qed.

Lemma results_not_ahead (a : atom) (s : mstate) :
  results no_flags (NotAhead a) s
  = if starts_with (atom_match no_flags a) (after s) then [] else [s].
Proof. cbn [results]. unfold starts_with. now destruct (after s). Qed.

Lemma results_seq (f : flags) (r1 r2 : regex) (s : mstate) :
  results f (Seq r1 r2) s = flat_map (results f r2) (results f r1 s).
Proof. reflexivity. Qed.

(** The ways the skill pattern matches at a position. *)
Lemma results_skill_re (p l rr : str) :
  results no_flags (seqs [NotBehind alnum; escape p; NotAhead alnum]) (at_pos l rr)
  = if negb (starts_with alnum_char l) && lits_match no_flags p rr
       && negb (starts_with alnum_char (skipn (List.length p) rr))
    then [advance_state (at_pos l rr) (List.length p)] else [].
Proof.
  unfold seqs. cbn [fold_right].
  rewrite results_seq, results_not_behind. cbn [before at_pos]. fold alnum_char.
  destruct (starts_with alnum_char l); [reflexivity|]. cbn [negb andb flat_map].
  rewrite app_nil_r, results_seq, results_escape. cbn [after at_pos].
  destruct (lits_match no_flags p rr); [|reflexivity]. cbn [flat_map andb].
  rewrite app_nil_r, results_seq, results_not_ahead, after_advance_state.
  cbn [after at_pos]. fold alnum_char.
  destruct (starts_with alnum_char (skipn (List.length p) rr)); reflexivity.
Qed.

(** X13. A term of the vocabulary is found exactly when its lowercase form
    stands in the lowercased text with no character of [a-z0-9] right before
    it and none right after it. *)
Theorem skill_hit_whole_word :
  forall low skill : str,
    skill_hit low skill = true
    <-> exists a b,
          low = a ++ lower skill ++ b
          /\ ends_with alnum_char a = false
          /\ starts_with alnum_char b = false.
Proof.
  intros low skill. unfold skill_hit, skill_re. split.
  - intros H. apply is_some_exists in H as (m & H).
    apply search_where in H as (a & b & -> & H).
    apply match_at_In, In_results_group in H as (s1 & H & _).
    rewrite results_skill_re in H. rewrite app_nil_r in H.
    destruct (starts_with alnum_char (rev a)) eqn:Ea; [contradiction|].
    destruct (lits_match no_flags (lower skill) b) eqn:El; [|contradiction].
    destruct (starts_with alnum_char (skipn (List.length (lower skill)) b)) eqn:Eb;
      [contradiction|].
    apply lits_match_exact in El as (rest & ->). rewrite skipn_self in Eb.
    exists a, rest. auto.
  - intros (a & b & -> & Ha & Hb).
    assert (Hm : exists m, match_at no_flags
                             (seqs [NotBehind alnum; escape (lower skill); NotAhead alnum])
                             (rev a ++ []) (lower skill ++ b) = Some m).
    { eapply match_at_some. rewrite results_skill_re, app_nil_r.
      unfold ends_with in Ha. rewrite Ha, lits_match_self, skipn_self, Hb.
      now left. }
    destruct Hm as (m & Hm).
    destruct (search_from_some _ _ a [] _ m Hm) as (m' & Hs).
    unfold search. now rewrite Hs.
Qed.

(** ** Matches of a scan *)

(** Every match a scan reports is a way the pattern matches somewhere. *)
Lemma scan_matches (f : flags) (r : regex) :
  forall rr l skip gap gm,
    In gm (fst (scan f r l rr skip gap)) ->
    exists l' rr', In (snd gm) (results f (Group 0 r) (at_pos l' rr')).
Proof.
  assert (Hfind : forall l rr m, match_nonempty f r l rr = Some m ->
            In m (results f (Group 0 r) (at_pos l rr))).
  { intros l rr m H. unfold match_nonempty in H. now apply find_some in H. }
  induction rr as [|c rr IH]; intros l skip gap gm Hin; cbn [scan] in Hin.
  - destruct skip as [|k]; [|contradiction].
    destruct (match_at f r l []) as [m|] eqn:Em; [|contradiction].
    apply match_at_In in Em.
    assert (Hgm : gm = (rev gap, m)).
    { destruct (span l m); [destruct (match_nonempty f r l [])|];
        now destruct Hin as [<-|[]]. }
    subst gm. eauto.
  - destruct skip as [|k]; [|eauto].
    destruct (match_at f r l (c :: rr)) as [m|] eqn:Em; [|eauto].
    apply match_at_In in Em.
    destruct (span l m) as [|k].
    + destruct (match_nonempty f r l (c :: rr)) as [m'|] eqn:Em'.
      * destruct Hin as [<-|[<-|Hin]]; [eauto | apply Hfind in Em'; eauto | eauto].
      * destruct Hin as [<-|Hin]; eauto.
    + destruct Hin as [<-|Hin]; eauto.
Qed.

(** The groups that [re.findall] returns are as the pattern inside the group
    makes them, or empty. *)
Lemma finditer_capture (f : flags) (n : nat) (P : str -> Prop) (r : regex) (text : str) :
  groups_hold f (S n) P r -> P [] ->
  forall gm, In gm (fst (finditer f r text)) -> P (group_or_empty (snd gm) (S n)).
Proof.
  intros Hr H0 gm Hin. apply scan_matches in Hin as (l & rr & Hin).
  apply In_results_group_value in Hin as (s1 & w & H1 & _ & _ & _ & Eg).
  destruct (results_capture f (S n) P r Hr _ _ H1) as (w' & _ & C).
  unfold group_or_empty, group. rewrite Eg. cbn [assoc_group Nat.eqb].
  cbn [groups at_pos assoc_group] in C.
  destruct C as [->|(x & v & y & -> & _ & HP)]; assumption.
Qed.

(** ** Characters of a substitution *)

Lemma sub_out_nil (repl rest : str) : sub_out repl ([], rest) = rest.
Proof. reflexivity. Qed.

(** When the pattern has no empty match and fails only at characters in [P],
    the result of [re.sub] is made of such characters and of the
    replacement. *)
Lemma scan_chars (f : flags) (r : regex) (repl : str) (P : char -> Prop) :
  (forall l c rr, match_at f r l (c :: rr) = None -> P c) ->
  (forall l rr m, match_at f r l rr = Some m -> span l m <> 0) ->
  Forall P repl ->
  forall rr l skip gap,
    Forall P gap -> Forall P (sub_out repl (scan f r l rr skip gap)).
Proof.
  intros Hnone Hspan Hrepl.
  induction rr as [|c rr IH]; intros l skip gap Hgap; cbn [scan].
  - destruct skip as [|k]; [|rewrite sub_out_nil; now apply Forall_rev].
    destruct (match_at f r l []) as [m|] eqn:Em;
      [|rewrite sub_out_nil; now apply Forall_rev].
    pose proof (Hspan _ _ _ Em) as Hs. destruct (span l m); [contradiction|].
    unfold sub_out. simpl. rewrite !app_nil_r. apply Forall_app.
    split; [now apply Forall_rev | assumption].
  - destruct skip as [|k]; [|now apply IH].
    destruct (match_at f r l (c :: rr)) as [m|] eqn:Em.
    + pose proof (Hspan _ _ _ Em) as Hs. destruct (span l m); [contradiction|].
      rewrite sub_out_cons. apply Forall_app. split; [now apply Forall_rev|].
      apply Forall_app. split; [assumption|]. apply IH. constructor.
    + apply IH. constructor; [|assumption]. eapply Hnone. exact Em.
Qed.

Lemma sub_line_feeds (repl s : str) :
  single_line repl ->
  single_line (sub no_flags (Rep (Lit LF) 1 (Some 2) true) repl s).
Proof.
  intros Hr. rewrite sub_sub_out. unfold finditer. apply scan_chars.
  - intros l c rr H. rewrite match_at_rep in H. cbv zeta in H.
    cbn [run_length option_map] in H.
    destruct (atom_match no_flags (Lit LF) c) eqn:E; [discriminate|].
    cbn in E. intros ->. discriminate.
  - intros l rr m H. rewrite match_at_rep in H. cbv zeta in H.
    destruct (Nat.ltb_spec (run_length (atom_match no_flags (Lit LF)) (Some 2) rr) 1)
      as [|Hn]; [discriminate|].
    injection H as <-. rewrite span_advance; [lia | exact [] | apply run_length_le].
  - exact Hr.
  - constructor.
Qed.

(** ** Projects are single lines *)

Lemma split_on_pieces (sep : char) (s : str) :
  forall cur, Forall (fun c => c <> sep) cur ->
    Forall (Forall (fun c => c <> sep)) (split_on sep cur s).
Proof.
  induction s as [|c s IH]; intros cur H; cbn [split_on].
  - constructor; [now apply Forall_rev | constructor].
  - destruct (N.eqb_spec c sep) as [->|Hne].
    + constructor; [now apply Forall_rev | apply IH; constructor].
    + apply IH. now constructor.
Qed.

Lemma lstrip_by_Forall (P : char -> Prop) (p : char -> bool) (s : str) :
  Forall P s -> Forall P (lstrip_by p s).
Proof.
  intros H. destruct (lstrip_by_suffix p s) as (pre & E). rewrite E in H.
  now apply Forall_app in H.
Qed.

Lemma strip_by_Forall (P : char -> Prop) (p : char -> bool) (s : str) :
  Forall P s -> Forall P (strip_by p s).
Proof.
  intros H. destruct (strip_by_factor p s) as (pre & post & E). rewrite E in H.
  apply Forall_app in H as [_ H]. now apply Forall_app in H.
Qed.

Lemma join_Forall (P : char -> Prop) (sep : str) (l : list str) :
  Forall P sep -> Forall (Forall P) l -> Forall P (join sep l).
Proof.
  intros Hs. induction 1 as [|x l Hx Hl IH]; [constructor|].
  destruct l as [|y l]; [exact Hx|].
  change (join sep (x :: y :: l)) with (x ++ sep ++ join sep (y :: l)).
  repeat (apply Forall_app; split; try assumption).
Qed.

Lemma append_to_last_Forall (P : str -> Prop) (line : str) (combined : list (list str)) :
  forall combined',
    append_to_last combined line = Some combined' ->
    Forall (Forall P) combined -> P line -> Forall (Forall P) combined'.
Proof.
  induction combined as [|c cs IH]; intros combined' H Hc Hl; cbn [append_to_last] in H;
    [discriminate|].
  inversion Hc as [|? ? Hc1 Hcs]; subst.
  destruct cs as [|c' cs].
  - injection H as <-. constructor; [|constructor].
    apply Forall_app. split; [assumption | now constructor].
  - destruct (append_to_last (c' :: cs) line) as [cs'|] eqn:E; [|discriminate].
    cbn [bind] in H. injection H as <-. constructor; [assumption|]. now apply IH.
Qed.

Lemma block_loop_Forall (P : str -> Prop) (lines : list str) :
  Forall P lines ->
  forall st st', foldM block_step lines st = Some st' ->
    Forall (Forall P) (snd st) -> Forall (Forall P) (snd st').
Proof.
  induction 1 as [|line lines Hl Hls IH]; intros st st' H Hst; cbn [foldM] in H.
  - now injection H as <-.
  - destruct (block_step st line) as [st1|] eqn:E; [|discriminate]. cbn [bind] in H.
    apply (IH _ _ H). unfold block_step in E. destruct st as [title combined].
    cbn [snd] in Hst.
    destruct (isupper line); [now injection E as <-|].
    destruct (_ && negb _).
    { injection E as <-. cbn [snd]. apply Forall_app. split; [assumption|].
      repeat constructor. assumption. }
    destruct (_ && (_ || _)); [|now injection E as <-].
    destruct (append_to_last combined line) as [combined'|] eqn:Ea; [|discriminate].
    cbn [bind] in E. injection E as <-. cbn [snd].
    now apply (append_to_last_Forall P line combined).
Qed.

Lemma mapM_Forall {A B : Type} (g : A -> option B) (P : A -> Prop) (Q : B -> Prop)
    (l : list A) :
  (forall a b, P a -> g a = Some b -> Q b) ->
  Forall P l -> forall r, mapM g l = Some r -> Forall Q r.
Proof.
  intros Hg. induction 1 as [|a l Ha Hl IH]; intros r H; cbn [mapM] in H.
  - injection H as <-. constructor.
  - destruct (g a) as [b|] eqn:E; [|discriminate]. cbn [bind] in H.
    destruct (mapM g l) as [bs|]; [|discriminate]. cbn [bind] in H.
    injection H as <-. constructor; [now apply (Hg a) | now apply IH].
Qed.

Lemma single_line_lit (s : string) :
  forallb (fun c => negb (c =? LF)%N) (lit s) = true -> single_line (lit s).
Proof.
  unfold single_line. rewrite forallb_forall, Forall_forall.
  intros H c Hc E. specialize (H c Hc). subst c. discriminate.
Qed.

Lemma dash_line (t x : str) :
  single_line t -> single_line x -> single_line (t ++ ch " " :: EN_DASH :: ch " " :: x).
Proof.
  intros Ht Hx. apply Forall_app. split; [assumption|].
  repeat (constructor; [discriminate|]). assumption.
Qed.

Lemma project_of_group_line (c : list str) (p : str) :
  Forall single_line c -> project_of_group c = Some p -> single_line p.
Proof.
  intros Hc H. destruct c as [|title descs]; [discriminate|]. cbn [project_of_group] in H.
  inversion Hc as [|? ? Ht Hd]; subst. injection H as <-.
  destruct (nonempty _); [|assumption].
  apply dash_line; [assumption|].
  apply join_Forall; [now apply single_line_lit|].
  apply Forall_map. rewrite Forall_forall in *. intros d Hin.
  apply lstrip_by_Forall. now apply Hd.
Qed.

Lemma section_projects_lines (text : str) (ps : list str) :
  section_projects text = Some ps -> Forall single_line ps.
Proof.
  unfold section_projects. destruct (search re_SI section_re text) as [sec|].
  - destruct (group sec 2) as [block|]; [|discriminate]. cbn [bind].
    destruct (foldM block_step _ _) as [st|] eqn:E; [|discriminate]. cbn [bind].
    apply (mapM_Forall _ (Forall single_line)); [intros a b; apply project_of_group_line|].
    apply (block_loop_Forall single_line _) in E; [exact E| |constructor].
    apply Forall_map. rewrite Forall_forall. intros l Hl.
    apply filter_In in Hl as [Hl _]. apply strip_by_Forall.
    pose proof (split_on_pieces LF block [] (Forall_nil _)) as Hp.
    rewrite Forall_forall in Hp. now apply Hp.
  - intros [= <-]. constructor.
Qed.

Lemma dot_line (f : flags) (w : str) :
  f_s f = false -> forallb (atom_match f Dot) w = true -> single_line w.
Proof.
  intros Hf H. unfold single_line. rewrite forallb_forall in H. rewrite Forall_forall.
  intros c Hc ->. specialize (H _ Hc). cbn in H. now rewrite Hf in H.
Qed.

Lemma dots_consumed (s s1 : mstate) (w : str) :
  In s1 (results re_M (plus Dot) s) -> after s = w ++ after s1 -> single_line w.
Proof.
  intros H Ew. apply In_results_rep in H as (w' & Ea & Hw & _).
  assert (w' = w) by (apply (app_inv_tail (after s1)); congruence). subst w'.
  now apply (dot_line re_M).
Qed.

Lemma numbered_projects_lines (text : str) (ps : list str) :
  numbered_projects text = Some ps -> Forall single_line ps.
Proof.
  unfold numbered_projects, findall2. intros H.
  apply (mapM_Forall _ (fun item => single_line (snd item)) single_line) in H;
    [exact H| |].
  - intros [g1 g2] p Hg Hp. cbn [snd] in Hg. unfold numbered_project in Hp.
    cbn [snd] in Hp. assert (Ht : single_line (strip g2)) by now apply strip_by_Forall.
    destruct (search re_S (description_re (strip g2)) text) as [desc|].
    + destruct (group desc 1) as [g|]; [|discriminate]. cbn [bind] in Hp.
      injection Hp as <-. apply dash_line; [assumption|].
      apply sub_line_feeds. now apply single_line_lit.
    + now injection Hp as <-.
  - apply Forall_map. rewrite Forall_forall. intros gm Hin. cbn [snd].
    apply (finditer_capture re_M 1 single_line numbered_re text); [|constructor|exact Hin].
    cbn [groups_hold numbered_re seqs fold_right star].
    repeat match goal with
           | |- _ /\ _ => split
           end; try exact I; try (intros E; discriminate E).
    intros _ s s1 w. apply dots_consumed.
Qed.

Lemma bullet_projects_lines (text : str) : Forall single_line (bullet_projects text).
Proof.
  unfold bullet_projects, findall1. apply Forall_map. rewrite Forall_forall.
  intros b Hb. apply filter_In in Hb as [Hb _]. apply in_map_iff in Hb as (gm & <- & Hin).
  apply strip_by_Forall.
  apply (finditer_capture re_M 0 single_line bullet_re text); [|constructor|exact Hin].
  cbn [groups_hold bullet_re seqs fold_right star].
  repeat match goal with
         | |- _ /\ _ => split
         end; try exact I.
  intros _ s s1 w. apply dots_consumed.
Qed.

Lemma final_projects_Forall (P : char -> Prop) (projects : list str) :
  Forall (Forall P) projects ->
  forall acc, Forall (Forall P) acc -> Forall (Forall P) (fold_left final_step projects acc).
Proof.
  induction 1 as [|p ps Hp Hps IH]; intros acc Hacc; [assumption|].
  cbn [fold_left]. apply IH. unfold final_step.
  destruct (_ && negb _); [|assumption].
  apply Forall_app. split; [assumption|]. constructor; [|constructor].
  now apply strip_by_Forall.
Qed.

(** X14. No project holds a line feed: every entry of the list is a single
    line, whichever part of the extractor it comes from; in a record, the name
    and every project are words joined by single blanks. *)
Theorem projects_single_line :
  (forall (text : str) (ps : list str) (c : float),
     extract_projects text = Some (ps, c) -> Forall single_line ps)
  /\ (forall (file raw : str) (skills_list : list str) (rec : parsed),
        parse_file file raw skills_list = Some rec ->
        p_name rec = join (lit " ") (split (p_name rec))
        /\ Forall (fun p => p = join (lit " ") (split p)) (p_projects rec)).
Proof.
  assert (R : forall t, remove_duplicate_words t
                        = join (lit " ") (split (remove_duplicate_words t))).
  { intros t. now rewrite split_remove_duplicate_words. }
  split.
  - intros text ps c E. unfold extract_projects, bind in E.
    destruct (section_projects text) as [sect|] eqn:Es; [|discriminate].
    destruct (numbered_projects text) as [numbered|] eqn:En; [|discriminate].
    assert (Eps : ps = firstn 10 (final_projects (sect ++ numbered ++ bullet_projects text)))
      by congruence.
    rewrite Eps. apply Forall_firstn.
    apply (final_projects_Forall (fun c => c <> LF)); [|constructor].
    apply Forall_app. split; [exact (section_projects_lines text sect Es)|].
    apply Forall_app. split; [exact (numbered_projects_lines text numbered En)|].
    apply bullet_projects_lines.
  - intros file raw v rec H.
    apply parse_file_inv in H
      as (name & c_name & contacts & c_contact & cgpa & c_cgpa & projects & c_proj & conf
          & _ & _ & _ & _ & _ & ->).
    cbn [p_name p_projects]. split; [apply R|].
    apply Forall_map. rewrite Forall_forall. intros p _. apply R.
Qed.

(** ** Small vocabularies *)

Lemma skills_score_small (k n : nat) :
  1 <= k <= n -> n < 10 -> skills_score k n = f_0_98.
Proof.
  intros Hk Hn. unfold skills_score.
  assert (Hd : Nat.max 1 (n / 5) = 1).
  { assert (n / 5 < 2) by (apply Nat.Div0.div_lt_upper_bound; lia). lia. }
  rewrite Hd.
  destruct k as [|[|[|[|[|[|[|[|[|[|k]]]]]]]]]]; try lia; vm_compute; reflexivity.
Qed.

(** X15. With a vocabulary of fewer than ten terms, such as the one
    [load_skills_dict] falls back to, the confidence of the skills is 0.1 when
    no skill is found and 0.98 as soon as one is. *)
Theorem extract_skills_small_vocabulary :
  forall (text : str) (skills_list : list str),
    List.length skills_list < 10 ->
    (fst (extract_skills text skills_list) = []
     /\ snd (extract_skills text skills_list) = f_0_1)
    \/ (fst (extract_skills text skills_list) <> []
        /\ snd (extract_skills text skills_list) = f_0_98).
Proof.
  intros text v Hv. unfold extract_skills. cbn [fst snd].
  assert (Hl : List.length (skills_found (lower text) v) <= List.length v).
  { destruct (skills_loop (lower text) v [] (NoDup_nil _)) as (_ & _ & Hl). exact Hl. }
  pose proof (Permutation_length (sorted_perm (skills_found (lower text) v))) as Hp.
  destruct (skills_found (lower text) v) as [|x fs].
  - left. split; reflexivity.
  - right. split.
    + intros Hs. rewrite Hs in Hp. discriminate Hp.
    + apply skills_score_small; [simpl in *; lia | assumption].
Qed.

(** ** The record as a whole *)

Lemma section_confidence_map_some (d : list (string * float)) :
  forall r, section_confidence_map d = Some r ->
    Forall2 (fun kv kp => fst kp = fst kv
                          /\ round_int (fmul (snd kv) f_100) = Some (snd kp)) d r.
Proof.
  unfold section_confidence_map. induction d as [|[k v] d IH]; cbn [mapM].
  - intros r [= <-]. constructor.
  - cbn [fst snd]. destruct (round_int (fmul v f_100)) as [p|] eqn:Ep; [|discriminate].
    cbn [bind]. destruct (mapM _ d) as [r'|]; [|discriminate]. cbn [bind].
    intros r [= <-]. constructor; [split; [reflexivity | exact Ep] | now apply IH].
Qed.

Lemma split_ws_nonempty (s : str) : forall cur, cur <> [] -> split_ws cur s <> [].
Proof.
  induction s as [|c s IH]; intros cur H; simpl.
  - destruct cur; [contradiction | discriminate].
  - destruct (isspace c); [destruct cur; [contradiction | discriminate]|].
    apply IH. discriminate.
Qed.

Lemma join_nonempty (sep w : str) (ws : list str) : w <> [] -> join sep (w :: ws) <> [].
Proof.
  intros H. simpl. destruct ws; [assumption|]. destruct w; [contradiction | discriminate].
Qed.

(** Duplicate-word removal leaves a text with a word in it not empty. *)
Lemma remove_duplicate_words_nonempty (r : str) :
  r <> [] -> starts_with isspace r = false -> remove_duplicate_words r <> [].
Proof.
  intros Hne Hs. unfold remove_duplicate_words.
  destruct r as [|c r]; [contradiction|]. simpl in Hs.
  assert (Hw : split (c :: r) <> []).
  { unfold split. simpl. rewrite Hs. apply split_ws_nonempty. discriminate. }
  destruct (split (c :: r)) as [|w ws] eqn:E; [contradiction|].
  destruct (dedup_loop_inv (w :: ws)) as [_ _ Hsub _ Hfirst].
  assert (Hin : In w (dedup_words (w :: ws))).
  { apply (Hfirst 0 w eq_refl). intros j v Hj. inversion Hj. }
  assert (Htok : Forall token (dedup_words (w :: ws))).
  { apply (Forall_subseq _ _ _ Hsub). rewrite <- E. apply split_tokens. }
  destruct (dedup_words (w :: ws)) as [|w' ws']; [contradiction|].
  apply join_nonempty. inversion Htok as [|? ? [Hw' _] _]. exact Hw'.
Qed.

(** X16. A record holds the file name as given and the normalised text; its
    skills are those of the extractor unchanged; its name is not empty and
    repeats no word; its confidence map has the seven keys of the source in
    their order, with 50 for education and 0 for experience; the projects text
    is the projects joined by blanks. Normalising the raw text beforehand
    changes nothing. *)
Theorem parse_file_shape :
  (forall (file raw : str) (skills_list : list str),
     parse_file file (clean_text raw) skills_list = parse_file file raw skills_list)
  /\ (forall (file raw : str) (skills_list : list str) (rec : parsed),
        parse_file file raw skills_list = Some rec ->
        p_file rec = file
        /\ p_raw_text rec = clean_text raw
        /\ p_skills rec = fst (extract_skills (clean_text raw) skills_list)
        /\ p_projects_text rec = join (lit " ") (p_projects rec)
        /\ p_experience rec = []
        /\ p_name rec <> []
        /\ NoDup (map lower (split (p_name rec)))
        /\ map fst (p_confidence rec)
           = ["name"; "contact"; "skills"; "education"; "cgpa"; "projects";
              "experience"]%string
        /\ In ("education"%string, 50%Z) (p_confidence rec)
        /\ In ("experience"%string, 0%Z) (p_confidence rec)).
Proof.
  split.
  - intros file raw v. unfold parse_file. now rewrite clean_text_clean_text.
  - intros file raw v rec H.
    apply parse_file_inv in H
      as (name & c_name & contacts & c_contact & cgpa & c_cgpa & projects & c_proj & conf
          & En & _ & _ & _ & Ec & ->).
    cbn [p_file p_raw_text p_skills p_projects_text p_projects p_experience p_name
         p_confidence].
    repeat (split; [reflexivity|]).
    split.
    { set (text := clean_text raw) in *.
      destruct (extract_skills text v) as [skills c] eqn:E. cbn [fst].
      apply fromkeys_fixed.
      destruct (skills_loop (lower text) v [] (NoDup_nil _)) as (Hn & _ & _).
      unfold extract_skills in E. injection E as <- _.
      apply (Permutation_NoDup (Permutation_sym (sorted_perm _)) Hn). }
    repeat (split; [reflexivity|]).
    split.
    { destruct (extract_name_trimmed _ _ _ En) as (Hne & Hs).
      apply remove_duplicate_words_nonempty; [exact Hne|].
      rewrite <- Hs. apply strip_by_ends. }
    split.
    { rewrite split_remove_duplicate_words.
      destruct (dedup_loop_inv (split name)) as [_ Hnd _ _ _]. exact Hnd. }
    apply section_confidence_map_some in Ec.
    repeat match goal with
           | H : Forall2 _ (_ :: _) _ |- _ =>
               inversion H as [|[? ?] [? ?] ? ? [? ?] ?]; subst; clear H
           | H : Forall2 _ [] _ |- _ => inversion H; subst; clear H
           end.
    cbn [fst snd] in *. subst.
    split; [reflexivity|].
    repeat match goal with
           | H : round_int (fmul f_0_5 f_100) = Some _ |- _ =>
               vm_compute in H; injection H as <-
           | H : round_int (fmul f_0_0 f_100) = Some _ |- _ =>
               vm_compute in H; injection H as <-
           end.
    split; simpl; tauto.
Qed.

End Parser.

(** * Concrete runs *)

(** C1. The projects of the record can hold two equal entries, although
    the extractor removes repeated titles from the list it returns: for a
    file with the two bullet lines Chat Chat App and Chat App,
    [extract_projects] returns these two different titles, and the
    duplicate-word removal that [parse_file] applies to each of them
    afterwards makes them equal, so the record lists Chat App twice. *)
Lemma record_projects_repeat :
  (forall U : unicode_data,
     exists rec,
       parse_file U (lit "cv.txt") (lit "- Chat Chat App" ++ [LF] ++ lit "- Chat App") []
       = Some rec
       /\ p_projects rec = [lit "Chat App"; lit "Chat App"]
       /\ ~ NoDup (p_projects rec))
  /\ (forall U : unicode_data,
        exists c,
          extract_projects U (clean_text U (lit "- Chat Chat App" ++ [LF] ++ lit "- Chat App"))
          = Some ([lit "Chat Chat App"; lit "Chat App"], c)).
Proof.
  split; intros U.
  - eexists. split; [vm_compute; reflexivity|]. split; [reflexivity|].
    cbn [p_projects]. intros H. inversion H as [|x l Hx _]. apply Hx. left. reflexivity.
  - eexists. vm_compute. reflexivity.
Qed.

(** C2, instance: the text I used React daily with the vocabulary react. *)
Lemma confidences_bounded_witness :
  (Z.of_nat (List.length [lit "react"]) <= max_size)%Z
  /\ extract_skills ascii_only (lit "I used React daily") [lit "react"] = ([lit "React"], f_0_98)
  /\ confidence_ok (snd (extract_skills ascii_only (lit "I used React daily") [lit "react"]))
  /\ exists rec,
       parse_file ascii_only (lit "cv.txt") (lit "I used React daily") [lit "react"] = Some rec
       /\ Forall (fun kv => percentage_ok (snd kv)) (p_confidence rec).
Proof.
  assert (H : (Z.of_nat (List.length [lit "react"]) <= max_size)%Z)
    by (vm_compute; discriminate).
  split; [exact H|]. split; [vm_compute; reflexivity|].
  destruct (confidences_bounded ascii_only (lit "cv.txt") (lit "I used React daily")
              [lit "react"] H) as (_ & _ & Hs & _ & _ & _ & Hr & _).
  split; assumption.
Defined.

(** C3, failing input. With a vocabulary that holds the empty string, the
    empty text has a skill: the empty string, which the pattern of the
    extractor finds at the start of any text. *)
Lemma empty_text_has_skill :
  (forall U : unicode_data,
     exists rec,
       parse_file U (lit "cv.txt") [] [[]] = Some rec
       /\ p_skills rec = [[]]
       /\ p_skills rec <> [])
  /\ (forall U : unicode_data, extract_skills U [] [[]] = ([[]], f_0_98)).
Proof.
  split; intros U.
  - eexists. split; [vm_compute; reflexivity|]. split; [reflexivity | discriminate].
  - vm_compute. reflexivity.
Qed.

(** C3, instance: the empty text with the default vocabulary. *)
Lemma extraction_total_witness :
  Forall (fun s : str => s <> []) default_skills
  /\ exists rec,
       parse_file ascii_only (lit "cv.txt") [] default_skills = Some rec
       /\ p_name rec = lit "Unknown"
       /\ p_contacts rec = []
       /\ p_skills rec = []
       /\ p_projects rec = []
       /\ p_cgpa rec = []
       /\ p_language rec = lit "English".
Proof.
  assert (H : Forall (fun s : str => s <> []) default_skills)
    by (repeat constructor; discriminate).
  split; [exact H|].
  exact (proj2 (proj2 (extraction_total ascii_only)) (lit "cv.txt") default_skills H).
Defined.

(** C5, failing inputs. Both texts contain CGPA: 8.5 and 7.2/10, and the
    value returned is not 8.5: an earlier CGPA label takes the first number
    after it, and a longer number is taken whole. *)
Lemma cgpa_not_8_5 :
  (in_str (lit "CGPA: 8.5") (lit "CGPA 9.1, CGPA: 8.5, 7.2/10") = true
   /\ in_str (lit "7.2/10") (lit "CGPA 9.1, CGPA: 8.5, 7.2/10") = true
   /\ forall U : unicode_data,
        extract_cgpa U (lit "CGPA 9.1, CGPA: 8.5, 7.2/10") = Some (lit "9.1", f_0_99))
  /\ (in_str (lit "CGPA: 8.5") (lit "CGPA: 8.55 and 7.2/10") = true
      /\ in_str (lit "7.2/10") (lit "CGPA: 8.55 and 7.2/10") = true
      /\ forall U : unicode_data,
           extract_cgpa U (lit "CGPA: 8.55 and 7.2/10") = Some (lit "8.55", f_0_99)).
Proof.
  split; (split; [vm_compute; reflexivity|]); (split; [vm_compute; reflexivity|]);
    intros U; vm_compute; reflexivity.
Qed.

(** C5, instance: 7.2/10 before the label. *)
Lemma extract_cgpa_priority_witness :
  occurs ascii_only re_I (lit "CGPA") (lit "7.2/10 and ") = false
  /\ starts_with (isdecimal ascii_only) [] = false
  /\ extract_cgpa ascii_only (lit "7.2/10 and " ++ lit "CGPA: 8.5" ++ [])
     = Some (lit "8.5", f_0_99).
Proof.
  assert (H1 : occurs ascii_only re_I (lit "CGPA") (lit "7.2/10 and ") = false)
    by (vm_compute; reflexivity).
  assert (H2 : starts_with (isdecimal ascii_only) [] = false) by reflexivity.
  split; [exact H1|]. split; [exact H2|].
  exact (proj1 (extract_cgpa_priority ascii_only) (lit "7.2/10 and ") [] H1 H2).
Defined.

(** C6, failing inputs. The first text has no name candidate and contains
    jane.doe@x.com, and the name comes from the address before it; the second
    has no candidate and no address that the contact pattern accepts, and the
    name is not Unknown. *)
Lemma name_not_jane_doe :
  (in_str (lit "jane.doe@x.com") (lit "bob@x.com jane.doe@x.com") = true
   /\ forall U : unicode_data,
        name_candidate U (lit "bob@x.com jane.doe@x.com") = None
        /\ extract_name U (lit "bob@x.com jane.doe@x.com") = Some (lit "Bob", f_0_85))
  /\ (forall U : unicode_data,
        name_candidate U (lit "ab@") = None
        /\ search U no_flags email_re (lit "ab@") = None
        /\ extract_name U (lit "ab@") = Some (lit "Ab", f_0_85)).
Proof.
  split; [split; [vm_compute; reflexivity|]|]; intros U; repeat split; vm_compute; reflexivity.
Qed.

(** C6, instance: digits before the address. *)
Lemma extract_name_fallback_witness :
  name_candidate ascii_only (lit "12 " ++ lit "jane.doe@x.com" ++ []) = None
  /\ mem_char AT (lit "12 ") = false
  /\ ends_with ascii_isalpha (lit "12 ") = false
  /\ extract_name ascii_only (lit "12 " ++ lit "jane.doe@x.com" ++ [])
     = Some (lit "Jane Doe", f_0_85).
Proof.
  assert (H1 : name_candidate ascii_only (lit "12 " ++ lit "jane.doe@x.com" ++ []) = None)
    by (vm_compute; reflexivity).
  assert (H2 : mem_char AT (lit "12 ") = false) by (vm_compute; reflexivity).
  assert (H3 : ends_with ascii_isalpha (lit "12 ") = false) by (vm_compute; reflexivity).
  split; [exact H1|]. split; [exact H2|]. split; [exact H3|].
  exact (proj1 (extract_name_fallback ascii_only) (lit "12 ") [] H1 H2 H3).
Defined.

(** C7, failing inputs. Both texts contain the sentence; the first yields a
    third entry, the second another address. *)
Lemma contacts_not_exact :
  (in_str sentence (lit "github.com/u " ++ sentence) = true
   /\ forall U : unicode_data,
        exists c,
          extract_contacts U (lit "github.com/u " ++ sentence)
          = Some ([("phone"%string, lit "9876543210"); ("email"%string, lit "x@y.com");
                   ("github"%string, lit "github.com/u")], c))
  /\ (in_str sentence (lit "a@b.cd " ++ sentence) = true
      /\ forall U : unicode_data,
           extract_contacts U (lit "a@b.cd " ++ sentence)
           = Some ([("phone"%string, lit "9876543210"); ("email"%string, lit "a@b.cd")],
                   f_0_7)).
Proof.
  split; (split; [vm_compute; reflexivity|]); intros U.
  - eexists. vm_compute. reflexivity.
  - vm_compute. reflexivity.
Qed.

(** C7, instance: the sentence alone. *)
Lemma extract_contacts_sentence_witness :
  existsb (six_to_nine ascii_only) [] = false
  /\ mem_char AT [] = false
  /\ starts_with (domain_char ascii_only) [] = false
  /\ occurs ascii_only re_I (lit "linkedin.com/in/") ([] ++ sentence ++ []) = false
  /\ occurs ascii_only re_I (lit "github.com/") ([] ++ sentence ++ []) = false
  /\ extract_contacts ascii_only ([] ++ sentence ++ [])
     = Some ([("phone"%string, lit "9876543210"); ("email"%string, lit "x@y.com")], f_0_7).
Proof.
  assert (H4 : occurs ascii_only re_I (lit "linkedin.com/in/") ([] ++ sentence ++ []) = false)
    by (vm_compute; reflexivity).
  assert (H5 : occurs ascii_only re_I (lit "github.com/") ([] ++ sentence ++ []) = false)
    by (vm_compute; reflexivity).
  repeat (split; [first [reflexivity | assumption]|]).
  exact (proj2 (extract_contacts_sentence ascii_only) [] [] eq_refl eq_refl eq_refl H4 H5).
Defined.

(** C9, instance: the first token of John John Smith Smith is kept. *)
Lemma remove_duplicate_words_dedups_witness :
  nth_error (split (lit "John John Smith Smith")) 0 = Some (lit "John")
  /\ In (lit "John")
        (split (remove_duplicate_words ascii_only (lit "John John Smith Smith"))).
Proof.
  assert (H0 : nth_error (split (lit "John John Smith Smith")) 0 = Some (lit "John"))
    by (vm_compute; reflexivity).
  split; [exact H0|].
  destruct (remove_duplicate_words_dedups ascii_only (lit "John John Smith Smith"))
    as (_ & _ & H & _).
  apply (H 0 (lit "John") H0). intros j v Hj. inversion Hj.
Defined.

(** * Concrete runs of the further properties *)

(** X1, instance: a normalised text is returned as it is. *)
Lemma clean_text_normal_form_witness :
  normalised ascii_only (lit "a b" ++ [LF; LF] ++ lit "c")
  /\ starts_with isspace (lit "a b" ++ [LF; LF] ++ lit "c") = false
  /\ ends_with isspace (lit "a b" ++ [LF; LF] ++ lit "c") = false
  /\ clean_text ascii_only (lit "a b" ++ [LF; LF] ++ lit "c")
     = lit "a b" ++ [LF; LF] ++ lit "c".
Proof.
  assert (Hn : normalised ascii_only (lit "a b" ++ [LF; LF] ++ lit "c")).
  { split; [|split; vm_compute; reflexivity].
    repeat (constructor; [repeat split; discriminate|]). constructor. }
  assert (Hs : starts_with isspace (lit "a b" ++ [LF; LF] ++ lit "c") = false)
    by reflexivity.
  assert (He : ends_with isspace (lit "a b" ++ [LF; LF] ++ lit "c") = false)
    by reflexivity.
  split; [exact Hn|]. split; [exact Hs|]. split; [exact He|].
  exact (proj2 (clean_text_normal_form ascii_only) _ Hn Hs He).
Defined.

(** X2, instance: blanks, tabs and line ends around two words. *)
Lemma clean_text_keeps_words_witness :
  mem_char NUL (lit "  John " ++ [TAB] ++ lit " Smith" ++ [CR; LF]) = false
  /\ split (clean_text ascii_only (lit "  John " ++ [TAB] ++ lit " Smith" ++ [CR; LF]))
     = [lit "John"; lit "Smith"].
Proof.
  assert (H : mem_char NUL (lit "  John " ++ [TAB] ++ lit " Smith" ++ [CR; LF]) = false)
    by reflexivity.
  split; [exact H|].
  rewrite (proj1 (proj2 (clean_text_keeps_words ascii_only) _ H)). reflexivity.
Defined.

(** X4, instance: two different words. *)
Lemma remove_duplicate_words_idempotent_witness :
  NoDup (map (lower ascii_only) (split (lit "John  Smith")))
  /\ remove_duplicate_words ascii_only (lit "John  Smith") = lit "John Smith".
Proof.
  assert (H : NoDup (map (lower ascii_only) (split (lit "John  Smith")))).
  { vm_compute. apply NoDup_cons; [simpl; intros [E|[]]; discriminate E|].
    apply NoDup_cons; [intros []|]. apply NoDup_nil. }
  split; [exact H|].
  rewrite (proj1 (proj2 (remove_duplicate_words_idempotent ascii_only)) _ H). reflexivity.
Defined.

(** X5, instance: a text of two Kannada letters. *)
Lemma language_of_record_witness :
  exists rec,
    parse_file ascii_only (lit "cv.txt") [0x0C95%N; 0x0CA8%N] [] = Some rec
    /\ p_language rec = lit "Kannada".
Proof.
  destruct (parse_file ascii_only (lit "cv.txt") [0x0C95%N; 0x0CA8%N] []) as [rec|] eqn:E.
  - exists rec. split; [reflexivity|].
    rewrite (proj2 (language_of_record ascii_only) _ _ _ _ E). reflexivity.
  - exfalso. vm_compute in E. discriminate E.
Defined.

(** X6, instance: one bullet line. *)
Lemma extract_projects_entries_witness :
  extract_projects ascii_only (lit "- Chat App demo") = Some ([lit "Chat App demo"], f_0_9)
  /\ Forall (fun p => 5 < List.length p) [lit "Chat App demo"].
Proof.
  assert (H : extract_projects ascii_only (lit "- Chat App demo")
              = Some ([lit "Chat App demo"], f_0_9)) by (vm_compute; reflexivity).
  split; [exact H|].
  exact (proj1 (extract_projects_entries ascii_only _ _ _ H)).
Defined.

(** X7, instance: a NaN among the confidences. *)
Lemma section_confidence_map_errors_witness :
  Exists (fun kv : string * float => is_finite (snd kv) = false)
         [("name"%string, f_0_5); ("cgpa"%string, S754_nan)]
  /\ section_confidence_map [("name"%string, f_0_5); ("cgpa"%string, S754_nan)] = None.
Proof.
  assert (H : Exists (fun kv : string * float => is_finite (snd kv) = false)
                     [("name"%string, f_0_5); ("cgpa"%string, S754_nan)])
    by (apply Exists_cons_tl, Exists_cons_hd; reflexivity).
  split; [exact H|].
  exact (proj1 (proj2 (section_confidence_map_errors _)) H).
Defined.

(** X8, instance: the sentence with a phone number and an address. *)
Lemma extract_contacts_keys_witness :
  extract_contacts ascii_only sentence
  = Some ([("phone"%string, lit "9876543210"); ("email"%string, lit "x@y.com")], f_0_7)
  /\ f_0_7 = fmin (contact_sum ["phone"; "email"]%string) f_0_99.
Proof.
  assert (H : extract_contacts ascii_only sentence
              = Some ([("phone"%string, lit "9876543210"); ("email"%string, lit "x@y.com")],
                      f_0_7)) by (vm_compute; reflexivity).
  split; [exact H|].
  exact (proj1 (proj2 (extract_contacts_keys ascii_only _ _ _ H))).
Defined.

(** X9, instance: the same sentence; its address is a piece of it. *)
Lemma extract_contacts_values_witness :
  extract_contacts ascii_only sentence
  = Some ([("phone"%string, lit "9876543210"); ("email"%string, lit "x@y.com")], f_0_7)
  /\ in_str (lit "x@y.com") sentence = true.
Proof.
  assert (H : extract_contacts ascii_only sentence
              = Some ([("phone"%string, lit "9876543210"); ("email"%string, lit "x@y.com")],
                      f_0_7)) by (vm_compute; reflexivity).
  split; [exact H|].
  apply (proj1 (extract_contacts_values ascii_only _ _ _ H) "email"%string).
  right. left. reflexivity.
Defined.

(** X10, instance: a label without a number. *)
Lemma extract_cgpa_value_witness :
  existsb (isdecimal ascii_only) (lit "CGPA: n/a") = false
  /\ extract_cgpa ascii_only (lit "CGPA: n/a") = Some ([], f_0_0).
Proof.
  assert (H : existsb (isdecimal ascii_only) (lit "CGPA: n/a") = false) by reflexivity.
  split; [exact H|].
  exact (proj1 (proj2 (proj2 (extract_cgpa_value ascii_only))) _ H).
Defined.

(** X11, instance: a line with a first and a last name. *)
Lemma extract_name_outcome_witness :
  extract_name ascii_only (lit "John Smith") = Some (lit "John Smith", f_0_99)
  /\ strip (lit "John Smith") = lit "John Smith".
Proof.
  assert (H : extract_name ascii_only (lit "John Smith") = Some (lit "John Smith", f_0_99))
    by (vm_compute; reflexivity).
  split; [exact H|].
  exact (proj1 (proj2 (extract_name_outcome ascii_only _ _ _ H))).
Defined.

(** X12, instance: the vocabulary in two orders. *)
Lemma extract_skills_result_witness :
  Permutation [lit "react"; lit "aws"] [lit "aws"; lit "react"]
  /\ extract_skills ascii_only (lit "React on AWS") [lit "react"; lit "aws"]
     = extract_skills ascii_only (lit "React on AWS") [lit "aws"; lit "react"].
Proof.
  assert (H : Permutation [lit "react"; lit "aws"] [lit "aws"; lit "react"])
    by apply perm_swap.
  split; [exact H|].
  exact (proj2 (extract_skills_result ascii_only) _ _ _ H).
Defined.

(** X13, instance: the term react between a blank and a blank. *)
Lemma skill_hit_whole_word_witness :
  skill_hit ascii_only (lit "i used react daily") (lit "react") = true.
Proof.
  apply (proj2 (skill_hit_whole_word ascii_only _ _)).
  exists (lit "i used "), (lit " daily"). repeat split; reflexivity.
Defined.

(** X14, instance: a numbered title with its description on the next line. *)
Lemma projects_single_line_witness :
  extract_projects ascii_only (lit "1. Chat App" ++ [LF] ++ lit "built with python")
  = Some ([lit "Chat App " ++ [EN_DASH] ++ lit " built with python"], f_0_9)
  /\ Forall single_line [lit "Chat App " ++ [EN_DASH] ++ lit " built with python"].
Proof.
  assert (H : extract_projects ascii_only
                (lit "1. Chat App" ++ [LF] ++ lit "built with python")
              = Some ([lit "Chat App " ++ [EN_DASH] ++ lit " built with python"], f_0_9))
    by (vm_compute; reflexivity).
  split; [exact H|].
  exact (proj1 (projects_single_line ascii_only) _ _ _ H).
Defined.

(** X15, instance: the fallback vocabulary. *)
Lemma extract_skills_small_vocabulary_witness :
  List.length default_skills < 10
  /\ snd (extract_skills ascii_only (lit "I used React daily") default_skills) = f_0_98.
Proof.
  assert (H : List.length default_skills < 10) by (vm_compute; lia).
  split; [exact H|].
  destruct (extract_skills_small_vocabulary ascii_only (lit "I used React daily")
              default_skills H) as [[E _]|[_ E]]; [|exact E].
  exfalso. vm_compute in E. discriminate E.
Defined.

(** X16, instance: a text that is a name, with the fallback vocabulary. *)
Lemma parse_file_shape_witness :
  exists rec,
    parse_file ascii_only (lit "cv.txt") (lit "John Smith") default_skills = Some rec
    /\ p_name rec <> []
    /\ In ("education"%string, 50%Z) (p_confidence rec).
Proof.
  destruct (parse_file ascii_only (lit "cv.txt") (lit "John Smith") default_skills)
    as [rec|] eqn:E.
  - exists rec. split; [reflexivity|].
    destruct (proj2 (parse_file_shape ascii_only) _ _ _ _ E)
      as (_ & _ & _ & _ & _ & Hn & _ & _ & He & _).
    split; assumption.
  - exfalso. vm_compute in E. discriminate E.
Defined.

(** X17, instance: a project section with one title and its description. *)
Lemma extract_projects_cap_witness :
  exists rec,
    parse_file ascii_only (lit "cv.txt")
      (lit "Projects" ++ [LF] ++ lit "Chat App" ++ [LF] ++ lit "- built with python") []
    = Some rec
    /\ List.length (p_projects rec) <= 10.
Proof.
  destruct (parse_file ascii_only (lit "cv.txt")
              (lit "Projects" ++ [LF] ++ lit "Chat App" ++ [LF] ++ lit "- built with python") [])
    as [rec|] eqn:E.
  - exists rec. split; [reflexivity|].
    destruct (proj2 (extract_projects_cap ascii_only) _ _ _ _ E) as (ps & c & _ & _ & H).
    exact H.
  - exfalso. vm_compute in E. discriminate E.
Defined.
